(** * Shapley effects (econsa/shapley.py): a shallow embedding of [get_shapley]

    The development follows the three stages of the routine: the permutation
    generator (lines 88-98), the design builder (lines 100-125) and the
    effect estimator (lines 130-181).

    Conventions of the embedding.
    - Sample sizes and dimensions ([n_perms], [n_inputs], [n_output],
      [n_outer], [n_inner]) are natural numbers; the one place where the
      source computes a possibly negative integer, the row count handed to
      [np.zeros], is computed in [Z].  [get_shapley_int] is the routine for
      [n_perms] and [n_inputs] of any sign.
    - A NumPy float is read as the real number it denotes (exact arithmetic).
      NumPy does not raise on a division by zero or on the square root of a
      negative number: it yields nan or inf.  A [float] is therefore an
      [option R], [None] standing for such a non-finite value.  Where
      rounding is the point (the square root of line 168), the lines are
      given a second time on binary64 numbers, in the module [Binary64].
    - A two-dimensional array is the list of its rows.
    - Python exceptions and the global random state are threaded through a
      state-and-exception monad. *)

From Stdlib Require Import String Ascii DecimalString.
From Stdlib Require Import List Arith Lia ZArith Bool.
From Stdlib Require Import Permutation Sorted.
From Stdlib Require Import Reals Lra.
From Stdlib Require DecimalNat.
From Stdlib Require PrimFloat.
Import ListNotations.

Set Implicit Arguments.

(** ** Python lists and NumPy index helpers *)

(** [range(a, b)] *)
Definition range (a b : nat) : list nat := seq a (b - a).

(** [l[:n]] and [l[n:]] for a non-negative [n]. *)
Definition slice_to {A} (n : nat) (l : list A) : list A := firstn n l.
Definition slice_from {A} (n : nat) (l : list A) : list A := skipn n l.

(** ** [itertools.permutations(pool, r)]

    The r-length orderings of [pool] without repetition, emitted in the
    documented order: lexicographic in the positions of the pool.  Every way
    of choosing the first element, in pool order, is followed by the
    permutations of what is left. *)

Fixpoint selections {A} (l : list A) : list (A * list A) :=
  match l with
  | [] => []
  | x :: t => (x, t) :: map (fun yr => (fst yr, x :: snd yr)) (selections t)
  end.

Fixpoint itertools_permutations {A} (pool : list A) (r : nat) : list (list A) :=
  match r with
  | 0 => [[]]
  | S r' =>
      flat_map (fun xr => map (cons (fst xr)) (itertools_permutations (snd xr) r'))
               (selections pool)
  end.

(** Lexicographic order on index lists. *)
Inductive lex_lt : list nat -> list nat -> Prop :=
| lex_nil : forall y l, lex_lt [] (y :: l)
| lex_head : forall x y l1 l2, x < y -> lex_lt (x :: l1) (y :: l2)
| lex_tail : forall x l1 l2, lex_lt l1 l2 -> lex_lt (x :: l1) (x :: l2).

(** ** [np.argsort]

    The indices of [a] ordered by the value they select; equal values keep
    their index order.  (The default NumPy kind is not stable, but the
    routine only sorts permutations, whose entries are distinct.) *)

Fixpoint insert_by (key : nat -> nat) (i : nat) (l : list nat) : list nat :=
  match l with
  | [] => [i]
  | h :: t => if key i <=? key h then i :: l else h :: insert_by key i t
  end.

Definition np_argsort (a : list nat) : list nat :=
  fold_right (insert_by (fun i => nth i a 0)) [] (seq 0 (length a)).

(** ** Exceptions *)

(** The exceptions the routine can end with: NumPy's [ValueError] (negative
    dimension, shape mismatch), [IndexError], and whatever a collaborator
    (model or sampler) raises, which the routine never catches. *)
Inductive exn :=
| ValueError
| IndexError
| External (name : string).

Inductive outcome (A : Type) :=
| Returned (a : A)
| Raised (e : exn).
Arguments Raised {A} e.

Definition obind {A B} (c : outcome A) (k : A -> outcome B) : outcome B :=
  match c with
  | Returned a => k a
  | Raised e => Raised e
  end.

Declare Scope py_scope.
Delimit Scope py_scope with py.
Notation "x <- c ;; k" := (obind c (fun x => k))
  (at level 61, c at next level, right associativity) : py_scope.

(** [l[i]] for a non-negative index. *)
Definition getitem {A} (l : list A) (i : nat) : outcome A :=
  match nth_error l i with
  | Some x => Returned x
  | None => Raised IndexError
  end.

(** [l[i] = v] for a non-negative index. *)
Definition setitem {A} (l : list A) (i : nat) (v : A) : outcome (list A) :=
  if i <? length l then Returned (firstn i l ++ v :: skipn (S i) l)
  else Raised IndexError.

(** A Python [for] loop over a list, threading the loop-carried variables. *)
Fixpoint for_each {A S} (l : list A) (body : A -> S -> outcome S) (s : S)
  : outcome S :=
  match l with
  | [] => Returned s
  | x :: t => obind (body x s) (for_each t body)
  end.

(** ** Floats *)

Definition float := option R.
Definition nan : float := None.

Definition lift2 (f : R -> R -> R) (a b : float) : float :=
  match a, b with
  | Some x, Some y => Some (f x y)
  | _, _ => None
  end.

Definition fadd := lift2 Rplus.
Definition fsub := lift2 Rminus.
Definition fmul := lift2 Rmult.

(** Division: a zero divisor gives nan (0/0) or inf (x/0), both [None]. *)
Definition fdiv (a b : float) : float :=
  match a, b with
  | Some x, Some y => if Req_dec_T y 0 then None else Some (x / y)%R
  | _, _ => None
  end.

(** [np.sqrt]: nan on a negative argument. *)
Definition np_sqrt (a : float) : float :=
  match a with
  | Some x => if Rlt_dec x 0 then None else Some (sqrt x)
  | None => None
  end.

Definition of_nat (n : nat) : float := Some (INR n).

Definition np_sum (a : list float) : float := fold_right fadd (Some 0%R) a.

(** [np.mean(a)]: the sum divided by the number of elements. *)
Definition np_mean (a : list float) : float :=
  fdiv (np_sum a) (of_nat (length a)).

(** [np.var(a, ddof)]: the mean of the squared deviations from [np.mean(a)],
    with divisor [max(N - ddof, 0)]. *)
Definition np_var (ddof : nat) (a : list float) : float :=
  let arrmean := np_mean a in
  let x := map (fun v => fmul (fsub v arrmean) (fsub v arrmean)) a in
  fdiv (np_sum x) (of_nat (length a - ddof)).

(** ** Arrays *)

Definition matrix := list (list float).

(** [np.zeros((rows, cols))]; a negative dimension is a [ValueError]. *)
Definition np_zeros2 (rows : Z) (cols : nat) : outcome matrix :=
  if (rows <? 0)%Z then Raised ValueError
  else Returned (repeat (repeat (Some 0%R) cols) (Z.to_nat rows)).

Definition np_zeros (n : nat) : list float := repeat (Some 0%R) n.

(** [X.T] for an array [X] with [ncols] columns, all of whose rows have
    [ncols] entries.  The column count is stated because a list of rows
    does not record it when it has no row. *)
Definition column {A} (d : A) (i : nat) (X : list (list A)) : list A :=
  map (fun row => nth i row d) X.
Definition transpose (ncols : nat) (X : matrix) : matrix :=
  map (fun i => column nan i X) (seq 0 ncols).

(** [X.T] and [np.matrix(X).T] of what a sampler returned.  A sampler's
    result is a two-dimensional array with one row per input and one column
    per draw, so its transpose has one row per draw, however many draws
    there are.  Rows of unequal lengths do not make an array: NumPy refuses
    them ([ValueError]).  An array without rows is read as the one of shape
    [(0, n)], [n] being the number of draws that was asked for. *)
Definition np_T (n : nat) (X : matrix) : outcome matrix :=
  match X with
  | [] => Returned (repeat [] n)
  | r :: _ =>
      if forallb (fun s => length s =? length r) X
      then Returned (transpose (length r) X)
      else Raised ValueError
  end.

(** [np.concatenate((A, B), axis = 1)]: the row counts must agree. *)
Fixpoint zip_app {A} (X Y : list (list A)) : list (list A) :=
  match X, Y with
  | r :: X', s :: Y' => (r ++ s) :: zip_app X' Y'
  | _, _ => []
  end.
Definition np_concatenate_axis1 {A} (X Y : list (list A))
  : outcome (list (list A)) :=
  if length X =? length Y then Returned (zip_app X Y) else Raised ValueError.

(** [np.ones((n, 1)) * x] for a one-row matrix [x]: the row, [n] times. *)
Definition ones_times {A} (n : nat) (x : list A) : list (list A) := repeat x n.

(** [row[idx]] and [X[:, idx]] for an index array [idx]. *)
Fixpoint take {A} (row : list A) (idx : list nat) : outcome (list A) :=
  match idx with
  | [] => Returned []
  | i :: t =>
      (v <- getitem row i ;; r <- take row t ;; Returned (v :: r))%py
  end.
Fixpoint take_columns {A} (X : list (list A)) (idx : list nat)
  : outcome (list (list A)) :=
  match X with
  | [] => Returned []
  | row :: X' =>
      (r <- take row idx ;; R' <- take_columns X' idx ;; Returned (r :: R'))%py
  end.

(** [X[:, idx]] on an array of [w] columns checks the indices also when
    the array has no row. *)
Definition index_check (w : nat) (idx : list nat) : outcome unit :=
  if forallb (fun i => i <? w) idx then Returned tt else Raised IndexError.

(** A row of the value of a slice assignment, broadcast to [cols] columns:
    a row of one entry is repeated. *)
Definition broadcast_row (cols : nat) (r : list float) : list float :=
  if length r =? cols then r else repeat (hd nan r) cols.

(** [X[a:a+k, :] = B] for an array [X] of [cols] columns and a value [B] of
    [w] columns: the slice is clipped to the rows of [X], and [B] is
    broadcast to the shape of the slice.  Its number of rows must be that of
    the slice or 1, and its number of columns [cols] or 1; anything else is
    a [ValueError]. *)
Definition assign_rows (cols a k w : nat) (B X : matrix) : outcome matrix :=
  let lo := Nat.min a (length X) in
  let hi := Nat.min (a + k) (length X) in
  if ((length B =? hi - lo) || (length B =? 1))
     && ((w =? cols) || (w =? 1))
  then
    let rows :=
      if length B =? hi - lo then B else repeat (hd [] B) (hi - lo) in
    Returned (firstn lo X ++ map (broadcast_row cols) rows ++ skipn hi X)
  else Raised ValueError.

(** ** The result table *)

(** A [pd.DataFrame]: row labels, column labels and the cells, row by row. *)
Record DataFrame := {
  df_index : list string;
  df_columns : list string;
  df_values : matrix
}.

(** [pd.DataFrame(values, index = index, columns = columns)] *)
Definition pd_DataFrame (values : matrix) (index columns : list string)
  : DataFrame :=
  {| df_index := index; df_columns := columns; df_values := values |}.

(** [df.T] *)
Definition df_T (df : DataFrame) : DataFrame :=
  {| df_index := df_columns df;
     df_columns := df_index df;
     df_values := transpose (length (df_columns df)) (df_values df) |}.

(** [str(i)] for a non-negative integer. *)
Definition str (i : nat) : string := NilEmpty.string_of_uint (Nat.to_uint i).

(** ** The effect estimator (source lines 130-181) *)

(** The local variables of the estimation loops.  [model_output],
    [estimated_cost] and [delta] are assigned before they are read in every
    iteration. *)
Record locals := {
  output : list float;
  model_output : list float;
  conditional_variance : list float;
  estimated_cost : float;
  delta : float;
  previous_cost : float;
  shapley_effects : list float;
  shapley_effects_squared : list float
}.

Section Estimator.
Variables n_inputs n_outer n_inner : nat.
Variable output_variance : float.

(** Lines 155-157: one pass of [for l in range(n_outer)]. *)
Definition inner_step (l : nat) (s : locals) : outcome locals :=
  let model_output' := slice_to n_inner (output s) in
  let output' := slice_from n_inner (output s) in
  (cv <- setitem (conditional_variance s) l (np_var 1 model_output') ;;
   Returned {| output := output';
               model_output := model_output';
               conditional_variance := cv;
               estimated_cost := estimated_cost s;
               delta := delta s;
               previous_cost := previous_cost s;
               shapley_effects := shapley_effects s;
               shapley_effects_squared := shapley_effects_squared s |})%py.

(** Lines 149-159: the cost of split [j] and its increment. *)
Definition cost_step (j : nat) (s : locals) : outcome locals :=
  if j =? n_inputs - 1 then
    Returned {| output := output s;
                model_output := model_output s;
                conditional_variance := conditional_variance s;
                estimated_cost := output_variance;
                delta := fsub output_variance (previous_cost s);
                previous_cost := previous_cost s;
                shapley_effects := shapley_effects s;
                shapley_effects_squared := shapley_effects_squared s |}
  else
    (s1 <- for_each (range 0 n_outer) inner_step s ;;
     let cost := np_mean (conditional_variance s1) in
     Returned {| output := output s1;
                 model_output := model_output s1;
                 conditional_variance := conditional_variance s1;
                 estimated_cost := cost;
                 delta := fsub cost (previous_cost s1);
                 previous_cost := previous_cost s1;
                 shapley_effects := shapley_effects s1;
                 shapley_effects_squared := shapley_effects_squared s1 |})%py.

(** Lines 148-164: one pass of [for j in range(n_inputs)]. *)
Definition split_step (perms : list nat) (j : nat) (s : locals)
  : outcome locals :=
  (s1 <- cost_step j s ;;
   i <- getitem perms j ;;
   e <- getitem (shapley_effects s1) i ;;
   effects <- setitem (shapley_effects s1) i (fadd e (delta s1)) ;;
   i' <- getitem perms j ;;
   e2 <- getitem (shapley_effects_squared s1) i' ;;
   squares <- setitem (shapley_effects_squared s1) i'
                      (fadd e2 (fmul (delta s1) (delta s1))) ;;
   Returned {| output := output s1;
               model_output := model_output s1;
               conditional_variance := conditional_variance s1;
               estimated_cost := estimated_cost s1;
               delta := delta s1;
               previous_cost := estimated_cost s1;
               shapley_effects := effects;
               shapley_effects_squared := squares |})%py.

(** Line 146: [previous_cost = 0]. *)
Definition reset_previous_cost (s : locals) : locals :=
  {| output := output s;
     model_output := model_output s;
     conditional_variance := conditional_variance s;
     estimated_cost := estimated_cost s;
     delta := delta s;
     previous_cost := Some 0%R;
     shapley_effects := shapley_effects s;
     shapley_effects_squared := shapley_effects_squared s |}.

Variable permutations : list (list nat).

(** Lines 143-164: one pass of [for p in range(n_perms)]. *)
Definition perm_step (p : nat) (s : locals) : outcome locals :=
  (perms <- getitem permutations p ;;
   for_each (range 0 n_inputs) (split_step perms) (reset_previous_cost s))%py.
End Estimator.

(** Elementwise array arithmetic. *)
Fixpoint zip_with {A B C} (f : A -> B -> C) (a : list A) (b : list B) : list C :=
  match a, b with
  | x :: a', y :: b' => f x y :: zip_with f a' b'
  | _, _ => []
  end.

(** Lines 131-140: the locals on entry to the estimation loops.
    [estimated_cost] and [delta] are not yet bound there; the placeholder is
    never read. *)
Definition initial_locals (n_inputs n_output n_outer : nat)
    (output0 : list float) : locals :=
  {| output := slice_from n_output output0;
     model_output := slice_to n_output output0;
     conditional_variance := np_zeros n_outer;
     estimated_cost := nan;
     delta := nan;
     previous_cost := nan;
     shapley_effects := np_zeros n_inputs;
     shapley_effects_squared := np_zeros n_inputs |}.

(** Line 137: [np.var(output[:n_output])]. *)
Definition variance_of_output (n_output : nat) (output0 : list float) : float :=
  np_var 0 (slice_to n_output output0).

(** Lines 143-164: the estimation loops. *)
Definition estimation_loops (permutations : list (list nat))
    (n_perms n_inputs n_output n_outer n_inner : nat)
    (output0 : list float) : outcome locals :=
  for_each (range 0 n_perms)
    (perm_step n_inputs n_outer n_inner
               (variance_of_output n_output output0) permutations)
    (initial_locals n_inputs n_output n_outer output0).

(** Lines 166-173: what the table is made of. *)
Record estimates := {
  effects : list float;
  effects_squared : list float;
  standard_errors : list float;
  CI_min : list float;
  CI_max : list float
}.

Definition z95 : float := Some (196 / 100)%R.

Definition normalize (n_perms : nat) (output_variance : float) (s : locals)
  : estimates :=
  let shapley_effects :=
    map (fun e => fdiv (fdiv e (of_nat n_perms)) output_variance)
        (shapley_effects s) in
  let shapley_effects_squared :=
    map (fun e => fdiv (fdiv e (of_nat n_perms))
                       (fmul output_variance output_variance))
        (shapley_effects_squared s) in
  let standard_errors :=
    zip_with (fun sq e => np_sqrt (fdiv (fsub sq (fmul e e)) (of_nat n_perms)))
             shapley_effects_squared shapley_effects in
  {| effects := shapley_effects;
     effects_squared := shapley_effects_squared;
     standard_errors := standard_errors;
     CI_min := zip_with (fun e se => fsub e (fmul z95 se))
                        shapley_effects standard_errors;
     CI_max := zip_with (fun e se => fadd e (fmul z95 se))
                        shapley_effects standard_errors |}.

(** The standard error as the specification words it,
    [sqrt(max(squared_mean - effect**2, 0) / n_perms)], to be compared with
    the third component of [normalize]. *)
Definition fmax := lift2 Rmax.

Definition spec_standard_error (n_perms : nat) (squared_mean effect : float)
  : float :=
  np_sqrt (fdiv (fmax (fsub squared_mean (fmul effect effect)) (Some 0%R))
                (of_nat n_perms)).

(** Lines 175-181: the labelled table. *)
Definition labels (n_inputs : nat) : list string :=
  map (fun i => ("X" ++ str i)%string) (map (fun i => i + 1) (range 0 n_inputs)).

Definition table (n_inputs : nat) (e : estimates) : DataFrame :=
  df_T (pd_DataFrame
          [effects e; standard_errors e; CI_min e; CI_max e]
          ["Shapley effects"; "std. errors"; "CI_min"; "CI_max"]%string
          (labels n_inputs)).

(** Lines 130-181. *)
Definition estimate (permutations : list (list nat))
    (n_perms n_inputs n_output n_outer n_inner : nat)
    (output0 : list float) : outcome DataFrame :=
  (s <- estimation_loops permutations n_perms n_inputs n_output n_outer
                         n_inner output0 ;;
   Returned (table n_inputs
               (normalize n_perms (variance_of_output n_output output0) s)))%py.

(** Line 124: the first design row of the block of triple [(p, j, l)].  The
    expression is only evaluated inside [for j in range(1, n_inputs)], where
    [j >= 1] and [n_inputs >= 2], so no subtraction goes below zero. *)
Definition inner_indices (n_inputs n_output n_outer n_inner p j l : nat) : nat :=
  n_output + p * (n_inputs - 1) * n_outer * n_inner
  + (j - 1) * n_outer * n_inner + l * n_inner.

(** Line 101: the row count handed to [np.zeros]. *)
Definition design_rows (n_perms n_inputs n_output n_outer n_inner : nat) : Z :=
  (Z.of_nat n_output
   + Z.of_nat n_perms * (Z.of_nat n_inputs - 1) * Z.of_nat n_outer
     * Z.of_nat n_inner)%Z.

(** Lines 123-125: the rows written for one outer draw. *)
Definition inner_block (perms_sorted : list nat) (n_inner : nat)
    (sample_inputs : matrix) (xjc : list float) : outcome matrix :=
  (concatenated_sample <-
     np_concatenate_axis1 sample_inputs (ones_times n_inner xjc) ;;
   take_columns concatenated_sample perms_sorted)%py.

(** ** The routine, with its random state and collaborators *)

Section GetShapley.
(** The state the routine's draws come from: NumPy's global generator and
    whatever the collaborators keep. *)
Variable G : Type.

Definition M (A : Type) : Type := G -> outcome (A * G).

Definition ret {A} (a : A) : M A := fun g => Returned (a, g).
Definition bind {A B} (c : M A) (k : A -> M B) : M B :=
  fun g => match c g with
           | Returned (a, g') => k a g'
           | Raised e => Raised e
           end.
Definition lift {A} (c : outcome A) : M A :=
  fun g => match c with
           | Returned a => Returned (a, g)
           | Raised e => Raised e
           end.

Notation "x <~ c ;; k" := (bind c (fun x => k))
  (at level 61, c at next level, right associativity).

Fixpoint for_eachM {A S} (l : list A) (body : A -> S -> M S) (s : S) : M S :=
  match l with
  | [] => ret s
  | x :: t => bind (body x s) (for_eachM t body)
  end.

(** [np.random.permutation(n)]: a permutation of [range(n)] drawn from the
    global generator. *)
Variable np_random_permutation : nat -> G -> list nat * G.

(** The collaborators: [model], [Xall] and [Xcond]. *)
Variable model : matrix -> M (list float).
Variable Xall : nat -> M matrix.
Variable Xcond :
  nat -> list nat -> option (list nat) -> option (list float) -> M matrix.

(** Lines 88-98: the permutations and the definitive [n_perms]. *)
Definition generate_permutations (method : string) (n_perms n_inputs : nat)
  : M (list (list nat) * nat) :=
  if String.eqb method "exact" then
    let permutations :=
      itertools_permutations (range 0 n_inputs) n_inputs in
    ret (permutations, length permutations)
  else
    permutations <~
      for_eachM (range 0 n_perms)
        (fun i permutations =>
           fun g =>
             let (row, g') := np_random_permutation n_inputs g in
             lift (setitem permutations i row) g')
        (repeat (repeat 0 n_inputs) n_perms) ;;
    ret (permutations, length permutations).

(** Lines 118-125: one pass of [for l in range(n_outer)]. *)
Definition build_block (n_inputs n_output n_outer n_inner p j : nat)
    (perms_sorted Sj Sjc : list nat) (xjc_sampled : matrix)
    (l : nat) (model_inputs : matrix) : M matrix :=
  xjc <~ lift (getitem xjc_sampled l) ;;
  X <~ Xcond n_inner Sj (Some Sjc) (Some xjc) ;;
  sample_inputs <~ lift (np_T n_inner X) ;;
  block <~ lift (inner_block perms_sorted n_inner sample_inputs xjc) ;;
  checked <~ lift (index_check (length X + length xjc) perms_sorted) ;;
  lift (assign_rows n_inputs
          (inner_indices n_inputs n_output n_outer n_inner p j l)
          n_inner (length perms_sorted) block model_inputs).

(** Lines 109-125: one pass of [for j in range(1, n_inputs)]. *)
Definition build_split (n_inputs n_output n_outer n_inner p : nat)
    (perms perms_sorted : list nat) (j : nat) (model_inputs : matrix)
  : M matrix :=
  let Sj := slice_to j perms in
  let Sjc := slice_from j perms in
  X <~ Xcond n_outer Sjc None None ;;
  xjc_sampled <~ lift (np_T n_outer X) ;;
  for_eachM (range 0 n_outer)
    (build_block n_inputs n_output n_outer n_inner p j perms_sorted Sj Sjc
                 xjc_sampled)
    model_inputs.

(** Lines 104-125: one pass of [for p in range(n_perms)]. *)
Definition build_perm (permutations : list (list nat))
    (n_inputs n_output n_outer n_inner : nat)
    (p : nat) (model_inputs : matrix) : M matrix :=
  perms <~ lift (getitem permutations p) ;;
  let perms_sorted := np_argsort perms in
  for_eachM (range 1 n_inputs)
    (build_split n_inputs n_output n_outer n_inner p perms perms_sorted)
    model_inputs.

(** Lines 100-125: the design matrix. *)
Definition build_design (permutations : list (list nat))
    (n_perms n_inputs n_output n_outer n_inner : nat) : M matrix :=
  model_inputs <~
    lift (np_zeros2 (design_rows n_perms n_inputs n_output n_outer n_inner)
                    n_inputs) ;;
  X <~ Xall n_output ;;
  unconditional <~ lift (np_T n_output X) ;;
  model_inputs <~
    lift (assign_rows n_inputs 0 n_output (length X) unconditional
                      model_inputs) ;;
  for_eachM (range 0 n_perms)
    (build_perm permutations n_inputs n_output n_outer n_inner)
    model_inputs.

Definition get_shapley (method : string)
    (n_perms n_inputs n_output n_outer n_inner : nat) : M DataFrame :=
  pn <~ generate_permutations method n_perms n_inputs ;;
  let permutations := fst pn in
  let n_perms := snd pn in
  model_inputs <~
    build_design permutations n_perms n_inputs n_output n_outer n_inner ;;
  output <~ model model_inputs ;;
  lift (estimate permutations n_perms n_inputs n_output n_outer n_inner
                 output).

(** Lines 88-98 and the rest for [n_perms] and [n_inputs] of any sign.
    [itertools.permutations] refuses a negative length (line 89) and
    [np.zeros] a negative dimension (line 94), each with a [ValueError];
    in exact mode the [n_perms] passed is not read.  Otherwise both are
    natural numbers and the routine is [get_shapley]. *)
Definition negative_size (method : string) (n_perms n_inputs : Z) : bool :=
  (n_inputs <? 0)%Z
  || (negb (String.eqb method "exact") && (n_perms <? 0)%Z).

Definition get_shapley_int (method : string) (n_perms n_inputs : Z)
    (n_output n_outer n_inner : nat) : M DataFrame :=
  if negative_size method n_perms n_inputs then lift (Raised ValueError)
  else get_shapley method (Z.to_nat n_perms) (Z.to_nat n_inputs)
                   n_output n_outer n_inner.

(** *** What the builder draws

    The calls of [Xcond] the design builder makes, in the order of the
    source and on the same running state, without the array the draws
    are written into: for each permutation and split the outer sample
    (line 115), then for each outer draw the inner sample (line 121). *)
Fixpoint mapM {A B} (f : A -> M B) (l : list A) : M (list B) :=
  match l with
  | [] => ret []
  | x :: t => y <~ f x ;; ys <~ mapM f t ;; ret (y :: ys)
  end.

Definition sample_inner (n_inner : nat) (Sj Sjc : list nat)
    (xjc_sampled : matrix) (l : nat) : M matrix :=
  xjc <~ lift (getitem xjc_sampled l) ;;
  Xcond n_inner Sj (Some Sjc) (Some xjc).

Definition sample_split (n_outer n_inner : nat) (perms : list nat)
    (j : nat) : M (matrix * list matrix) :=
  X <~ Xcond n_outer (slice_from j perms) None None ;;
  xjc_sampled <~ lift (np_T n_outer X) ;;
  inner <~ mapM (sample_inner n_inner (slice_to j perms)
                              (slice_from j perms) xjc_sampled)
                (range 0 n_outer) ;;
  ret (X, inner).

Definition sample_perm (permutations : list (list nat))
    (n_inputs n_outer n_inner : nat) (p : nat)
  : M (list (matrix * list matrix)) :=
  perms <~ lift (getitem permutations p) ;;
  mapM (sample_split n_outer n_inner perms) (range 1 n_inputs).

Definition samples (permutations : list (list nat))
    (n_perms n_inputs n_outer n_inner : nat)
  : M (list (list (matrix * list matrix))) :=
  mapM (sample_perm permutations n_inputs n_outer n_inner)
       (range 0 n_perms).
End GetShapley.

(** The outer sample of split [j] of permutation [p] among the draws [tr]
    of a run, and the inner sample of its [l]-th outer draw. *)
Definition outer_sample (tr : list (list (matrix * list matrix)))
    (p j : nat) : matrix :=
  fst (nth (j - 1) (nth p tr []) ([], [])).

Definition inner_sample (tr : list (list (matrix * list matrix)))
    (p j l : nat) : matrix :=
  nth l (snd (nth (j - 1) (nth p tr []) ([], []))) [].

(** Lines 115-123 and the column selection of line 125 on given samples:
    the rows made of the outer sample [Xout] of a split and of the inner
    sample [Xin] of its [l]-th draw. *)
Definition block_of_samples (perms : list nat) (n_outer n_inner : nat)
    (Xout : matrix) (l : nat) (Xin : matrix) : outcome matrix :=
  (xjc_sampled <- np_T n_outer Xout ;;
   xjc <- getitem xjc_sampled l ;;
   sample_inputs <- np_T n_inner Xin ;;
   inner_block (np_argsort perms) n_inner sample_inputs xjc)%py.

(** ** Program points of the estimation loops

    The locals at chosen points of the run on an output vector [output0];
    the claims about single iterations are stated on them. *)

Section ProgramPoints.
Variable permutations : list (list nat).
Variables n_inputs n_output n_outer n_inner : nat.
Variable output0 : list float.

(** On entry to the pass of permutation [p]. *)
Definition entering_perm (p : nat) : outcome locals :=
  for_each (range 0 p)
    (perm_step n_inputs n_outer n_inner
               (variance_of_output n_output output0) permutations)
    (initial_locals n_inputs n_output n_outer output0).

(** On entry to split [j] of permutation [p]. *)
Definition entering_split (p j : nat) : outcome locals :=
  (s <- entering_perm p ;;
   perms <- getitem permutations p ;;
   for_each (range 0 j)
     (split_step n_inputs n_outer n_inner
                 (variance_of_output n_output output0) perms)
     (reset_previous_cost s))%py.

(** After the inner block [l] of split [j] of permutation [p] is taken. *)
Definition after_block (p j l : nat) : outcome locals :=
  (s <- entering_split p j ;;
   for_each (range 0 (S l)) (inner_step n_inner) s)%py.

(** After split [j] of permutation [p]. *)
Definition after_split (p j : nat) : outcome locals :=
  (s <- entering_split p j ;;
   perms <- getitem permutations p ;;
   split_step n_inputs n_outer n_inner
              (variance_of_output n_output output0) perms j s)%py.

(** The values of [output0] that belong to the design rows of the block
    written for triple [(p, j, l)]: [output0[off : off + n_inner]] with
    [off] the block's offset. *)
Definition outputs_of_block (p j l : nat) : list float :=
  slice_to n_inner
    (slice_from (inner_indices n_inputs n_output n_outer n_inner p j l)
                output0).
End ProgramPoints.

(** ** Variances as the specification words them *)

Definition Rsum (xs : list R) : R := fold_right Rplus 0%R xs.
Definition Rmean (xs : list R) : R := (Rsum xs / INR (length xs))%R.
Definition sum_sq_dev (xs : list R) : R :=
  Rsum (map (fun x => (x - Rmean xs) * (x - Rmean xs))%R xs).

(** Population variance: denominator [N]. *)
Definition population_variance (xs : list R) : R :=
  (sum_sq_dev xs / INR (length xs))%R.

(** Sample variance with Bessel's correction: denominator [N - 1]. *)
Definition bessel_variance (xs : list R) : R :=
  (sum_sq_dev xs / (INR (length xs) - 1))%R.

Definition finite (x : float) : Prop := exists r, x = Some r.

(** ** Closed forms of the loops

    What the loops compute, written as functions of the output vector; the
    lemmas of the second part show that the loops of the source compute
    exactly these. *)

(** [a[i] = a[i] + d] *)
Definition bump (i : nat) (d : float) (a : list float) : list float :=
  firstn i a ++ fadd (nth i a nan) d :: skipn (S i) a.

(** The [l]-th run of [n_inner] values of [out]. *)
Definition block_of (n_inner : nat) (out : list float) (l : nat) : list float :=
  firstn n_inner (skipn (l * n_inner) out).

Section ClosedForms.
Variables n_inputs n_outer n_inner : nat.
Variable V : float.

(** The cost of split [j] when the unread output is [out]. *)
Definition cost_of (out : list float) (j : nat) : float :=
  if j =? n_inputs - 1 then V
  else np_mean (map (fun l => np_var 1 (block_of n_inner out l))
                    (seq 0 n_outer)).

(** The unread output after split [j]. *)
Definition advance (out : list float) (j : nat) : list float :=
  if j =? n_inputs - 1 then out else skipn (n_outer * n_inner) out.

(** The unread output on entry to split [j] of a pass that starts with
    [out] unread. *)
Definition unread (out : list float) (j : nat) : list float :=
  skipn (Nat.min j (n_inputs - 1) * (n_outer * n_inner)) out.

Definition pass_cost (out : list float) (j : nat) : float :=
  cost_of (unread out j) j.

Definition pass_prev (out : list float) (j : nat) : float :=
  match j with
  | 0 => Some 0%R
  | S j' => pass_cost out j'
  end.

Definition pass_delta (out : list float) (j : nat) : float :=
  fsub (pass_cost out j) (pass_prev out j).

Definition pass_effects (perms : list nat) (out : list float) (k : nat)
    (a : list float) : list float :=
  fold_left (fun a j => bump (nth j perms 0) (pass_delta out j) a)
            (seq 0 k) a.

Definition pass_squares (perms : list nat) (out : list float) (k : nat)
    (a : list float) : list float :=
  fold_left (fun a j => bump (nth j perms 0)
                             (fmul (pass_delta out j) (pass_delta out j)) a)
            (seq 0 k) a.

(** The locals after [k] passes of the inner loop started in [s0]. *)
Definition inner_inv (s0 : locals) (k : nat) (s : locals) : Prop :=
  output s = skipn (k * n_inner) (output s0) /\
  conditional_variance s =
    map (fun l => np_var 1 (block_of n_inner (output s0) l)) (seq 0 k)
    ++ skipn k (conditional_variance s0) /\
  model_output s =
    match k with
    | 0 => model_output s0
    | S k' => block_of n_inner (output s0) k'
    end /\
  estimated_cost s = estimated_cost s0 /\
  delta s = delta s0 /\
  previous_cost s = previous_cost s0 /\
  shapley_effects s = shapley_effects s0 /\
  shapley_effects_squared s = shapley_effects_squared s0.

(** The locals after [k] splits of a pass over [perms] started in [s0]. *)
Record pass_inv (perms : list nat) (s0 : locals) (k : nat) (s : locals)
  : Prop := {
  pi_output : output s = unread (output s0) k;
  pi_cv : length (conditional_variance s) = n_outer;
  pi_prev : previous_cost s = pass_prev (output s0) k;
  pi_effects :
    shapley_effects s = pass_effects perms (output s0) k (shapley_effects s0);
  pi_squares :
    shapley_effects_squared s =
    pass_squares perms (output s0) k (shapley_effects_squared s0);
  pi_last : forall j, k = S j ->
    estimated_cost s = pass_cost (output s0) j /\
    delta s = pass_delta (output s0) j
}.
End ClosedForms.

(** Index lists the accumulators can be addressed with. *)
Definition index_lists (n_inputs : nat) (permutations : list (list nat)) : Prop :=
  Forall (fun perms => length perms = n_inputs /\
                       Forall (fun i => i < n_inputs) perms) permutations.

Section RunClosedForms.
Variable permutations : list (list nat).
Variables n_inputs n_output n_outer n_inner : nat.
Variable output0 : list float.

(** The unread output on entry to the pass of permutation [p]. *)
Definition pass_start (p : nat) : list float :=
  skipn (p * ((n_inputs - 1) * (n_outer * n_inner)))
        (slice_from n_output output0).

Definition run_effects (k : nat) : list float :=
  fold_left (fun a p => pass_effects n_inputs n_outer n_inner
                          (variance_of_output n_output output0)
                          (nth p permutations []) (pass_start p) n_inputs a)
            (seq 0 k) (np_zeros n_inputs).

Definition run_squares (k : nat) : list float :=
  fold_left (fun a p => pass_squares n_inputs n_outer n_inner
                          (variance_of_output n_output output0)
                          (nth p permutations []) (pass_start p) n_inputs a)
            (seq 0 k) (np_zeros n_inputs).

(** The locals after [k] permutation passes. *)
Record run_inv (k : nat) (s : locals) : Prop := {
  ri_output : output s = pass_start k;
  ri_cv : length (conditional_variance s) = n_outer;
  ri_effects : shapley_effects s = run_effects k;
  ri_squares : shapley_effects_squared s = run_squares k
}.
End RunClosedForms.

(** The position of triple [(p, j, l)] in the order the blocks are written,
    and the triples the design builder visits. *)
Definition rank (n_inputs n_outer p j l : nat) : nat :=
  (p * (n_inputs - 1) + (j - 1)) * n_outer + l.

Definition in_range (n_perms n_inputs n_outer p j l : nat) : Prop :=
  p < n_perms /\ 1 <= j < n_inputs /\ l < n_outer.

(** Orders used for the enumeration and the sort. *)
Definition fst_lt (a b : nat * list nat) : Prop := fst a < fst b.
Definition key_le (key : nat -> nat) (a b : nat) : Prop := key a <= key b.

(** The real values behind the block of triple [(p, j, l)] when the output
    vector is finite, with real entries [ys]. *)
Definition real_block (n_inputs n_output n_outer n_inner : nat) (ys : list R)
    (p j l : nat) : list R :=
  firstn n_inner
    (skipn (inner_indices n_inputs n_output n_outer n_inner p j l) ys).

(** ** The accumulators on finite values *)

Definition real_of (x : float) : R :=
  match x with
  | Some r => r
  | None => 0%R
  end.

(** [ra] with entry [i] replaced by [x]. *)
Definition Rupd (i : nat) (x : R) (ra : list R) : list R :=
  firstn i ra ++ x :: skipn (S i) ra.

(** Whether input [i] has had its increment within the first [j] splits of
    a pass over [perms]. *)
Definition visits (perms : list nat) (j i : nat) : nat :=
  if existsb (Nat.eqb i) (firstn j perms) then 1 else 0.

(** The accumulators [a] (increments) and [b] (squared increments) hold
    finite values, the increments sum to [total], and entry [i] has
    received [m i] increments. *)
Definition acc_inv (n : nat) (m : nat -> nat) (total : R) (a b : list float)
  : Prop :=
  exists ra rb,
    a = map Some ra /\ b = map Some rb /\
    length ra = n /\ length rb = n /\
    Rsum ra = total /\
    forall i, i < n ->
      (0 <= nth i rb 0 /\ nth i ra 0 * nth i ra 0 <= INR (m i) * nth i rb 0)%R.

(** Every inner-block variance and every mean over the outer draws that the
    run computes has a nonzero divisor. *)
Definition costs_defined (n_inputs n_outer n_inner : nat) : Prop :=
  n_inputs <= 1 \/ (2 <= n_inner /\ 1 <= n_outer).

(** The increment of split [j] of permutation [p], as a real number. *)
Definition run_delta (n_inputs n_output n_outer n_inner : nat)
    (output0 : list float) (p j : nat) : R :=
  real_of (pass_delta n_inputs n_outer n_inner
             (variance_of_output n_output output0)
             (pass_start n_inputs n_output n_outer n_inner output0 p) j).

(** An array with [rows] rows and [cols] columns. *)
Definition shaped (rows cols : nat) (X : matrix) : Prop :=
  length X = rows /\ Forall (fun r => length r = cols) X.

(** The draws of one split are well shaped: the outer sample has one row
    per input of [perms[j:]] and [n_outer] draws, and there is one inner
    sample per outer draw, each with one row per input of [perms[:j]] and
    [n_inner] draws. *)
Definition split_shaped (n_inputs n_outer n_inner j : nat)
    (b : matrix * list matrix) : Prop :=
  shaped (n_inputs - j) n_outer (fst b) /\
  length (snd b) = n_outer /\
  forall l, l < n_outer -> shaped j n_inner (nth l (snd b) []).

(** The rows written for one outer draw, for a split and for a permutation,
    in closed form: entry [c] of row [i] of a block is entry
    [np.argsort(perms)[c]] of draw [i] of the inner sample followed by draw
    [l] of the outer sample. *)
Definition block_rows (perms : list nat) (n_outer n_inner : nat)
    (Xout : matrix) (l : nat) (Xin : matrix) : matrix :=
  map (fun r =>
         map (fun c => nth c (r ++ nth l (transpose n_outer Xout) []) nan)
             (np_argsort perms))
      (transpose n_inner Xin).

Definition split_rows (perms : list nat) (n_outer n_inner : nat)
    (b : matrix * list matrix) : matrix :=
  concat (map (fun l => block_rows perms n_outer n_inner (fst b) l
                                   (nth l (snd b) []))
              (seq 0 n_outer)).

Definition perm_rows (perms : list nat) (n_inputs n_outer n_inner : nat)
    (tp : list (matrix * list matrix)) : matrix :=
  concat (map (fun t => split_rows perms n_outer n_inner
                                   (nth t tp ([], [])))
              (seq 0 (n_inputs - 1))).

Definition conditional_rows (permutations : list (list nat))
    (n_perms n_inputs n_outer n_inner : nat)
    (tr : list (list (matrix * list matrix))) : matrix :=
  concat (map (fun p => perm_rows (nth p permutations []) n_inputs n_outer
                                  n_inner (nth p tr []))
              (seq 0 n_perms)).

(** ** A deterministic instance of the collaborators

    Used to run the routine on concrete inputs: the "random" permutation is
    the identity, a sampler asked for [n] draws of [d] inputs returns the
    ramp [0, 1, ..., n-1] for each input, and the model sums its inputs. *)

Definition identity_permutation (n : nat) (g : unit) : list nat * unit :=
  (seq 0 n, g).

Definition ramp (d n : nat) : matrix :=
  repeat (map (fun i => Some (INR i)) (seq 0 n)) d.

Definition ramp_Xall (d n : nat) : M unit matrix :=
  fun g => Returned (ramp d n, g).

Definition ramp_Xcond (n : nat) (S : list nat) (Sc : option (list nat))
    (x : option (list float)) : M unit matrix :=
  fun g => Returned (ramp (length S) n, g).

Definition sum_model (X : matrix) : M unit (list float) :=
  fun g => Returned (map np_sum X, g).

(** A conditional sampler that ignores the number of draws it is asked for
    and returns a single draw of each input. *)
Definition one_draw_Xcond (n : nat) (S : list nat) (Sc : option (list nat))
    (x : option (list float)) : M unit matrix :=
  fun g => Returned (ramp (length S) 1, g).

(** ** Lines 131-132 and 143-168 on binary64 numbers, for a single input

    NumPy computes on IEEE binary64 numbers, and the square root of line 168
    is where rounding shows.  For a routine with one input the lines are
    given here on the kernel's binary64 numbers, as functions of
    [output_variance], the binary64 value line 137 computed.  With
    [n_inputs = 1] every permutation is [[0]] and its only split is the last
    one ([j = 0 = n_inputs - 1]): the [else] branch of line 153 is never
    taken, no conditional output is read, and [n_outer] and [n_inner] play
    no part.  The arrays [shapley_effects] and [shapley_effects_squared]
    have the single entry 0.  [x ** 2] is the correctly rounded square
    [x * x]. *)
Module Binary64.
Import PrimFloat.
Local Open Scope float_scope.

(** Entry 0 of the two accumulators. *)
Record accumulators := {
  shapley_effects_0 : PrimFloat.float;
  shapley_effects_squared_0 : PrimFloat.float
}.

(** Lines 131-132. *)
Definition initial : accumulators :=
  {| shapley_effects_0 := 0; shapley_effects_squared_0 := 0 |}.

(** Lines 145-164 for one permutation. *)
Definition perm_step (output_variance : PrimFloat.float) (s : accumulators)
  : accumulators :=
  let previous_cost := 0 in
  let estimated_cost := output_variance in
  let delta := estimated_cost - previous_cost in
  {| shapley_effects_0 := shapley_effects_0 s + delta;
     shapley_effects_squared_0 := shapley_effects_squared_0 s + delta * delta |}.

(** Lines 143-164: [for p in range(n_perms)]. *)
Fixpoint estimation_loops (n_perms : nat) (output_variance : PrimFloat.float)
    (s : accumulators) : accumulators :=
  match n_perms with
  | O => s
  | S k => estimation_loops k output_variance (perm_step output_variance s)
  end.

(** The binary64 number of a count (exact below [2^53]). *)
Fixpoint of_nat (n : nat) : PrimFloat.float :=
  match n with
  | O => 0
  | S k => of_nat k + 1
  end.

Record estimates := {
  effect : PrimFloat.float;
  effect_squared : PrimFloat.float;
  standard_error : PrimFloat.float
}.

(** Lines 166-168. *)
Definition normalize (n_perms : nat) (output_variance : PrimFloat.float)
    (s : accumulators) : estimates :=
  let shapley_effects :=
    shapley_effects_0 s / of_nat n_perms / output_variance in
  let shapley_effects_squared :=
    shapley_effects_squared_0 s / of_nat n_perms
    / (output_variance * output_variance) in
  let standard_errors :=
    sqrt ((shapley_effects_squared - shapley_effects * shapley_effects)
          / of_nat n_perms) in
  {| effect := shapley_effects;
     effect_squared := shapley_effects_squared;
     standard_error := standard_errors |}.

(** The standard error as the specification words it,
    [sqrt(max(squared_mean - effect**2, 0) / n_perms)]. *)
Definition spec_standard_error (n_perms : nat)
    (squared_mean effect : PrimFloat.float) : PrimFloat.float :=
  let radicand := squared_mean - effect * effect in
  sqrt ((if radicand <? 0 then 0 else radicand) / of_nat n_perms).

Definition zero : PrimFloat.float := 0.
Definition one : PrimFloat.float := 1.

(** [np.var] of the three outputs 0, 1, 5: their mean is 2, the squared
    deviations 4, 1 and 9 add up to 14, all of it exactly; the variance is
    the binary64 quotient of 14 by 3. *)
Definition variance_of_0_1_5 : PrimFloat.float := 14 / 3.

(** A positive variance whose square is below the smallest positive
    binary64 number. *)
Definition tiny_variance : PrimFloat.float := 0x1p-600.
End Binary64.

(** A finite output vector for the concrete runs. *)
Definition six_outputs : list R :=
  [0; 1; 2; 4; 3; 7]%R.

(** ** Successive draws *)

(** The first [k] draws of [np.random.permutation(n)] from the generator
    state [g], in order, and the state they leave. *)
Fixpoint draws {G} (rp : nat -> G -> list nat * G) (n k : nat) (g : G)
  : list (list nat) * G :=
  match k with
  | 0 => ([], g)
  | S k' =>
      let (row, g1) := rp n g in
      let (rows, g2) := draws rp n k' g1 in
      (row :: rows, g2)
  end.

(** ** A deterministic instance that tallies the sampler calls

    The state is the number of calls of the conditional sampler so far; the
    other collaborators leave it alone. *)

Definition tally_permutation (n : nat) (k : nat) : list nat * nat :=
  (seq 0 n, k).

Definition tally_Xall (d n : nat) : M nat matrix :=
  fun k => Returned (ramp d n, k).

Definition tally_Xcond (n : nat) (Sj : list nat) (Sjc : option (list nat))
    (xjc : option (list float)) : M nat matrix :=
  fun k => Returned (ramp (length Sj) n, S k).

Definition tally_model (X : matrix) : M nat (list float) :=
  fun k => Returned (map np_sum X, k).

(** ** Collaborators that fail *)




(** * Properties *)

Section Selections.
Context {A : Type}.

Lemma selections_length (l : list A) : length (selections l) = length l.
Proof.
  induction l as [|x t IH]; simpl; [reflexivity|].
  now rewrite length_map, IH.
Qed.

Lemma selections_perm (l : list A) xr :
  In xr (selections l) -> Permutation (fst xr :: snd xr) l.
Proof.
  revert xr; induction l as [|x t IH]; simpl; intros xr H; [contradiction|].
  destruct H as [<-|H]; [reflexivity|].
  apply in_map_iff in H as [[y r] [<- Hin]]; simpl.
  apply IH in Hin; simpl in Hin.
  rewrite perm_swap. now constructor.
Qed.

Lemma selections_complete (l : list A) x p :
  Permutation (x :: p) l ->
  exists rest, In (x, rest) (selections l) /\ Permutation p rest.
Proof.
  revert p; induction l as [|y t IH]; intros p H.
  - apply Permutation_sym, Permutation_nil in H. discriminate.
  - assert (Hx : In x (y :: t)) by (eapply Permutation_in; [exact H|now left]).
    destruct Hx as [->|Hx].
    + exists t; split; [now left|]. now apply Permutation_cons_inv in H.
    + destruct (in_split _ _ Hx) as [t1 [t2 ->]].
      assert (Hp : Permutation p (y :: t1 ++ t2)).
      { apply Permutation_cons_inv with (a := x).
        rewrite H. rewrite perm_swap. constructor.
        symmetry. apply Permutation_middle. }
      assert (Hy : In y p) by (eapply Permutation_in; [symmetry; exact Hp|now left]).
      destruct (in_split _ _ Hy) as [p1 [p2 ->]].
      destruct (IH (p1 ++ p2)) as [rest [Hin Hr]].
      { rewrite <- Permutation_middle. constructor.
        apply Permutation_cons_inv with (a := y).
        rewrite <- Hp. apply Permutation_middle. }
      exists (y :: rest); split.
      * right. apply in_map_iff. exists (x, rest). now split.
      * rewrite <- Permutation_middle. now constructor.
Qed.
End Selections.

(** *** The exhaustive enumeration *)

Lemma flat_map_length_const {A B} (f : A -> list B) (l : list A) (k : nat) :
  (forall a, In a l -> length (f a) = k) ->
  length (flat_map f l) = length l * k.
Proof.
  induction l as [|a t IH]; simpl; intros H; [reflexivity|].
  rewrite length_app, H, IH by auto. reflexivity.
Qed.

Lemma selections_snd_length {A} (l : list A) xr :
  In xr (selections l) -> S (length (snd xr)) = length l.
Proof.
  intros H. apply selections_perm in H.
  apply Permutation_length in H. exact H.
Qed.

Lemma itertools_permutations_length {A} (r : nat) :
  forall pool : list A,
    length pool = r -> length (itertools_permutations pool r) = fact r.
Proof.
  induction r as [|r IH]; intros pool Hlen; simpl; [reflexivity|].
  rewrite flat_map_length_const with (k := fact r).
  - rewrite selections_length, Hlen. lia.
  - intros xr Hin. rewrite length_map. apply IH.
    apply selections_snd_length in Hin. lia.
Qed.

Lemma itertools_permutations_sound {A} (r : nat) :
  forall (pool p : list A),
    length pool = r -> In p (itertools_permutations pool r) ->
    Permutation p pool.
Proof.
  induction r as [|r IH]; intros pool p Hlen; simpl.
  - intros [<-|[]]. destruct pool; [reflexivity|discriminate].
  - intros H. apply in_flat_map in H as [xr [Hsel H]].
    apply in_map_iff in H as [q [<- Hq]].
    rewrite <- (selections_perm _ _ Hsel). constructor.
    apply IH; [|exact Hq].
    apply selections_snd_length in Hsel. lia.
Qed.

Lemma itertools_permutations_complete {A} (r : nat) :
  forall (pool p : list A),
    length pool = r -> Permutation p pool ->
    In p (itertools_permutations pool r).
Proof.
  induction r as [|r IH]; intros pool p Hlen Hp; simpl.
  - destruct pool; [|discriminate].
    apply Permutation_sym, Permutation_nil in Hp. now left.
  - destruct p as [|x p].
    { apply Permutation_length in Hp. simpl in Hp. lia. }
    destruct (selections_complete Hp) as [rest [Hin Hr]].
    apply in_flat_map. exists (x, rest); split; [exact Hin|].
    apply in_map. simpl. apply IH; [|exact Hr].
    apply selections_snd_length in Hin. simpl in Hin. lia.
Qed.

(** Lexicographic order of the enumeration. *)

Lemma lex_lt_irrefl (l : list nat) : ~ lex_lt l l.
Proof.
  induction l as [|x t IH]; intros H; inversion H; subst; [lia|auto].
Qed.

Lemma StronglySorted_append {A} (R : A -> A -> Prop) (l1 l2 : list A) :
  StronglySorted R l1 -> StronglySorted R l2 ->
  (forall a b, In a l1 -> In b l2 -> R a b) ->
  StronglySorted R (l1 ++ l2).
Proof.
  induction l1 as [|x t IH]; simpl; intros H1 H2 H; [exact H2|].
  inversion H1; subst. constructor.
  - apply IH; auto.
  - apply Forall_app; split; [assumption|].
    apply Forall_forall. intros b Hb. apply H; auto.
Qed.

Lemma StronglySorted_flat_map {A B} (Ra : A -> A -> Prop) (Rb : B -> B -> Prop)
    (f : A -> list B) (l : list A) :
  StronglySorted Ra l ->
  (forall a, In a l -> StronglySorted Rb (f a)) ->
  (forall a a' b b', In a l -> In a' l -> Ra a a' ->
                     In b (f a) -> In b' (f a') -> Rb b b') ->
  StronglySorted Rb (flat_map f l).
Proof.
  induction l as [|a t IH]; simpl; intros Hs Hin Hx; [constructor|].
  inversion Hs; subst.
  apply StronglySorted_append.
  - apply Hin. now left.
  - apply IH; auto.
    intros a1 a2 b1 b2 Ha1 Ha2. apply Hx; now right.
  - intros b b' Hb Hb'. apply in_flat_map in Hb' as [a' [Ha' Hb']].
    rewrite Forall_forall in H2.
    apply Hx with (a := a) (a' := a'); simpl; auto.
Qed.

Lemma StronglySorted_map_mono {A B} (Ra : A -> A -> Prop) (Rb : B -> B -> Prop)
    (f : A -> B) (l : list A) :
  (forall a a', Ra a a' -> Rb (f a) (f a')) ->
  StronglySorted Ra l -> StronglySorted Rb (map f l).
Proof.
  intros Hf. induction 1 as [|a t Hs IH Hall]; simpl; constructor; auto.
  apply Forall_map. eapply Forall_impl; [|exact Hall]. auto.
Qed.

Lemma StronglySorted_NoDup {A} (R : A -> A -> Prop) (l : list A) :
  (forall a, ~ R a a) -> StronglySorted R l -> NoDup l.
Proof.
  intros Hirr. induction 1 as [|a t Hs IH Hall]; constructor; auto.
  intros Hin. rewrite Forall_forall in Hall. exact (Hirr a (Hall a Hin)).
Qed.

Lemma selections_sorted (l : list nat) :
  StronglySorted lt l ->
  StronglySorted fst_lt (selections l) /\
  (forall xr, In xr (selections l) -> StronglySorted lt (snd xr)) /\
  (forall xr, In xr (selections l) -> In (fst xr) l).
Proof.
  induction 1 as [|x t Hs IH Hall]; simpl.
  - repeat split; [constructor|contradiction|contradiction].
  - destruct IH as [IH1 [IH2 IH3]]. rewrite Forall_forall in Hall.
    repeat split.
    + constructor.
      * eapply StronglySorted_map_mono; [|exact IH1].
        intros a a' Ha; exact Ha.
      * apply Forall_map, Forall_forall. intros yr Hyr.
        unfold fst_lt; simpl. apply Hall, IH3, Hyr.
    + intros xr [<-|H]; [exact Hs|].
      apply in_map_iff in H as [yr [<- Hyr]]; simpl.
      constructor; [apply IH2, Hyr|].
      apply Forall_forall. intros z Hz. apply Hall.
      eapply Permutation_in; [apply (selections_perm _ _ Hyr)|now right].
    + intros xr [<-|H]; [now left|].
      apply in_map_iff in H as [yr [<- Hyr]]; simpl. right. apply IH3, Hyr.
Qed.

Lemma itertools_permutations_lex (r : nat) :
  forall pool : list nat,
    StronglySorted lt pool ->
    StronglySorted lex_lt (itertools_permutations pool r).
Proof.
  induction r as [|r IH]; intros pool Hs; simpl.
  - repeat constructor.
  - destruct (selections_sorted Hs) as [H1 [H2 _]].
    eapply StronglySorted_flat_map; [exact H1| |].
    + intros xr Hin. eapply StronglySorted_map_mono; [|apply IH, H2, Hin].
      intros a a' Ha. now apply lex_tail.
    + intros a a' b b' _ _ Hlt Hb Hb'.
      apply in_map_iff in Hb as [q [<- _]].
      apply in_map_iff in Hb' as [q' [<- _]].
      now apply lex_head.
Qed.

Lemma seq_sorted (n a : nat) : StronglySorted lt (seq a n).
Proof.
  revert a; induction n as [|n IH]; intros a; simpl; constructor; auto.
  apply Forall_forall. intros x Hx. apply in_seq in Hx. lia.
Qed.

(** ** The inverse permutation *)

Section Argsort.
Variable key : nat -> nat.

Lemma insert_by_perm (i : nat) (l : list nat) :
  Permutation (insert_by key i l) (i :: l).
Proof.
  induction l as [|h t IH]; simpl; [reflexivity|].
  destruct (key i <=? key h); [reflexivity|].
  rewrite IH. apply perm_swap.
Qed.

Lemma insert_by_sorted (i : nat) (l : list nat) :
  StronglySorted (key_le key) l -> StronglySorted (key_le key) (insert_by key i l).
Proof.
  induction 1 as [|h t Hs IH Hall]; simpl.
  - repeat constructor.
  - destruct (key i <=? key h) eqn:E.
    + apply Nat.leb_le in E. constructor; [now constructor|].
      constructor; [exact E|].
      eapply Forall_impl; [|exact Hall]. unfold key_le. intros; lia.
    + apply Nat.leb_gt in E. constructor; [exact IH|].
      eapply Permutation_Forall; [symmetry; apply insert_by_perm|].
      constructor; [unfold key_le; lia|exact Hall].
Qed.

Lemma fold_insert_perm (l : list nat) :
  Permutation (fold_right (insert_by key) [] l) l.
Proof.
  induction l as [|x t IH]; simpl; [reflexivity|].
  rewrite insert_by_perm. now constructor.
Qed.

Lemma fold_insert_sorted (l : list nat) :
  StronglySorted (key_le key) (fold_right (insert_by key) [] l).
Proof.
  induction l as [|x t IH]; simpl; [constructor|].
  now apply insert_by_sorted.
Qed.
End Argsort.

Lemma np_argsort_perm (a : list nat) :
  Permutation (np_argsort a) (seq 0 (length a)).
Proof. apply fold_insert_perm. Qed.

Lemma np_argsort_length (a : list nat) : length (np_argsort a) = length a.
Proof.
  rewrite (Permutation_length (np_argsort_perm a)). apply length_seq.
Qed.

(** Two sorted lists with the same elements are equal. *)
Lemma sorted_perm_unique (l1 l2 : list nat) :
  StronglySorted le l1 -> StronglySorted le l2 -> Permutation l1 l2 -> l1 = l2.
Proof.
  revert l2; induction l1 as [|x t IH]; intros l2 H1 H2 Hp.
  - apply Permutation_nil in Hp. now subst.
  - destruct l2 as [|y u].
    { apply Permutation_sym, Permutation_nil in Hp. discriminate. }
    inversion H1 as [|? ? Hs1 Hall1]; subst.
    inversion H2 as [|? ? Hs2 Hall2]; subst.
    rewrite Forall_forall in Hall1, Hall2.
    assert (x = y).
    { assert (Hx : In x (y :: u)) by (eapply Permutation_in; [exact Hp|now left]).
      assert (Hy : In y (x :: t))
        by (eapply Permutation_in; [symmetry; exact Hp|now left]).
      destruct Hx as [->|Hx]; [reflexivity|].
      destruct Hy as [->|Hy]; [reflexivity|].
      apply Hall1 in Hy. apply Hall2 in Hx. lia. }
    subst y. f_equal. apply IH; auto.
    now apply Permutation_cons_inv in Hp.
Qed.

Lemma seq_sorted_le (n a : nat) : StronglySorted le (seq a n).
Proof.
  revert a; induction n as [|n IH]; intros a; simpl; constructor; auto.
  apply Forall_forall. intros x Hx. apply in_seq in Hx. lia.
Qed.

Lemma map_nth_seq {A} (d : A) (l : list A) :
  map (fun i => nth i l d) (seq 0 (length l)) = l.
Proof.
  induction l as [|x t IH]; simpl; [reflexivity|].
  f_equal. rewrite <- seq_shift, map_map. exact IH.
Qed.

(** Reading a permutation through its argsort gives the identity. *)
Lemma np_argsort_sorts (perm : list nat) (n : nat) :
  Permutation perm (seq 0 n) ->
  map (fun i => nth i perm 0) (np_argsort perm) = seq 0 n.
Proof.
  intros Hp.
  apply sorted_perm_unique.
  - apply StronglySorted_map_mono
      with (Ra := key_le (fun i => nth i perm 0)).
    + intros a a' H; exact H.
    + apply fold_insert_sorted.
  - apply seq_sorted_le.
  - transitivity perm; [|exact Hp].
    rewrite <- (map_nth_seq 0 perm) at 2.
    apply Permutation_map, np_argsort_perm.
Qed.

Lemma perm_seq_bound (perm : list nat) (n q : nat) :
  Permutation perm (seq 0 n) -> q < n -> nth q perm 0 < n.
Proof.
  intros Hp Hq.
  assert (Hlen : length perm = n)
    by (rewrite (Permutation_length Hp); apply length_seq).
  assert (Hin : In (nth q perm 0) (seq 0 n)).
  { eapply Permutation_in; [exact Hp|]. apply nth_In. lia. }
  apply in_seq in Hin. lia.
Qed.

Lemma np_argsort_inverse (perm : list nat) (n q : nat) :
  Permutation perm (seq 0 n) -> q < n ->
  nth (nth q perm 0) (np_argsort perm) 0 = q.
Proof.
  intros Hp Hq.
  assert (Hlen : length perm = n)
    by (rewrite (Permutation_length Hp); apply length_seq).
  pose proof (perm_seq_bound Hp Hq) as Hk.
  set (k := nth q perm 0) in *.
  assert (Ha : nth k (np_argsort perm) 0 < n).
  { assert (Hin : In (nth k (np_argsort perm) 0) (seq 0 (length perm))).
    { eapply Permutation_in; [apply np_argsort_perm|].
      apply nth_In. rewrite np_argsort_length. lia. }
    apply in_seq in Hin. lia. }
  assert (Hv : nth (nth k (np_argsort perm) 0) perm 0 = k).
  { pose proof (@np_argsort_sorts perm n Hp) as Hs.
    apply (f_equal (fun l => nth k l 0)) in Hs.
    rewrite seq_nth in Hs by exact Hk. simpl in Hs.
    rewrite nth_indep with (d' := nth 0 perm 0) in Hs
      by (rewrite length_map, np_argsort_length; lia).
    rewrite (map_nth (fun i => nth i perm 0)) in Hs. exact Hs. }
  assert (Hnd : NoDup perm).
  { eapply Permutation_NoDup; [symmetry; exact Hp|apply seq_NoDup]. }
  rewrite NoDup_nth in Hnd. apply Hnd; [lia|lia|exact Hv].
Qed.

(** Fancy indexing succeeds when every index is in range. *)
Lemma take_in_range {A} (d : A) (row : list A) (idx : list nat) :
  Forall (fun i => i < length row) idx ->
  take row idx = Returned (map (fun i => nth i row d) idx).
Proof.
  induction 1 as [|i t Hi Hall IH]; simpl; [reflexivity|].
  unfold getitem. destruct (nth_error row i) eqn:E.
  - simpl. rewrite IH. simpl. f_equal. f_equal.
    symmetry. now apply nth_error_nth.
  - apply nth_error_None in E. lia.
Qed.

Lemma take_columns_in_range {A} (d : A) (n : nat) (X : list (list A))
    (idx : list nat) :
  Forall (fun r => length r = n) X ->
  Forall (fun i => i < n) idx ->
  take_columns X idx =
  Returned (map (fun row => map (fun i => nth i row d) idx) X).
Proof.
  intros HX Hidx. induction HX as [|row X' Hrow HX IH]; simpl; [reflexivity|].
  rewrite take_in_range with (d := d) by (rewrite Hrow; exact Hidx).
  simpl. rewrite IH. reflexivity.
Qed.

Lemma zip_app_repeat {A} (X : list (list A)) (x : list A) :
  zip_app X (repeat x (length X)) = map (fun r => r ++ x) X.
Proof. induction X as [|r X' IH]; simpl; [reflexivity|now rewrite IH]. Qed.

Lemma inner_block_rows (perm : list nat) (n_inputs j n_inner : nat)
    (sample_inputs : matrix) (xjc : list float) :
  Permutation perm (seq 0 n_inputs) ->
  length sample_inputs = n_inner ->
  Forall (fun r => length r = j) sample_inputs ->
  j + length xjc = n_inputs ->
  inner_block (np_argsort perm) n_inner sample_inputs xjc =
  Returned (map (fun r => map (fun i => nth i (r ++ xjc) nan) (np_argsort perm))
                sample_inputs).
Proof.
  intros Hp Hlen Hrows Hj.
  unfold inner_block, np_concatenate_axis1, ones_times.
  rewrite repeat_length, Hlen, Nat.eqb_refl. simpl.
  rewrite <- Hlen, zip_app_repeat.
  rewrite take_columns_in_range with (d := nan) (n := n_inputs).
  - rewrite map_map. reflexivity.
  - apply Forall_map. eapply Forall_impl; [|exact Hrows].
    intros r Hr. simpl in Hr. rewrite length_app. lia.
  - assert (Hlp : length perm = n_inputs)
      by (rewrite (Permutation_length Hp); apply length_seq).
    eapply Permutation_Forall; [symmetry; apply np_argsort_perm|].
    apply Forall_forall. intros i Hi. apply in_seq in Hi. lia.
Qed.

(** ** Block offsets (line 124) *)

Section Offsets.
Variables n_perms n_inputs n_output n_outer n_inner : nat.

Local Abbreviation rank := (rank n_inputs n_outer).
Local Abbreviation in_range := (in_range n_perms n_inputs n_outer).

Lemma inner_indices_rank (p j l : nat) :
  inner_indices n_inputs n_output n_outer n_inner p j l
  = n_output + rank p j l * n_inner.
Proof. unfold inner_indices, rank. nia. Qed.

Lemma rank_bound (p j l : nat) :
  in_range p j l -> rank p j l < n_perms * (n_inputs - 1) * n_outer.
Proof.
  unfold in_range, rank. intros (Hp & Hj & Hl).
  assert (H1 : p * (n_inputs - 1) + (j - 1) < n_perms * (n_inputs - 1)) by nia.
  nia.
Qed.

Lemma rank_inj (p j l p' j' l' : nat) :
  in_range p j l -> in_range p' j' l' ->
  rank p j l = rank p' j' l' -> p = p' /\ j = j' /\ l = l'.
Proof.
  unfold in_range, rank. intros (Hp & Hj & Hl) (Hp' & Hj' & Hl') H.
  assert (Hq : p * (n_inputs - 1) + (j - 1) = p' * (n_inputs - 1) + (j' - 1))
    by nia.
  assert (l = l') by nia.
  assert (p = p') by nia.
  subst. repeat split; auto. nia.
Qed.

Lemma design_rows_nat :
  1 <= n_inputs ->
  design_rows n_perms n_inputs n_output n_outer n_inner
  = Z.of_nat (n_output + n_perms * (n_inputs - 1) * n_outer * n_inner).
Proof.
  intros H. unfold design_rows.
  rewrite Nat2Z.inj_add, !Nat2Z.inj_mul, Nat2Z.inj_sub by lia. reflexivity.
Qed.

Lemma block_in_bounds (p j l : nat) :
  in_range p j l ->
  n_output <= inner_indices n_inputs n_output n_outer n_inner p j l /\
  inner_indices n_inputs n_output n_outer n_inner p j l + n_inner
  <= n_output + n_perms * (n_inputs - 1) * n_outer * n_inner.
Proof.
  intros H. rewrite inner_indices_rank. pose proof (rank_bound H). nia.
Qed.

Lemma blocks_disjoint (p j l p' j' l' r : nat) :
  in_range p j l -> in_range p' j' l' ->
  inner_indices n_inputs n_output n_outer n_inner p j l <= r
  < inner_indices n_inputs n_output n_outer n_inner p j l + n_inner ->
  inner_indices n_inputs n_output n_outer n_inner p' j' l' <= r
  < inner_indices n_inputs n_output n_outer n_inner p' j' l' + n_inner ->
  p = p' /\ j = j' /\ l = l'.
Proof.
  intros H H'. rewrite !inner_indices_rank. intros Hr Hr'.
  apply rank_inj; auto. nia.
Qed.
End Offsets.

(** ** Loops *)

Lemma for_each_app {A St} (l1 l2 : list A) (body : A -> St -> outcome St)
    (s : St) :
  for_each (l1 ++ l2) body s = obind (for_each l1 body s) (for_each l2 body).
Proof.
  revert s; induction l1 as [|x t IH]; intros s; simpl; [reflexivity|].
  destruct (body x s); simpl; [apply IH|reflexivity].
Qed.

Lemma range_0 (k : nat) : range 0 k = seq 0 k.
Proof. unfold range. now rewrite Nat.sub_0_r. Qed.

Lemma range_S (k : nat) : range 0 (S k) = range 0 k ++ [k].
Proof. rewrite !range_0. now rewrite seq_S. Qed.

(** A loop whose body keeps an invariant indexed by the iteration count
    runs to completion and ends in the invariant. *)
Lemma for_each_range_inv {St} (I : nat -> St -> Prop)
    (body : nat -> St -> outcome St) (n : nat) (s : St) :
  I 0 s ->
  (forall k s, k < n -> I k s -> exists s', body k s = Returned s' /\ I (S k) s') ->
  exists s', for_each (range 0 n) body s = Returned s' /\ I n s'.
Proof.
  intros H0 Hstep. induction n as [|n IH].
  - exists s. now split.
  - destruct IH as [s1 [E1 I1]]; [intros; apply Hstep; auto|].
    destruct (Hstep n s1) as [s2 [E2 I2]]; [lia|exact I1|].
    exists s2. split; [|exact I2].
    rewrite range_S, for_each_app, E1. simpl. now rewrite E2.
Qed.

Lemma setitem_ok {A} (l : list A) (i : nat) (v : A) :
  i < length l -> setitem l i v = Returned (firstn i l ++ v :: skipn (S i) l).
Proof.
  intros H. unfold setitem.
  destruct (i <? length l) eqn:E; [reflexivity|].
  apply Nat.ltb_ge in E. lia.
Qed.

Lemma getitem_ok {A} (d : A) (l : list A) (i : nat) :
  i < length l -> getitem l i = Returned (nth i l d).
Proof.
  intros H. unfold getitem. destruct (nth_error l i) eqn:E.
  - f_equal. symmetry. now apply nth_error_nth.
  - apply nth_error_None in E. lia.
Qed.

Lemma skipn_add {A} (a b : nat) (l : list A) :
  skipn a (skipn b l) = skipn (b + a) l.
Proof.
  revert l; induction b as [|b IH]; intros l; simpl; [reflexivity|].
  destruct l; [now rewrite skipn_nil|apply IH].
Qed.

Lemma update_after_prefix {A} (pre rest : list A) (v : A) (k : nat) :
  length pre = k ->
  firstn k (pre ++ rest) ++ v :: skipn (S k) (pre ++ rest)
  = (pre ++ [v]) ++ skipn 1 rest.
Proof.
  intros <-.
  rewrite firstn_app, Nat.sub_diag, firstn_all, app_nil_r.
  rewrite skipn_app, skipn_all2 by lia.
  replace (S (length pre) - length pre) with 1 by lia.
  now rewrite <- app_assoc.
Qed.

(** ** The inner loop (lines 154-157) *)

Section InnerLoop.
Variable n_inner : nat.

Local Abbreviation block_of := (block_of n_inner).
Local Abbreviation inner_inv := (inner_inv n_inner).

Lemma inner_loop_spec (s0 : locals) (n : nat) :
  n <= length (conditional_variance s0) ->
  exists s, for_each (range 0 n) (inner_step n_inner) s0 = Returned s /\
            inner_inv s0 n s.
Proof.
  intros Hn. apply for_each_range_inv.
  - unfold inner_inv. simpl. repeat split; reflexivity.
  - intros k s Hk (Ho & Hc & Hm & He & Hd & Hp & Hs & Hq).
    unfold inner_step.
    assert (Hlen : length (conditional_variance s)
                   = length (conditional_variance s0)).
    { rewrite Hc, length_app, length_map, length_seq, length_skipn. lia. }
    rewrite setitem_ok by lia. unfold obind.
    eexists; split; [reflexivity|].
    unfold inner_inv, slice_to, slice_from.
    cbn [output model_output conditional_variance estimated_cost delta
         previous_cost shapley_effects shapley_effects_squared].
    repeat split; auto.
    + rewrite Ho, skipn_add. f_equal. lia.
    + rewrite Ho, Hc.
      rewrite update_after_prefix by (now rewrite length_map, length_seq).
      rewrite skipn_add, seq_S, map_app. simpl map.
      unfold block_of. do 2 f_equal. now rewrite Nat.add_1_r.
    + now rewrite Ho.
Qed.
End InnerLoop.

(** ** One split (lines 148-164) *)

Lemma bump_length (i : nat) (d : float) (a : list float) :
  i < length a -> length (bump i d a) = length a.
Proof.
  intros H. unfold bump.
  rewrite length_app, length_firstn. cbn [length]. rewrite length_skipn. lia.
Qed.

Section Split.
Variables n_inputs n_outer n_inner : nat.
Variable V : float.

Local Abbreviation cost_of := (cost_of n_inputs n_outer n_inner V).
Local Abbreviation advance := (advance n_inputs n_outer n_inner).

Lemma cost_step_spec (j : nat) (s0 : locals) :
  length (conditional_variance s0) = n_outer ->
  exists s, cost_step n_inputs n_outer n_inner V j s0 = Returned s /\
    output s = advance (output s0) j /\
    length (conditional_variance s) = n_outer /\
    estimated_cost s = cost_of (output s0) j /\
    delta s = fsub (cost_of (output s0) j) (previous_cost s0) /\
    previous_cost s = previous_cost s0 /\
    shapley_effects s = shapley_effects s0 /\
    shapley_effects_squared s = shapley_effects_squared s0 /\
    (j = n_inputs - 1 -> model_output s = model_output s0) /\
    (j <> n_inputs - 1 -> 0 < n_outer ->
     model_output s = block_of n_inner (output s0) (n_outer - 1)).
Proof.
  intros Hcv. unfold cost_step, cost_of, advance.
  destruct (j =? n_inputs - 1) eqn:E.
  - apply Nat.eqb_eq in E.
    eexists; split; [reflexivity|]. simpl.
    repeat split; auto. intros; contradiction.
  - apply Nat.eqb_neq in E.
    destruct (@inner_loop_spec n_inner s0 n_outer) as [s1 [E1 I1]]; [lia|].
    destruct I1 as (Ho & Hc & Hm & He & Hd & Hp & Hs & Hq).
    rewrite E1. unfold obind.
    eexists; split; [reflexivity|].
    cbn [output model_output conditional_variance estimated_cost delta
         previous_cost shapley_effects shapley_effects_squared].
    assert (Hc' : conditional_variance s1 =
                  map (fun l => np_var 1 (block_of n_inner (output s0) l))
                      (seq 0 n_outer)).
    { rewrite Hc, skipn_all2 by lia. apply app_nil_r. }
    repeat split; auto.
    + now rewrite Hc', length_map, length_seq.
    + now rewrite Hc'.
    + now rewrite Hc', Hp.
    + intros; contradiction.
    + intros _ Hpos. rewrite Hm.
      destruct n_outer; [lia|]. simpl. now rewrite Nat.sub_0_r.
Qed.

Lemma split_step_spec (perms : list nat) (j i : nat) (s0 : locals) :
  length (conditional_variance s0) = n_outer ->
  nth_error perms j = Some i ->
  i < length (shapley_effects s0) ->
  i < length (shapley_effects_squared s0) ->
  exists s, split_step n_inputs n_outer n_inner V perms j s0 = Returned s /\
    output s = advance (output s0) j /\
    length (conditional_variance s) = n_outer /\
    estimated_cost s = cost_of (output s0) j /\
    delta s = fsub (cost_of (output s0) j) (previous_cost s0) /\
    previous_cost s = cost_of (output s0) j /\
    shapley_effects s = bump i (delta s) (shapley_effects s0) /\
    shapley_effects_squared s =
      bump i (fmul (delta s) (delta s)) (shapley_effects_squared s0) /\
    (j = n_inputs - 1 -> model_output s = model_output s0) /\
    (j <> n_inputs - 1 -> 0 < n_outer ->
     model_output s = block_of n_inner (output s0) (n_outer - 1)).
Proof.
  intros Hcv Hi He Hq.
  destruct (cost_step_spec j s0 Hcv)
    as [s1 (E1 & Ho & Hc & Hcost & Hd & Hp & Hs & Hsq & Hm1 & Hm2)].
  unfold split_step. rewrite E1. unfold obind.
  unfold getitem at 1. rewrite Hi.
  rewrite Hs, Hsq.
  rewrite (getitem_ok nan) by exact He.
  rewrite setitem_ok by exact He.
  unfold getitem at 1. rewrite Hi.
  rewrite (getitem_ok nan) by exact Hq.
  rewrite setitem_ok by exact Hq.
  eexists; split; [reflexivity|].
  cbn [output model_output conditional_variance estimated_cost delta
       previous_cost shapley_effects shapley_effects_squared].
  repeat split; auto.
Qed.
End Split.

(** ** One permutation pass (lines 145-164) *)

Section Pass.
Variables n_inputs n_outer n_inner : nat.
Variable V : float.

Local Abbreviation unread := (unread n_inputs n_outer n_inner).
Local Abbreviation pass_cost := (pass_cost n_inputs n_outer n_inner V).
Local Abbreviation pass_prev := (pass_prev n_inputs n_outer n_inner V).
Local Abbreviation pass_delta := (pass_delta n_inputs n_outer n_inner V).
Local Abbreviation pass_effects := (pass_effects n_inputs n_outer n_inner V).
Local Abbreviation pass_squares := (pass_squares n_inputs n_outer n_inner V).
Local Abbreviation pass_inv := (pass_inv n_inputs n_outer n_inner V).

Lemma advance_unread (out : list float) (j : nat) :
  j < n_inputs ->
  advance n_inputs n_outer n_inner (unread out j) j = unread out (S j).
Proof.
  intros Hj. unfold advance, unread.
  destruct (j =? n_inputs - 1) eqn:E.
  - apply Nat.eqb_eq in E. f_equal. f_equal. lia.
  - apply Nat.eqb_neq in E. rewrite skipn_add. f_equal.
    rewrite !Nat.min_l by lia. lia.
Qed.

Lemma pass_effects_length perms out k a :
  Forall (fun i => i < n_inputs) perms -> length perms = n_inputs ->
  k <= n_inputs -> length a = n_inputs ->
  length (pass_effects perms out k a) = n_inputs.
Proof.
  intros Hall Hlen Hk Ha. induction k as [|k IH]; [exact Ha|].
  unfold pass_effects in *. rewrite seq_S, fold_left_app. simpl.
  rewrite bump_length; [apply IH; lia|].
  rewrite IH by lia. rewrite Forall_forall in Hall.
  apply Hall, nth_In. lia.
Qed.

Lemma pass_squares_length perms out k a :
  Forall (fun i => i < n_inputs) perms -> length perms = n_inputs ->
  k <= n_inputs -> length a = n_inputs ->
  length (pass_squares perms out k a) = n_inputs.
Proof.
  intros Hall Hlen Hk Ha. induction k as [|k IH]; [exact Ha|].
  unfold pass_squares in *. rewrite seq_S, fold_left_app. simpl.
  rewrite bump_length; [apply IH; lia|].
  rewrite IH by lia. rewrite Forall_forall in Hall.
  apply Hall, nth_In. lia.
Qed.

Lemma pass_spec (perms : list nat) (s0 : locals) (k : nat) :
  Forall (fun i => i < n_inputs) perms -> length perms = n_inputs ->
  length (conditional_variance s0) = n_outer ->
  length (shapley_effects s0) = n_inputs ->
  length (shapley_effects_squared s0) = n_inputs ->
  k <= n_inputs ->
  exists s,
    for_each (range 0 k) (split_step n_inputs n_outer n_inner V perms)
             (reset_previous_cost s0) = Returned s /\
    pass_inv perms s0 k s.
Proof.
  intros Hall Hlen Hcv He Hq Hk.
  apply for_each_range_inv
    with (I := fun k s => pass_inv perms s0 k s).
  - constructor; try reflexivity; [exact Hcv|discriminate].
  - intros j s Hj [Io Ic Ip Ie Is _].
    assert (Hi : nth_error perms j = Some (nth j perms 0))
      by (apply nth_error_nth'; lia).
    assert (Hb : nth j perms 0 < n_inputs).
    { rewrite Forall_forall in Hall. apply Hall, nth_In. lia. }
    destruct (@split_step_spec n_inputs n_outer n_inner V perms j
                (nth j perms 0) s Ic Hi)
      as [s' (E & Ho' & Hc' & Hcost & Hd & Hp & Hse & Hsq & _)].
    { rewrite Ie, pass_effects_length; auto; lia. }
    { rewrite Is, pass_squares_length; auto; lia. }
    exists s'; split; [exact E|].
    rewrite Io in *. rewrite Ip in Hd.
    assert (Hd' : delta s' = pass_delta (output s0) j) by exact Hd.
    constructor.
    + rewrite Ho'. apply advance_unread. lia.
    + exact Hc'.
    + exact Hp.
    + rewrite Hse, Hd', Ie. unfold pass_effects.
      now rewrite seq_S, fold_left_app.
    + rewrite Hsq, Hd', Is. unfold pass_squares.
      now rewrite seq_S, fold_left_app.
    + intros j' [= <-]. split; [exact Hcost|exact Hd'].
Qed.
End Pass.

(** ** The whole run (lines 143-164) *)

Lemma permutations_index_lists (n_inputs : nat) (permutations : list (list nat)) :
  Forall (fun perms => Permutation perms (seq 0 n_inputs)) permutations ->
  index_lists n_inputs permutations.
Proof.
  intros H. eapply Forall_impl; [|exact H]. intros perms Hp. split.
  - rewrite (Permutation_length Hp). apply length_seq.
  - eapply Permutation_Forall; [symmetry; exact Hp|].
    apply Forall_forall. intros i Hi. apply in_seq in Hi. lia.
Qed.

Section Run.
Variable permutations : list (list nat).
Variables n_inputs n_output n_outer n_inner : nat.
Variable output0 : list float.

Local Abbreviation V := (variance_of_output n_output output0).
Local Abbreviation pass_start :=
  (pass_start n_inputs n_output n_outer n_inner output0).
Local Abbreviation run_effects :=
  (run_effects permutations n_inputs n_output n_outer n_inner output0).
Local Abbreviation run_squares :=
  (run_squares permutations n_inputs n_output n_outer n_inner output0).
Local Abbreviation run_inv :=
  (run_inv permutations n_inputs n_output n_outer n_inner output0).

Hypothesis Hvalid : index_lists n_inputs permutations.

Lemma valid_nth (p : nat) :
  p < length permutations ->
  length (nth p permutations []) = n_inputs /\
  Forall (fun i => i < n_inputs) (nth p permutations []).
Proof.
  intros Hp. unfold index_lists in Hvalid. rewrite Forall_forall in Hvalid.
  apply Hvalid, nth_In, Hp.
Qed.

Lemma run_effects_length (k : nat) :
  k <= length permutations -> length (run_effects k) = n_inputs.
Proof.
  induction k as [|k IH]; intros Hk.
  - apply repeat_length.
  - unfold run_effects in *. rewrite seq_S, fold_left_app. simpl.
    destruct (@valid_nth k) as [Hl Hb]; [lia|].
    apply pass_effects_length; auto. apply IH. lia.
Qed.

Lemma run_squares_length (k : nat) :
  k <= length permutations -> length (run_squares k) = n_inputs.
Proof.
  induction k as [|k IH]; intros Hk.
  - apply repeat_length.
  - unfold run_squares in *. rewrite seq_S, fold_left_app. simpl.
    destruct (@valid_nth k) as [Hl Hb]; [lia|].
    apply pass_squares_length; auto. apply IH. lia.
Qed.

Lemma unread_all (out : list float) :
  unread n_inputs n_outer n_inner out n_inputs
  = skipn ((n_inputs - 1) * (n_outer * n_inner)) out.
Proof. unfold unread. do 2 f_equal. lia. Qed.

Lemma perm_step_spec (p : nat) (s0 : locals) :
  p < length permutations ->
  run_inv p s0 ->
  exists s,
    perm_step n_inputs n_outer n_inner V permutations p s0 = Returned s /\
    run_inv (S p) s.
Proof.
  intros Hp [Io Ic Ie Is].
  destruct (@valid_nth p Hp) as [Hl Hb].
  unfold perm_step. rewrite (getitem_ok []) by exact Hp. unfold obind.
  destruct (@pass_spec n_inputs n_outer n_inner V (nth p permutations [])
              s0 n_inputs Hb Hl Ic) as [s [E [Po Pc Pp Pe Ps _]]].
  { rewrite Ie. now apply run_effects_length, Nat.lt_le_incl. }
  { rewrite Is. now apply run_squares_length, Nat.lt_le_incl. }
  { lia. }
  exists s; split; [exact E|]. constructor.
  - rewrite Po, unread_all, Io. unfold pass_start.
    rewrite skipn_add. f_equal. lia.
  - exact Pc.
  - rewrite Pe, Io, Ie. unfold run_effects.
    now rewrite seq_S, fold_left_app.
  - rewrite Ps, Io, Is. unfold run_squares.
    now rewrite seq_S, fold_left_app.
Qed.

Lemma entering_perm_spec (p : nat) :
  p <= length permutations ->
  exists s,
    entering_perm permutations n_inputs n_output n_outer n_inner output0 p
    = Returned s /\ run_inv p s.
Proof.
  intros Hp. unfold entering_perm.
  apply for_each_range_inv with (I := run_inv).
  - constructor; try reflexivity. apply repeat_length.
  - intros k s Hk Hi. apply perm_step_spec; [lia|exact Hi].
Qed.

Lemma entering_split_spec (p j : nat) :
  p < length permutations -> j <= n_inputs ->
  exists s0 s,
    entering_perm permutations n_inputs n_output n_outer n_inner output0 p
    = Returned s0 /\
    entering_split permutations n_inputs n_output n_outer n_inner output0 p j
    = Returned s /\
    run_inv p s0 /\
    pass_inv n_inputs n_outer n_inner V (nth p permutations []) s0 j s.
Proof.
  intros Hp Hj.
  destruct (@entering_perm_spec p) as [s0 [E0 I0]]; [lia|].
  destruct (@valid_nth p Hp) as [Hl Hb].
  destruct I0 as [Io Ic Ie Is].
  destruct (@pass_spec n_inputs n_outer n_inner V (nth p permutations [])
              s0 j Hb Hl Ic) as [s [E P]].
  { rewrite Ie. now apply run_effects_length, Nat.lt_le_incl. }
  { rewrite Is. now apply run_squares_length, Nat.lt_le_incl. }
  { exact Hj. }
  exists s0, s. split; [exact E0|]. split; [|split].
  - unfold entering_split. rewrite E0. unfold obind.
    rewrite (getitem_ok []) by exact Hp. exact E.
  - now constructor.
  - exact P.
Qed.
End Run.

Lemma nth_error_firstn_skipn {A} (l : list A) (a n i : nat) :
  i < n -> nth_error (firstn n (skipn a l)) i = nth_error l (a + i).
Proof.
  intros Hi. rewrite nth_error_firstn.
  destruct (i <? n) eqn:E; [|apply Nat.ltb_ge in E; lia].
  apply nth_error_skipn.
Qed.

(** The block taken at [(p, j, l)] by the estimator. *)
Lemma after_block_spec (permutations : list (list nat))
    (n_inputs n_output n_outer n_inner : nat) (output0 : list float)
    (p j l : nat) :
  index_lists n_inputs permutations ->
  p < length permutations -> j < n_inputs - 1 -> l < n_outer ->
  exists s,
    after_block permutations n_inputs n_output n_outer n_inner output0 p j l
    = Returned s /\
    model_output s
    = outputs_of_block n_inputs n_output n_outer n_inner output0 p (j + 1) l /\
    output s
    = slice_from (inner_indices n_inputs n_output n_outer n_inner p (j + 1) l
                  + n_inner) output0.
Proof.
  intros Hv Hp Hj Hl.
  destruct (@entering_split_spec permutations n_inputs n_output n_outer n_inner
              output0 Hv p j Hp) as (s0 & s1 & E0 & E1 & R & P); [lia|].
  destruct R as [Ro _ _ _]. destruct P as [Po Pc _ _ _ _].
  destruct (@inner_loop_spec n_inner s1 (S l)) as [s [E I]]; [lia|].
  destruct I as (Io & _ & Im & _).
  exists s. split; [|split].
  - unfold after_block. rewrite E1. exact E.
  - rewrite Im, Po, Ro. unfold outputs_of_block, block_of, unread, pass_start,
      slice_to, slice_from.
    rewrite !skipn_add. do 2 f_equal.
    rewrite Nat.min_l by lia. unfold inner_indices. nia.
  - rewrite Io, Po, Ro. unfold unread, pass_start, slice_from.
    rewrite !skipn_add. f_equal.
    rewrite Nat.min_l by lia. unfold inner_indices. nia.
Qed.

Lemma estimation_loops_spec (permutations : list (list nat))
    (n_inputs n_output n_outer n_inner : nat) (output0 : list float) :
  index_lists n_inputs permutations ->
  exists s,
    estimation_loops permutations (length permutations) n_inputs n_output
                     n_outer n_inner output0 = Returned s /\
    run_inv permutations n_inputs n_output n_outer n_inner output0
            (length permutations) s.
Proof.
  intros Hv.
  apply (@entering_perm_spec permutations n_inputs n_output n_outer n_inner
           output0 Hv (length permutations)). lia.
Qed.

(** Claim C2.  The estimator consumes the conditional part of the output
    in the order the design was written.  The [l]-th inner block taken at
    permutation [p] and estimator split [j < n_inputs - 1] is
    [output0[off : off + n_inner]] with [off] the design offset
    [inner_indices] of triple [(p, j + 1, l)], it has exactly [n_inner]
    values, and what remains unread afterwards starts at [off + n_inner];
    when the output has one value per design row, the loops end with
    nothing left unread. *)
Theorem estimator_consumes_in_design_order
    (permutations : list (list nat))
    (n_perms n_inputs n_output n_outer n_inner : nat) (output0 : list float) :
  length permutations = n_perms ->
  Forall (fun perms => Permutation perms (seq 0 n_inputs)) permutations ->
  Z.of_nat (length output0)
  = design_rows n_perms n_inputs n_output n_outer n_inner ->
  (forall p j l, p < n_perms -> j < n_inputs - 1 -> l < n_outer ->
     exists s,
       after_block permutations n_inputs n_output n_outer n_inner output0 p j l
       = Returned s /\
       model_output s
       = outputs_of_block n_inputs n_output n_outer n_inner output0
                          p (j + 1) l /\
       length (model_output s) = n_inner /\
       (forall i, i < n_inner ->
          nth_error (model_output s) i
          = nth_error output0
              (inner_indices n_inputs n_output n_outer n_inner p (j + 1) l + i))
       /\
       output s
       = slice_from
           (inner_indices n_inputs n_output n_outer n_inner p (j + 1) l
            + n_inner) output0) /\
  (exists s,
     estimation_loops permutations n_perms n_inputs n_output n_outer n_inner
                      output0 = Returned s /\
     output s = []).
Proof.
  intros Hlen Hperm Hout.
  pose proof (@permutations_index_lists n_inputs permutations Hperm) as Hv.
  split.
  - intros p j l Hp Hj Hl.
    destruct (@after_block_spec permutations n_inputs n_output n_outer n_inner
                output0 p j l Hv) as (s & E & Hm & Ho); try lia.
    exists s. split; [exact E|]. split; [exact Hm|].
    rewrite design_rows_nat in Hout by lia. apply Nat2Z.inj in Hout.
    assert (Hr : in_range n_perms n_inputs n_outer p (j + 1) l)
      by (unfold in_range; lia).
    pose proof (@block_in_bounds n_perms n_inputs n_output n_outer n_inner
                  p (j + 1) l Hr) as [_ Hb].
    split; [|split; [|exact Ho]].
    + rewrite Hm. unfold outputs_of_block, slice_to, slice_from.
      rewrite length_firstn, length_skipn. lia.
    + intros i Hi. rewrite Hm. unfold outputs_of_block, slice_to, slice_from.
      now apply nth_error_firstn_skipn.
  - destruct (@estimation_loops_spec permutations n_inputs n_output n_outer
                n_inner output0 Hv) as [s [E [Io _ _ _]]].
    rewrite Hlen in E. exists s. split; [exact E|].
    rewrite Io. unfold pass_start, slice_from. rewrite skipn_add.
    apply skipn_all2. unfold design_rows in Hout. rewrite Hlen. nia.
Qed.

(** ** Float arithmetic on finite values *)

Open Scope R_scope.

Lemma fdiv_some (x y : R) : y <> 0 -> fdiv (Some x) (Some y) = Some (x / y).
Proof.
  intros H. unfold fdiv. destruct (Req_dec_T y 0); [contradiction|reflexivity].
Qed.

Lemma fdiv_zero (x : R) : fdiv (Some x) (Some 0) = None.
Proof.
  unfold fdiv. destruct (Req_dec_T 0 0); [reflexivity|contradiction].
Qed.

Lemma fdiv_finite (a b : float) (r : R) :
  fdiv a b = Some r -> exists x y, a = Some x /\ b = Some y /\ y <> 0 /\ r = x / y.
Proof.
  unfold fdiv. destruct a as [x|], b as [y|]; try discriminate.
  destruct (Req_dec_T y 0); [discriminate|].
  intros [= <-]. exists x, y. auto.
Qed.

Lemma np_sqrt_some (x : R) : 0 <= x -> np_sqrt (Some x) = Some (sqrt x).
Proof.
  intros H. unfold np_sqrt. destruct (Rlt_dec x 0); [lra|reflexivity].
Qed.

Lemma np_sum_cons (x : float) (a : list float) :
  np_sum (x :: a) = fadd x (np_sum a).
Proof. reflexivity. Qed.

Lemma np_sum_some (xs : list R) : np_sum (map Some xs) = Some (Rsum xs).
Proof.
  induction xs as [|x t IH]; [reflexivity|].
  cbn [map]. now rewrite np_sum_cons, IH.
Qed.

Lemma np_sum_none (a : list float) : In None a -> np_sum a = None.
Proof.
  induction a as [|x t IH]; [contradiction|].
  rewrite np_sum_cons. intros [->|H]; [reflexivity|].
  rewrite (IH H). now destruct x.
Qed.

Lemma INR_pos_neq (n : nat) : (0 < n)%nat -> INR n <> 0.
Proof. intros H. apply not_0_INR. lia. Qed.

Lemma np_mean_some (xs : list R) :
  xs <> [] -> np_mean (map Some xs) = Some (Rmean xs).
Proof.
  intros H. unfold np_mean, of_nat, Rmean.
  rewrite np_sum_some, length_map. apply fdiv_some.
  apply INR_pos_neq. destruct xs; [contradiction|simpl; lia].
Qed.

Lemma np_mean_nil : np_mean [] = None.
Proof. unfold np_mean, of_nat. simpl. apply fdiv_zero. Qed.

Lemma np_mean_none (a : list float) : In None a -> np_mean a = None.
Proof. intros H. unfold np_mean. now rewrite (np_sum_none _ H). Qed.

Lemma np_var_some (ddof : nat) (xs : list R) :
  (ddof < length xs)%nat ->
  np_var ddof (map Some xs)
  = Some (sum_sq_dev xs / INR (length xs - ddof)).
Proof.
  intros H. unfold np_var.
  rewrite np_mean_some by (destruct xs; [simpl in H; lia|discriminate]).
  rewrite map_map. cbn [fsub fmul lift2].
  change (map (fun x => Some ((x - Rmean xs) * (x - Rmean xs))) xs)
    with (map (fun x => Some ((fun y => (y - Rmean xs) * (y - Rmean xs)) x)) xs).
  rewrite <- (map_map (fun y => (y - Rmean xs) * (y - Rmean xs)) Some).
  rewrite np_sum_some, length_map. unfold of_nat.
  apply fdiv_some. apply INR_pos_neq. lia.
Qed.

Lemma np_var_short (ddof : nat) (a : list float) :
  (length a <= ddof)%nat -> np_var ddof a = None.
Proof.
  intros H. unfold np_var, of_nat.
  replace (length a - ddof)%nat with 0%nat by lia. simpl INR.
  destruct (np_sum _); [apply fdiv_zero|reflexivity].
Qed.

Lemma population_variance_spec (xs : list R) :
  xs <> [] -> np_var 0 (map Some xs) = Some (population_variance xs).
Proof.
  intros H. rewrite np_var_some by (destruct xs; [contradiction|simpl; lia]).
  unfold population_variance. now rewrite Nat.sub_0_r.
Qed.

Lemma bessel_variance_spec (xs : list R) :
  (2 <= length xs)%nat -> np_var 1 (map Some xs) = Some (bessel_variance xs).
Proof.
  intros H. rewrite np_var_some by lia.
  unfold bessel_variance. rewrite minus_INR by lia. reflexivity.
Qed.

Close Scope R_scope.

(** ** Costs in terms of the design blocks *)

Section Costs.
Variable permutations : list (list nat).
Variables n_inputs n_output n_outer n_inner : nat.
Variable output0 : list float.

Local Abbreviation V := (variance_of_output n_output output0).
Local Abbreviation pass_start :=
  (pass_start n_inputs n_output n_outer n_inner output0).
Local Abbreviation outputs_of_block :=
  (outputs_of_block n_inputs n_output n_outer n_inner output0).
Local Abbreviation pass_cost := (pass_cost n_inputs n_outer n_inner V).

Lemma block_is_outputs_of_block (p j l : nat) :
  j < n_inputs - 1 ->
  block_of n_inner (unread n_inputs n_outer n_inner (pass_start p) j) l
  = outputs_of_block p (j + 1) l.
Proof.
  intros Hj.
  unfold outputs_of_block, block_of, unread, pass_start,
    slice_to, slice_from.
  rewrite !skipn_add. do 2 f_equal.
  rewrite Nat.min_l by lia. unfold inner_indices. nia.
Qed.

Lemma pass_cost_blocks (p j : nat) :
  j < n_inputs - 1 ->
  pass_cost (pass_start p) j
  = np_mean (map (fun l => np_var 1 (outputs_of_block p (j + 1) l))
                 (range 0 n_outer)).
Proof.
  intros Hj. unfold pass_cost, cost_of.
  destruct (j =? n_inputs - 1) eqn:E; [apply Nat.eqb_eq in E; lia|].
  rewrite range_0. f_equal. apply map_ext. intros l.
  now rewrite block_is_outputs_of_block.
Qed.

Lemma pass_cost_last (p : nat) : pass_cost (pass_start p) (n_inputs - 1) = V.
Proof. unfold pass_cost, cost_of. now rewrite Nat.eqb_refl. Qed.

Lemma after_split_eq (p j : nat) :
  after_split permutations n_inputs n_output n_outer n_inner output0 p j
  = entering_split permutations n_inputs n_output n_outer n_inner output0
                   p (S j).
Proof.
  unfold after_split, entering_split.
  destruct (entering_perm _ _ _ _ _ _ _) as [s0|e]; [|reflexivity].
  unfold obind. destruct (getitem permutations p) as [perms|e]; [|reflexivity].
  rewrite range_S, for_each_app.
  destruct (for_each (range 0 j) _ _) as [s|e]; [|reflexivity].
  simpl. now destruct (split_step _ _ _ _ _ _ _).
Qed.

Hypothesis Hvalid : index_lists n_inputs permutations.

(** The locals after split [j] of permutation [p]. *)
Lemma after_split_spec (p j : nat) :
  p < length permutations -> j < n_inputs ->
  exists s0 s,
    entering_split permutations n_inputs n_output n_outer n_inner output0 p j
    = Returned s0 /\
    after_split permutations n_inputs n_output n_outer n_inner output0 p j
    = Returned s /\
    estimated_cost s = pass_cost (pass_start p) j /\
    delta s = pass_delta n_inputs n_outer n_inner V (pass_start p) j /\
    output s0 = unread n_inputs n_outer n_inner (pass_start p) j /\
    output s = unread n_inputs n_outer n_inner (pass_start p) (S j).
Proof.
  intros Hp Hj.
  destruct (@entering_split_spec permutations n_inputs n_output n_outer
              n_inner output0 Hvalid p j Hp)
    as (r0 & s0 & E0 & E1 & R0 & P0); [lia|].
  destruct (@entering_split_spec permutations n_inputs n_output n_outer
              n_inner output0 Hvalid p (S j) Hp)
    as (r1 & s & E0' & E2 & R1 & P1); [lia|].
  rewrite E0 in E0'. injection E0' as <-.
  destruct R0 as [Ro _ _ _].
  destruct P0 as [Po0 _ _ _ _ _]. destruct P1 as [Po1 _ _ _ _ Pl].
  destruct (Pl j eq_refl) as [Hc Hd].
  exists s0, s. rewrite after_split_eq.
  rewrite <- Ro. repeat split; auto.
Qed.
End Costs.

(** ** Finite outputs *)

Section FiniteCosts.
Variable permutations : list (list nat).
Variables n_perms n_inputs n_output n_outer n_inner : nat.
Variable ys : list R.

Local Abbreviation output0 := (map Some ys).
Local Abbreviation V := (variance_of_output n_output output0).

Lemma outputs_of_block_some (p j l : nat) :
  outputs_of_block n_inputs n_output n_outer n_inner output0 p j l
  = map Some (real_block n_inputs n_output n_outer n_inner ys p j l).
Proof.
  unfold outputs_of_block, real_block, slice_to, slice_from.
  now rewrite skipn_map, firstn_map.
Qed.

Hypothesis Hrows :
  Z.of_nat (length ys)
  = design_rows n_perms n_inputs n_output n_outer n_inner.

Lemma real_block_length (p j l : nat) :
  in_range n_perms n_inputs n_outer p j l ->
  length (real_block n_inputs n_output n_outer n_inner ys p j l) = n_inner.
Proof.
  intros Hr. unfold real_block.
  pose proof (@block_in_bounds n_perms n_inputs n_output n_outer n_inner
                p j l Hr) as [_ Hb].
  destruct Hr as (_ & Hj & _).
  rewrite design_rows_nat in Hrows by lia. apply Nat2Z.inj in Hrows.
  rewrite length_firstn, length_skipn. lia.
Qed.

Lemma variance_of_output_some :
  1 <= n_output -> 1 <= n_inputs ->
  V = Some (population_variance (firstn n_output ys)) /\
  length (firstn n_output ys) = n_output.
Proof.
  intros Ho Hi.
  rewrite design_rows_nat in Hrows by lia. apply Nat2Z.inj in Hrows.
  assert (Hl : length (firstn n_output ys) = n_output)
    by (rewrite length_firstn; lia).
  split; [|exact Hl].
  unfold variance_of_output, slice_to. rewrite firstn_map.
  apply population_variance_spec.
  intros E. rewrite E in Hl. simpl in Hl. lia.
Qed.

Lemma pass_cost_some (p j : nat) :
  p < n_perms -> j < n_inputs - 1 -> 2 <= n_inner -> 1 <= n_outer ->
  pass_cost n_inputs n_outer n_inner V
    (pass_start n_inputs n_output n_outer n_inner output0 p) j
  = Some (Rmean (map (fun l => bessel_variance
                                 (real_block n_inputs n_output n_outer
                                             n_inner ys p (j + 1) l))
                     (range 0 n_outer))).
Proof.
  intros Hp Hj Hi Ho. rewrite pass_cost_blocks by exact Hj.
  rewrite <- np_mean_some.
  - f_equal. rewrite map_map. apply map_ext_in. intros l Hl.
    rewrite range_0 in Hl. apply in_seq in Hl.
    rewrite outputs_of_block_some. apply bessel_variance_spec.
    rewrite real_block_length; [exact Hi|]. unfold in_range. lia.
  - rewrite range_0. destruct n_outer; [lia|discriminate].
Qed.
End FiniteCosts.

(** Claim C5.  The two variance estimators.  [output_variance] is
    [np.var] with [ddof = 0] of the first [n_output] outputs, the sum of
    squared deviations divided by [n_output]; at a split
    [j < n_inputs - 1] the cost is the mean over the [n_outer] blocks of
    [np.var] with [ddof = 1] of each block of [n_inner] values, the sum of
    squared deviations divided by [n_inner - 1]; at the last split the cost
    is [output_variance] and no output is read. *)
Theorem variance_estimators_are_asymmetric
    (permutations : list (list nat))
    (n_perms n_inputs n_output n_outer n_inner : nat) (output0 : list float) :
  length permutations = n_perms ->
  Forall (fun perms => Permutation perms (seq 0 n_inputs)) permutations ->
  (variance_of_output n_output output0 = np_var 0 (slice_to n_output output0)) /\
  (forall p j, p < n_perms -> j < n_inputs ->
     exists s0 s,
       entering_split permutations n_inputs n_output n_outer n_inner output0 p j
       = Returned s0 /\
       after_split permutations n_inputs n_output n_outer n_inner output0 p j
       = Returned s /\
       (j < n_inputs - 1 ->
        estimated_cost s
        = np_mean (map (fun l => np_var 1
                                   (outputs_of_block n_inputs n_output n_outer
                                                     n_inner output0 p (j + 1) l))
                       (range 0 n_outer))) /\
       (j = n_inputs - 1 ->
        estimated_cost s = variance_of_output n_output output0 /\
        output s = output s0)) /\
  (forall ys : list R,
     output0 = map Some ys ->
     Z.of_nat (length ys)
     = design_rows n_perms n_inputs n_output n_outer n_inner ->
     (1 <= n_output -> 1 <= n_inputs ->
      variance_of_output n_output output0
      = Some (sum_sq_dev (firstn n_output ys) / INR n_output)%R) /\
     (forall p j, p < n_perms -> j < n_inputs - 1 ->
        2 <= n_inner -> 1 <= n_outer ->
        exists s,
          after_split permutations n_inputs n_output n_outer n_inner output0 p j
          = Returned s /\
          estimated_cost s
          = Some (Rmean (map (fun l =>
                                (sum_sq_dev
                                   (real_block n_inputs n_output n_outer n_inner
                                               ys p (j + 1) l)
                                 / (INR n_inner - 1))%R)
                             (range 0 n_outer))) /\
          length (range 0 n_outer) = n_outer /\
          (forall l, l < n_outer ->
             length (real_block n_inputs n_output n_outer n_inner ys p (j + 1) l)
             = n_inner))).
Proof.
  intros Hlen Hperm.
  pose proof (@permutations_index_lists n_inputs permutations Hperm) as Hv.
  split; [reflexivity|]. split.
  - intros p j Hp Hj.
    destruct (@after_split_spec permutations n_inputs n_output n_outer n_inner
                output0 Hv p j) as (s0 & s & E0 & E & Hc & _ & Ho0 & Ho);
      [lia|lia|].
    exists s0, s. split; [exact E0|]. split; [exact E|]. split.
    + intros Hlt. rewrite Hc. now apply pass_cost_blocks.
    + intros ->. split.
      * rewrite Hc. apply pass_cost_last.
      * rewrite Ho, Ho0. unfold unread. do 2 f_equal. lia.
  - intros ys -> Hrows. split.
    + intros Ho Hi.
      destruct (@variance_of_output_some n_perms n_inputs n_output n_outer
                  n_inner ys Hrows Ho Hi) as [HV Hl].
      rewrite HV. unfold population_variance. now rewrite Hl.
    + intros p j Hp Hj Hi Ho.
      destruct (@after_split_spec permutations n_inputs n_output n_outer n_inner
                  (map Some ys) Hv p j) as (s0 & s & E0 & E & Hc & _);
        [lia|lia|].
      exists s. split; [exact E|].
      assert (Hbl : forall l, l < n_outer ->
                length (real_block n_inputs n_output n_outer n_inner ys
                                   p (j + 1) l) = n_inner).
      { intros l Hl. apply real_block_length with (n_perms := n_perms);
          [exact Hrows|unfold in_range; lia]. }
      split; [|split; [rewrite range_0; apply length_seq|exact Hbl]].
      rewrite Hc.
      rewrite (@pass_cost_some n_perms n_inputs n_output n_outer n_inner ys
                 Hrows p j) by lia.
      do 2 f_equal. apply map_ext_in. intros l Hl.
      rewrite range_0 in Hl. apply in_seq in Hl.
      unfold bessel_variance. rewrite Hbl by lia. reflexivity.
Qed.

Open Scope R_scope.

(** ** Accumulating finite increments *)

Lemma Rsum_app (l1 l2 : list R) : Rsum (l1 ++ l2) = Rsum l1 + Rsum l2.
Proof.
  induction l1 as [|x t IH]; simpl; [lra|]. unfold Rsum in *. simpl.
  rewrite IH. lra.
Qed.

Lemma Rsum_single (x : R) : Rsum [x] = x.
Proof. unfold Rsum. simpl. lra. Qed.

Lemma Rupd_length (i : nat) (x : R) (ra : list R) :
  (i < length ra)%nat -> length (Rupd i x ra) = length ra.
Proof.
  intros H. unfold Rupd.
  rewrite length_app, length_firstn. cbn [length]. rewrite length_skipn. lia.
Qed.

Lemma Rupd_nth_eq (i : nat) (x : R) (ra : list R) :
  (i < length ra)%nat -> nth i (Rupd i x ra) 0 = x.
Proof.
  intros H. unfold Rupd.
  rewrite app_nth2; rewrite length_firstn, Nat.min_l by lia; [|lia].
  now rewrite Nat.sub_diag.
Qed.

Lemma Rupd_nth_neq (i i' : nat) (x : R) (ra : list R) :
  (i < length ra)%nat -> i' <> i -> nth i' (Rupd i x ra) 0 = nth i' ra 0.
Proof.
  intros Hi H. unfold Rupd.
  destruct (Nat.lt_ge_cases i' i) as [Hlt|Hge].
  - rewrite app_nth1 by (rewrite length_firstn; lia).
    rewrite nth_firstn.
    destruct (i' <? i)%nat eqn:E; [reflexivity|apply Nat.ltb_ge in E; lia].
  - rewrite app_nth2 by (rewrite length_firstn; lia).
    rewrite length_firstn, Nat.min_l by lia.
    destruct (i' - i)%nat as [|d] eqn:E; [lia|]. cbn [nth].
    rewrite nth_skipn. f_equal. lia.
Qed.

Lemma Rsum_Rupd (i : nat) (x : R) (ra : list R) :
  (i < length ra)%nat -> Rsum (Rupd i x ra) = Rsum ra - nth i ra 0 + x.
Proof.
  intros Hi. unfold Rupd.
  rewrite <- (firstn_skipn i ra) at 3.
  rewrite !Rsum_app.
  destruct (skipn i ra) as [|y t] eqn:E.
  - apply (f_equal (@length R)) in E. rewrite length_skipn in E. simpl in E. lia.
  - replace (skipn (S i) ra) with t.
    + replace (nth i ra 0) with y; [unfold Rsum; simpl; lra|].
      rewrite <- (Nat.add_0_r i), <- nth_skipn, E. reflexivity.
    + replace (S i) with (i + 1)%nat by lia.
      rewrite <- skipn_add, E. reflexivity.
Qed.

Lemma bump_some (i : nat) (d : R) (ra : list R) :
  (i < length ra)%nat ->
  bump i (Some d) (map Some ra) = map Some (Rupd i (nth i ra 0 + d) ra).
Proof.
  intros Hi. unfold bump, Rupd.
  rewrite map_app, firstn_map. cbn [map]. rewrite skipn_map.
  do 2 f_equal.
  rewrite nth_indep with (d' := Some 0) by (rewrite length_map; exact Hi).
  now rewrite (map_nth Some).
Qed.

Lemma acc_inv_ext (n : nat) (m m' : nat -> nat) (t t' : R) (a b : list float) :
  (forall i, (i < n)%nat -> m i = m' i) -> t = t' ->
  acc_inv n m t a b -> acc_inv n m' t' a b.
Proof.
  intros Hm <- (ra & rb & Ha & Hb & La & Lb & Hs & HQ).
  exists ra, rb. repeat split; auto.
  - apply HQ, H.
  - rewrite <- Hm by exact H. apply HQ, H.
Qed.

(** One more increment keeps the Cauchy-Schwarz bound. *)
Lemma square_bound_step (m : nat) (A B d : R) :
  0 <= B -> A * A <= INR m * B ->
  0 <= B + d * d /\ (A + d) * (A + d) <= INR (m + 1) * (B + d * d).
Proof.
  intros HB HQ. split; [nra|].
  rewrite plus_INR. change (INR 1) with 1.
  destruct (Nat.eq_dec m 0) as [->|Hm0].
  - change (INR 0) with 0 in *. assert (A = 0) by nra. subst. nra.
  - assert (Hm : 1 <= INR m).
    { change 1 with (INR 1). apply le_INR. lia. }
    generalize dependent (INR m). intros M HQ HM.
    pose proof (Rle_0_sqr (A - M * d)) as H1. unfold Rsqr in H1.
    assert (H3 : 0 <= B + M * (d * d) - 2 * (A * d)).
    { destruct (Rle_lt_dec 0 (B + M * (d * d) - 2 * (A * d))) as [|Hneg];
        [assumption|].
      exfalso.
      assert (M * (B + M * (d * d) - 2 * (A * d)) < 0) by nra.
      nra. }
    nra.
Qed.

Lemma acc_inv_bump (n : nat) (m : nat -> nat) (t d : R) (a b : list float)
    (i : nat) :
  (i < n)%nat -> acc_inv n m t a b ->
  acc_inv n (fun i' => (m i' + (if i' =? i then 1 else 0))%nat) (t + d)
          (bump i (Some d) a) (bump i (Some (d * d)) b).
Proof.
  intros Hi (ra & rb & -> & -> & La & Lb & Hs & HQ).
  exists (Rupd i (nth i ra 0 + d) ra), (Rupd i (nth i rb 0 + d * d) rb).
  split; [apply bump_some; lia|]. split; [apply bump_some; lia|].
  split; [rewrite Rupd_length; lia|]. split; [rewrite Rupd_length; lia|].
  split; [rewrite Rsum_Rupd by lia; lra|].
  intros i' Hi'. destruct (Nat.eqb_spec i' i) as [->|Hne].
  - rewrite !Rupd_nth_eq by lia.
    destruct (HQ i Hi) as [HB Hq]. now apply square_bound_step.
  - rewrite !Rupd_nth_neq by lia. rewrite Nat.add_0_r. now apply HQ.
Qed.

Lemma firstn_S_nth {A} (d : A) (l : list A) (k : nat) :
  (k < length l)%nat -> firstn (S k) l = firstn k l ++ [nth k l d].
Proof.
  revert k; induction l as [|x t IH]; intros k H; [simpl in H; lia|].
  destruct k as [|k]; [reflexivity|].
  cbn [firstn nth app]. f_equal. apply IH. simpl in H. lia.
Qed.

Lemma NoDup_not_in_prefix (perms : list nat) (k : nat) :
  NoDup perms -> (k < length perms)%nat ->
  existsb (Nat.eqb (nth k perms 0%nat)) (firstn k perms) = false.
Proof.
  intros Hnd Hk.
  destruct (existsb _ _) eqn:E; [|reflexivity]. exfalso.
  apply existsb_exists in E as [x [Hin Hx]]. apply Nat.eqb_eq in Hx.
  apply (In_nth _ _ 0%nat) in Hin as [k' [Hk' Hn]].
  rewrite length_firstn in Hk'.
  rewrite nth_firstn in Hn.
  destruct (k' <? k)%nat eqn:E'; [|apply Nat.ltb_ge in E'; lia].
  pose proof (proj1 (NoDup_nth perms 0%nat) Hnd) as Hinj.
  assert (k = k') by (apply Hinj; [lia|lia|congruence]). lia.
Qed.

Lemma visits_S (perms : list nat) (k i : nat) :
  NoDup perms -> (k < length perms)%nat ->
  visits perms (S k) i
  = (visits perms k i + (if i =? nth k perms 0%nat then 1 else 0))%nat.
Proof.
  intros Hnd Hk. unfold visits.
  rewrite (firstn_S_nth 0%nat) by exact Hk.
  rewrite existsb_app. cbn [existsb]. rewrite orb_false_r.
  destruct (Nat.eqb_spec i (nth k perms 0%nat)) as [->|Hne].
  - now rewrite NoDup_not_in_prefix.
  - rewrite orb_false_r. lia.
Qed.

Lemma visits_all (perms : list nat) (n i : nat) :
  Permutation perms (seq 0 n) -> (i < n)%nat -> visits perms n i = 1%nat.
Proof.
  intros Hp Hi. unfold visits.
  rewrite firstn_all2
    by (rewrite (Permutation_length Hp), length_seq; lia).
  replace (existsb (Nat.eqb i) perms) with true; [reflexivity|].
  symmetry. apply existsb_exists. exists i. split; [|apply Nat.eqb_refl].
  eapply Permutation_in; [symmetry; exact Hp|]. apply in_seq. lia.
Qed.

Section AccPass.
Variables n_inputs n_outer n_inner : nat.
Variable V : float.
Variable perms : list nat.
Variable out : list float.
Variable d : nat -> R.

Hypothesis Hd : forall j, (j < n_inputs)%nat ->
  pass_delta n_inputs n_outer n_inner V out j = Some (d j).
Hypothesis Hperm : Permutation perms (seq 0 n_inputs).

Lemma acc_pass (k : nat) (m : nat -> nat) (t : R) (a b : list float) :
  (k <= n_inputs)%nat ->
  acc_inv n_inputs m t a b ->
  acc_inv n_inputs (fun i => (m i + visits perms k i)%nat)
          (t + Rsum (map d (seq 0 k)))
          (pass_effects n_inputs n_outer n_inner V perms out k a)
          (pass_squares n_inputs n_outer n_inner V perms out k b).
Proof.
  intros Hk Hinv.
  assert (Hlen : length perms = n_inputs)
    by (rewrite (Permutation_length Hperm); apply length_seq).
  assert (Hnd : NoDup perms)
    by (eapply Permutation_NoDup; [symmetry; exact Hperm|apply seq_NoDup]).
  induction k as [|k IH].
  - eapply acc_inv_ext; [| |exact Hinv].
    + intros i _. unfold visits. simpl. lia.
    + unfold Rsum. simpl. lra.
  - unfold pass_effects, pass_squares in *.
    rewrite seq_S, !fold_left_app, map_app, Rsum_app. cbn [fold_left].
    change (0 + k)%nat with k.
    rewrite Hd by lia.
    cbn [fmul lift2].
    eapply acc_inv_ext;
      [| |apply acc_inv_bump with (d := d k); [|apply IH; lia]].
    + intros i Hi. cbn beta. rewrite visits_S by (auto; lia). lia.
    + cbn [map]. rewrite Rsum_single. lra.
    + assert (Hin : In (nth k perms 0%nat) (seq 0 n_inputs)) by (eapply Permutation_in; [exact Hperm|apply nth_In; lia]). apply in_seq in Hin. lia.
Qed.
End AccPass.

Lemma finite_real_of (x : float) : finite x -> x = Some (real_of x).
Proof. intros [r ->]. reflexivity. Qed.

Section AccRun.
Variable permutations : list (list nat).
Variables n_inputs n_output n_outer n_inner : nat.
Variable output0 : list float.

Local Abbreviation V := (variance_of_output n_output output0).
Local Abbreviation pass_start :=
  (pass_start n_inputs n_output n_outer n_inner output0).
Local Abbreviation run_delta :=
  (run_delta n_inputs n_output n_outer n_inner output0).

Hypothesis Hperm :
  Forall (fun perms => Permutation perms (seq 0 n_inputs)) permutations.
Hypothesis Hfin : forall p j,
  (p < length permutations)%nat -> (j < n_inputs)%nat ->
  finite (pass_delta n_inputs n_outer n_inner V (pass_start p) j).

Lemma acc_run (k : nat) :
  (k <= length permutations)%nat ->
  acc_inv n_inputs (fun _ => k)
    (Rsum (map (fun p => Rsum (map (run_delta p) (seq 0 n_inputs)))
               (seq 0 k)))
    (run_effects permutations n_inputs n_output n_outer n_inner output0 k)
    (run_squares permutations n_inputs n_output n_outer n_inner output0 k).
Proof.
  induction k as [|k IH]; intros Hk.
  - exists (repeat 0 n_inputs), (repeat 0 n_inputs).
    unfold run_effects, run_squares, np_zeros. cbn [seq fold_left map].
    rewrite map_repeat, !repeat_length.
    assert (Hz : forall i, nth i (repeat 0 n_inputs) 0 = 0).
    { intros i.
      destruct (nth_in_or_default i (repeat 0 n_inputs) 0) as [Hin | ->];
        [now apply repeat_spec in Hin|reflexivity]. }
    assert (Hs : Rsum (repeat 0 n_inputs) = 0).
    { clear. induction n_inputs as [|n IH]; [reflexivity|].
      unfold Rsum in *. simpl. rewrite IH. lra. }
    split; [reflexivity|]. split; [reflexivity|].
    split; [reflexivity|]. split; [reflexivity|].
    split; [exact Hs|].
    intros i _. rewrite !Hz. simpl. lra.
  - unfold run_effects, run_squares in *.
    rewrite seq_S, !fold_left_app, map_app, Rsum_app. cbn [fold_left map].
    change (0 + k)%nat with k.
    assert (Hp : Permutation (nth k permutations []) (seq 0 n_inputs)).
    { rewrite Forall_forall in Hperm. apply Hperm, nth_In. lia. }
    eapply acc_inv_ext;
      [| |apply acc_pass with (d := run_delta k) (k := n_inputs);
           [|exact Hp|lia|apply IH; lia]].
    + intros i Hi. cbn beta. rewrite visits_all by auto. lia.
    + cbn [map]. rewrite Rsum_single. lra.
    + intros j Hj. apply finite_real_of, Hfin; lia.
Qed.
End AccRun.

Lemma fadd_assoc (x y z : float) : fadd x (fadd y z) = fadd (fadd x y) z.
Proof.
  destruct x, y, z; simpl; try reflexivity. f_equal. lra.
Qed.

Lemma np_sum_app (l1 l2 : list float) :
  np_sum (l1 ++ l2) = fadd (np_sum l1) (np_sum l2).
Proof.
  induction l1 as [|x t IH].
  - simpl. destruct (np_sum l2); simpl; [f_equal; lra|reflexivity].
  - cbn [app]. rewrite !np_sum_cons, IH. apply fadd_assoc.
Qed.

(** ** Telescoping of the increments of one pass *)

Section Telescope.
Variables n_inputs n_outer n_inner : nat.
Variable V : float.
Variable out : list float.

Local Abbreviation pass_cost := (pass_cost n_inputs n_outer n_inner V out).
Local Abbreviation pass_delta := (pass_delta n_inputs n_outer n_inner V out).

Hypothesis Hcost : forall j, (j < n_inputs - 1)%nat -> finite (pass_cost j).

Lemma pass_delta_finite (v : R) (j : nat) :
  V = Some v -> (j < n_inputs)%nat -> finite (pass_delta j).
Proof.
  intros HV Hj. unfold pass_delta, pass_prev.
  assert (Hc : forall i, (i < n_inputs)%nat -> finite (pass_cost i)).
  { intros i Hi. destruct (Nat.eq_dec i (n_inputs - 1)) as [->|Hne].
    - unfold pass_cost, cost_of. rewrite Nat.eqb_refl. now exists v.
    - apply Hcost. lia. }
  destruct (Hc j Hj) as [c ->].
  destruct j as [|j]; [now eexists|].
  destruct (Hc j) as [c' ->]; [lia|]. now eexists.
Qed.

Lemma pass_delta_sum (k : nat) :
  (S k <= n_inputs)%nat ->
  np_sum (map pass_delta (seq 0 (S k))) = pass_cost k.
Proof.
  induction k as [|k IH]; intros Hk.
  - cbn [seq map]. rewrite np_sum_cons. unfold pass_delta, pass_prev.
    destruct (pass_cost 0) as [c|]; [|reflexivity].
    unfold np_sum. simpl. f_equal. lra.
  - rewrite seq_S, map_app, np_sum_app, IH by lia.
    cbn [map]. change (0 + S k)%nat with (S k).
    rewrite np_sum_cons. unfold pass_delta at 1, pass_prev.
    destruct (@Hcost k) as [c Hc]; [lia|]. rewrite Hc.
    destruct (pass_cost (S k)) as [c'|]; [|reflexivity].
    unfold np_sum. simpl. f_equal. lra.
Qed.
End Telescope.

(** ** Finite runs *)

Section FiniteRun.
Variable permutations : list (list nat).
Variables n_perms n_inputs n_output n_outer n_inner : nat.
Variable ys : list R.

Local Abbreviation output0 := (map Some ys).
Local Abbreviation V := (variance_of_output n_output output0).
Local Abbreviation pass_start :=
  (pass_start n_inputs n_output n_outer n_inner output0).
Local Abbreviation run_delta :=
  (run_delta n_inputs n_output n_outer n_inner output0).

Hypothesis Hrows :
  Z.of_nat (length ys)
  = design_rows n_perms n_inputs n_output n_outer n_inner.
Hypothesis Hcosts : costs_defined n_inputs n_outer n_inner.

Lemma costs_finite (p j : nat) :
  (p < n_perms)%nat -> (j < n_inputs - 1)%nat ->
  finite (pass_cost n_inputs n_outer n_inner V (pass_start p) j).
Proof.
  intros Hp Hj. destruct Hcosts as [H1|[Hi Ho]]; [lia|].
  rewrite (@pass_cost_some n_perms n_inputs n_output n_outer n_inner ys
             Hrows p j) by lia.
  now eexists.
Qed.

Lemma deltas_finite (v : R) (p j : nat) :
  V = Some v -> (p < n_perms)%nat -> (j < n_inputs)%nat ->
  pass_delta n_inputs n_outer n_inner V (pass_start p) j
  = Some (run_delta p j).
Proof.
  intros HV Hp Hj. apply finite_real_of.
  apply pass_delta_finite with (v := v); auto.
  intros i Hi. now apply costs_finite.
Qed.

Lemma run_delta_sum (v : R) (p : nat) :
  V = Some v -> (p < n_perms)%nat -> (1 <= n_inputs)%nat ->
  Rsum (map (run_delta p) (seq 0 n_inputs)) = v.
Proof.
  intros HV Hp Hn.
  pose proof (@pass_delta_sum n_inputs n_outer n_inner V (pass_start p)
                (fun j Hj => @costs_finite p j Hp Hj) (n_inputs - 1)) as Hs.
  replace (S (n_inputs - 1)) with n_inputs in Hs by lia.
  rewrite pass_cost_last in Hs.
  rewrite (map_ext_in _ (fun j => Some (run_delta p j))) in Hs.
  - rewrite <- (map_map (run_delta p) Some), np_sum_some, HV in Hs by lia.
    now injection Hs.
  - intros j Hj. apply in_seq in Hj. apply deltas_finite with (v := v); auto.
    lia.
Qed.

Hypothesis Hlen : length permutations = n_perms.
Hypothesis Hperm :
  Forall (fun perms => Permutation perms (seq 0 n_inputs)) permutations.

(** The accumulators at the end of a finite run. *)
Lemma finite_run (v : R) :
  V = Some v ->
  exists s t,
    estimation_loops permutations n_perms n_inputs n_output n_outer n_inner
                     output0 = Returned s /\
    acc_inv n_inputs (fun _ => n_perms) t
            (shapley_effects s) (shapley_effects_squared s) /\
    ((1 <= n_inputs)%nat -> t = INR n_perms * v).
Proof.
  intros HV.
  pose proof (@permutations_index_lists n_inputs permutations Hperm) as Hv.
  destruct (@estimation_loops_spec permutations n_inputs n_output n_outer
              n_inner output0 Hv) as [s [E [_ _ Ie Is]]].
  rewrite Hlen in *.
  exists s. eexists. split; [exact E|]. rewrite Ie, Is. split.
  - apply acc_run; [exact Hperm| |lia].
    intros p j Hp Hj. exists (run_delta p j).
    apply deltas_finite with (v := v); auto; lia.
  - intros Hn. rewrite (map_ext_in _ (fun _ => v)).
    + clear. induction n_perms as [|n IH]; [unfold Rsum; simpl; lra|].
      rewrite seq_S, map_app, Rsum_app, IH, S_INR. cbn [map].
      rewrite Rsum_single. lra.
    + intros p Hp. apply in_seq in Hp. apply run_delta_sum; auto; lia.
Qed.
End FiniteRun.

(** ** Normalisation (lines 166-167) *)

Lemma normalize_some (n : nat) (w : R) (ra : list R) :
  (1 <= n)%nat -> w <> 0 ->
  map (fun e => fdiv (fdiv e (of_nat n)) (Some w)) (map Some ra)
  = map Some (map (fun x => x / INR n / w) ra).
Proof.
  intros Hn Hw. rewrite !map_map. apply map_ext. intros x.
  unfold of_nat. rewrite fdiv_some by (apply INR_pos_neq; lia).
  now rewrite fdiv_some.
Qed.

Lemma Rsum_scale (a b : R) (ra : list R) :
  Rsum (map (fun x => x / a / b) ra) = Rsum ra / a / b.
Proof.
  induction ra as [|x t IH]; unfold Rsum in *; simpl.
  - unfold Rdiv. now rewrite !Rmult_0_l.
  - rewrite IH. unfold Rdiv. ring.
Qed.

(** Claim C3, as the code has it.  When every cost estimate has a nonzero
    divisor ([n_inputs <= 1], or [n_inner >= 2] and [n_outer >= 1]) and the
    outputs are finite, the increments of one permutation telescope to
    [output_variance]; and when moreover [output_variance] is a nonzero
    number and [n_perms >= 1], the Shapley effects sum to exactly 1. *)
Theorem deltas_telescope_to_output_variance
    (permutations : list (list nat))
    (n_perms n_inputs n_output n_outer n_inner : nat) (ys : list R) :
  length permutations = n_perms ->
  Forall (fun perms => Permutation perms (seq 0 n_inputs)) permutations ->
  Z.of_nat (length ys)
  = design_rows n_perms n_inputs n_output n_outer n_inner ->
  (1 <= n_inputs)%nat ->
  costs_defined n_inputs n_outer n_inner ->
  (forall p, (p < n_perms)%nat ->
     exists ds,
       length ds = n_inputs /\
       (forall j, (j < n_inputs)%nat ->
          exists s,
            after_split permutations n_inputs n_output n_outer n_inner
                        (map Some ys) p j = Returned s /\
            nth_error ds j = Some (delta s)) /\
       np_sum ds = variance_of_output n_output (map Some ys)) /\
  (forall v,
     variance_of_output n_output (map Some ys) = Some v -> v <> 0 ->
     (1 <= n_perms)%nat ->
     exists s,
       estimation_loops permutations n_perms n_inputs n_output n_outer n_inner
                        (map Some ys) = Returned s /\
       np_sum (effects (normalize n_perms
                          (variance_of_output n_output (map Some ys)) s))
       = Some 1).
Proof.
  intros Hlen Hperm Hrows Hn Hcosts.
  pose proof (@permutations_index_lists n_inputs permutations Hperm) as Hv.
  split.
  - intros p Hp.
    exists (map (pass_delta n_inputs n_outer n_inner
                   (variance_of_output n_output (map Some ys))
                   (pass_start n_inputs n_output n_outer n_inner
                               (map Some ys) p))
                (seq 0 n_inputs)).
    split; [now rewrite length_map, length_seq|]. split.
    + intros j Hj.
      destruct (@after_split_spec permutations n_inputs n_output n_outer n_inner
                  (map Some ys) Hv p j) as (s0 & s & _ & E & _ & Hd & _);
        [lia|lia|].
      exists s. split; [exact E|].
      rewrite nth_error_map, nth_error_seq.
      destruct (j <? n_inputs)%nat eqn:Ej; [|apply Nat.ltb_ge in Ej; lia].
      simpl. now rewrite Hd.
    + pose proof (@pass_delta_sum n_inputs n_outer n_inner
                    (variance_of_output n_output (map Some ys))
                    (pass_start n_inputs n_output n_outer n_inner
                                (map Some ys) p)
                    (fun j Hj => @costs_finite n_perms n_inputs n_output
                                   n_outer n_inner ys Hrows Hcosts p j Hp Hj)
                    (n_inputs - 1)) as Hs.
      replace (S (n_inputs - 1)) with n_inputs in Hs by lia.
      rewrite Hs by lia. apply pass_cost_last.
  - intros v HV Hv0 Hp.
    destruct (@finite_run permutations n_perms n_inputs n_output n_outer n_inner
                ys Hrows Hcosts Hlen Hperm v HV)
      as (s & t & E & (ra & rb & Ha & _ & _ & _ & Hs & _) & Ht).
    rewrite (Ht Hn) in Hs.
    exists s. split; [exact E|].
    unfold normalize. cbn [effects]. rewrite HV, Ha.
    rewrite normalize_some by (auto; lia).
    rewrite np_sum_some, Rsum_scale, Hs. f_equal.
    field. split; [apply INR_pos_neq; lia|exact Hv0].
Qed.

Close Scope R_scope.

Open Scope R_scope.

Lemma nth_error_zip_with {A B C} (f : A -> B -> C) (a : list A) (b : list B)
    (i : nat) (x : A) (y : B) :
  nth_error a i = Some x -> nth_error b i = Some y ->
  nth_error (zip_with f a b) i = Some (f x y).
Proof.
  revert b i; induction a as [|u a IH]; intros b i Ha Hb.
  - destruct i; discriminate.
  - destruct b as [|w b]; [destruct i; discriminate|].
    destruct i as [|i]; simpl in *.
    + now injection Ha as ->; injection Hb as ->.
    + now apply IH.
Qed.

Lemma zip_with_length {A B C} (f : A -> B -> C) (a : list A) (b : list B) :
  length a = length b -> length (zip_with f a b) = length a.
Proof.
  revert b; induction a as [|u a IH]; intros [|w b] H; simpl in *;
    try reflexivity; try discriminate.
  f_equal. apply IH. lia.
Qed.

Lemma nth_error_map_some (ra : list R) (g : R -> R) (i : nat) :
  (i < length ra)%nat ->
  nth_error (map Some (map g ra)) i = Some (Some (g (nth i ra 0))).
Proof.
  intros Hi. rewrite map_map.
  rewrite nth_error_map, (nth_error_nth' ra 0 Hi). reflexivity.
Qed.

(** Lines 166-167 entry by entry. *)
Lemma normalize_entries (n_perms : nat) (V : float) (s : locals) (i : nat) :
  (i < length (shapley_effects s))%nat ->
  (i < length (shapley_effects_squared s))%nat ->
  let e := normalize n_perms V s in
  let effect :=
    fdiv (fdiv (nth i (shapley_effects s) nan) (of_nat n_perms)) V in
  let squared_mean :=
    fdiv (fdiv (nth i (shapley_effects_squared s) nan) (of_nat n_perms))
         (fmul V V) in
  nth_error (effects e) i = Some effect /\
  nth_error (effects_squared e) i = Some squared_mean /\
  nth_error (standard_errors e) i
  = Some (np_sqrt (fdiv (fsub squared_mean (fmul effect effect))
                        (of_nat n_perms))).
Proof.
  intros Ha Hb e effect squared_mean.
  assert (He : nth_error (effects e) i = Some effect).
  { unfold e, normalize. cbn [effects].
    rewrite nth_error_map, (nth_error_nth' _ nan Ha). reflexivity. }
  assert (Hs : nth_error (effects_squared e) i = Some squared_mean).
  { unfold e, normalize. cbn [effects_squared].
    rewrite nth_error_map, (nth_error_nth' _ nan Hb). reflexivity. }
  split; [exact He|]. split; [exact Hs|].
  unfold e, normalize in *. cbn [effects effects_squared standard_errors] in *.
  now rewrite (nth_error_zip_with _ _ _ _ Hs He).
Qed.

(** The root of line 168 against the clamped root of the specification. *)
Lemma unclamped_root_cases (n_perms : nat) (squared_mean effect : float) :
  let radicand := fsub squared_mean (fmul effect effect) in
  let se := np_sqrt (fdiv radicand (of_nat n_perms)) in
  (forall r, radicand = Some r -> 0 <= r -> (1 <= n_perms)%nat ->
     se = Some (sqrt (r / INR n_perms)) /\
     se = spec_standard_error n_perms squared_mean effect) /\
  (forall r, radicand = Some r -> r < 0 -> (1 <= n_perms)%nat ->
     se = nan /\ spec_standard_error n_perms squared_mean effect = Some 0) /\
  (radicand = nan -> se = nan) /\
  (n_perms = 0%nat -> se = nan).
Proof.
  intros radicand se. unfold se, spec_standard_error. fold radicand.
  split; [|split; [|split]].
  - intros r Hr Hpos Hn. rewrite Hr. cbn [fmax lift2]. unfold of_nat.
    assert (HN : 0 < INR n_perms) by (apply lt_0_INR; lia).
    rewrite Rmax_left by exact Hpos.
    rewrite fdiv_some by lra. split; [|reflexivity].
    apply np_sqrt_some. apply Rmult_le_pos; [exact Hpos|].
    now apply Rlt_le, Rinv_0_lt_compat.
  - intros r Hr Hneg Hn. rewrite Hr. cbn [fmax lift2]. unfold of_nat.
    assert (HN : 0 < INR n_perms) by (apply lt_0_INR; lia).
    rewrite Rmax_right by lra.
    rewrite !fdiv_some by lra. split.
    + unfold np_sqrt. destruct (Rlt_dec (r / INR n_perms) 0) as [_|H];
        [reflexivity|].
      exfalso. apply H. apply Rmult_neg_pos; [exact Hneg|].
      now apply Rinv_0_lt_compat.
    + replace (0 / INR n_perms) with 0 by (field; lra).
      rewrite np_sqrt_some by lra. now rewrite sqrt_0.
  - intros ->. reflexivity.
  - intros ->. unfold of_nat. cbn [INR].
    destruct radicand; [now rewrite fdiv_zero|reflexivity].
Qed.

(** Claim C6, as the code has it.  After the loops the two accumulators
    have one entry per input and the routine's table is made of their
    normalisation.  For each input the effect is the accumulated increment
    divided by [n_perms] and then by [output_variance], the squared mean is
    the accumulated squared increment divided by [n_perms] and then by
    [output_variance * output_variance], and the standard error is [np.sqrt]
    of [(squared_mean - effect * effect) / n_perms], with no clamp.  When the
    difference [squared_mean - effect * effect], as computed, is a number
    [r >= 0] and [n_perms >= 1], the standard error is [sqrt (r / n_perms)],
    which is also the clamped root of the specification; when it is a number
    [r < 0] the standard error is nan where the clamped root is 0; when it
    is not a number, or [n_perms = 0], the standard error is nan. *)
Theorem standard_error_is_unclamped_root
    (permutations : list (list nat))
    (n_perms n_inputs n_output n_outer n_inner : nat)
    (output0 : list float) :
  length permutations = n_perms ->
  Forall (fun perms => Permutation perms (seq 0 n_inputs)) permutations ->
  exists s,
    estimation_loops permutations n_perms n_inputs n_output n_outer n_inner
                     output0 = Returned s /\
    length (shapley_effects s) = n_inputs /\
    length (shapley_effects_squared s) = n_inputs /\
    let V := variance_of_output n_output output0 in
    let e := normalize n_perms V s in
    estimate permutations n_perms n_inputs n_output n_outer n_inner output0
    = Returned (table n_inputs e) /\
    forall i, (i < n_inputs)%nat ->
      let effect :=
        fdiv (fdiv (nth i (shapley_effects s) nan) (of_nat n_perms)) V in
      let squared_mean :=
        fdiv (fdiv (nth i (shapley_effects_squared s) nan) (of_nat n_perms))
             (fmul V V) in
      let radicand := fsub squared_mean (fmul effect effect) in
      let se := np_sqrt (fdiv radicand (of_nat n_perms)) in
      nth_error (effects e) i = Some effect /\
      nth_error (effects_squared e) i = Some squared_mean /\
      nth_error (standard_errors e) i = Some se /\
      (forall r, radicand = Some r -> 0 <= r -> (1 <= n_perms)%nat ->
         se = Some (sqrt (r / INR n_perms)) /\
         se = spec_standard_error n_perms squared_mean effect) /\
      (forall r, radicand = Some r -> r < 0 -> (1 <= n_perms)%nat ->
         se = nan /\
         spec_standard_error n_perms squared_mean effect = Some 0) /\
      (radicand = nan -> se = nan) /\
      (n_perms = 0%nat -> se = nan).
Proof.
  intros Hlen Hperm.
  pose proof (@permutations_index_lists n_inputs permutations Hperm) as Hv.
  destruct (@estimation_loops_spec permutations n_inputs n_output n_outer
              n_inner output0 Hv) as [s [E [_ _ Ie Is]]].
  rewrite Hlen in *.
  assert (Ha : length (shapley_effects s) = n_inputs)
    by (rewrite Ie; apply run_effects_length; [exact Hv|lia]).
  assert (Hb : length (shapley_effects_squared s) = n_inputs)
    by (rewrite Is; apply run_squares_length; [exact Hv|lia]).
  exists s. split; [exact E|]. split; [exact Ha|]. split; [exact Hb|].
  intros V e. split; [unfold estimate; now rewrite E|].
  intros i Hi effect squared_mean radicand se.
  destruct (@normalize_entries n_perms V s i) as (H1 & H2 & H3);
    [lia|lia|].
  split; [exact H1|]. split; [exact H2|]. split; [exact H3|].
  apply unclamped_root_cases.
Qed.

Close Scope R_scope.

(** ** Non-finite values stay *)

Lemma fadd_none_l (d : float) : fadd None d = None.
Proof. reflexivity. Qed.

Lemma fadd_none_r (x : float) : fadd x None = None.
Proof. now destruct x. Qed.

Lemma bump_sticky (i i' : nat) (d : float) (a : list float) :
  nth_error a i = Some None -> nth_error (bump i' d a) i = Some None.
Proof.
  intros H.
  assert (Hi : i < length a) by (apply nth_error_Some; congruence).
  unfold bump.
  destruct (Nat.lt_trichotomy i i') as [Hlt|[->|Hgt]].
  - rewrite nth_error_app1 by (rewrite length_firstn; lia).
    rewrite nth_error_firstn.
    destruct (i <? i') eqn:E; [exact H|apply Nat.ltb_ge in E; lia].
  - rewrite nth_error_app2 by (rewrite length_firstn; lia).
    rewrite length_firstn, Nat.min_l, Nat.sub_diag by lia. cbn [nth_error].
    erewrite nth_error_nth by exact H. reflexivity.
  - rewrite nth_error_app2 by (rewrite length_firstn; lia).
    rewrite length_firstn, Nat.min_l by lia.
    destruct (i - i') as [|k] eqn:E; [lia|]. cbn [nth_error].
    rewrite nth_error_skipn. rewrite <- H. f_equal. lia.
Qed.

Lemma bump_none (i : nat) (a : list float) :
  i < length a -> nth_error (bump i None a) i = Some None.
Proof.
  intros Hi. unfold bump.
  rewrite nth_error_app2 by (rewrite length_firstn; lia).
  rewrite length_firstn, Nat.min_l, Nat.sub_diag by lia. cbn [nth_error].
  now rewrite fadd_none_r.
Qed.

Lemma fold_bump_sticky {J} (g : J -> nat) (h : J -> float) (js : list J)
    (a : list float) (i : nat) :
  nth_error a i = Some None ->
  nth_error (fold_left (fun a j => bump (g j) (h j) a) js a) i = Some None.
Proof.
  revert a; induction js as [|j js IH]; intros a H; [exact H|].
  cbn [fold_left]. apply IH. now apply bump_sticky.
Qed.

Section Sticky.
Variable permutations : list (list nat).
Variables n_inputs n_output n_outer n_inner : nat.
Variable output0 : list float.

Local Abbreviation V := (variance_of_output n_output output0).
Local Abbreviation pass_start :=
  (pass_start n_inputs n_output n_outer n_inner output0).

Lemma pass_effects_sticky (perms : list nat) (out : list float) (k : nat)
    (a : list float) (i : nat) :
  nth_error a i = Some None ->
  nth_error (pass_effects n_inputs n_outer n_inner V perms out k a) i
  = Some None.
Proof. apply fold_bump_sticky. Qed.

Lemma run_effects_sticky (a : list float) (ps : list nat) (i : nat) :
  nth_error a i = Some None ->
  nth_error
    (fold_left (fun a p => pass_effects n_inputs n_outer n_inner V
                             (nth p permutations []) (pass_start p)
                             n_inputs a) ps a) i
  = Some None.
Proof.
  revert a; induction ps as [|p ps IH]; intros a H; [exact H|].
  cbn [fold_left]. apply IH. now apply pass_effects_sticky.
Qed.

(** A non-finite first increment leaves a non-finite effect. *)
Lemma first_delta_none (n_perms : nat) :
  1 <= n_perms -> 1 <= n_inputs ->
  nth 0 (nth 0 permutations []) 0 < n_inputs ->
  pass_delta n_inputs n_outer n_inner V (pass_start 0) 0 = None ->
  nth_error
    (run_effects permutations n_inputs n_output n_outer n_inner output0
                 n_perms)
    (nth 0 (nth 0 permutations []) 0)
  = Some None.
Proof.
  intros Hp Hn Hb Hd. unfold run_effects.
  destruct n_perms as [|k]; [lia|]. cbn [seq fold_left].
  apply run_effects_sticky.
  unfold pass_effects. destruct n_inputs as [|n] eqn:En; [lia|].
  cbn [seq fold_left]. apply fold_bump_sticky.
  rewrite <- En in *. rewrite Hd. apply bump_none.
  unfold np_zeros. rewrite repeat_length. exact Hb.
Qed.
End Sticky.

Lemma first_cost_none (n_inputs n_outer n_inner : nat) (V : float)
    (out : list float) :
  2 <= n_inputs -> ~ (2 <= n_inner /\ 1 <= n_outer) ->
  pass_delta n_inputs n_outer n_inner V out 0 = None.
Proof.
  intros Hn Hbad. unfold pass_delta, pass_prev, pass_cost, cost_of.
  destruct (0 =? n_inputs - 1) eqn:E; [apply Nat.eqb_eq in E; lia|].
  destruct n_outer as [|k].
  - cbn [seq map]. now rewrite np_mean_nil.
  - rewrite np_mean_none; [reflexivity|].
    cbn [seq map]. left. apply np_var_short.
    unfold block_of. rewrite length_firstn. lia.
Qed.

Lemma Forall_finite_map_some (rs : list R) : Forall finite (map Some rs).
Proof.
  apply Forall_forall. intros x Hx. apply in_map_iff in Hx as [r [<- _]].
  now exists r.
Qed.

Lemma not_finite_none : ~ finite None.
Proof. intros [r Hr]. discriminate. Qed.

(** Claim C10, as the code has it.  In exact real arithmetic, for
    [n_inputs >= 2] and finite outputs, all effects and squared means are
    finite (no division by zero occurs) if and only if [n_inner >= 2],
    [n_outer >= 1], [n_perms >= 1], [output_variance] is a nonzero number
    and so is its square [output_variance * output_variance] as computed;
    under these conditions the divisors [n_inner - 1], [n_inner],
    [n_outer], [n_output], [n_perms], [output_variance] and
    [output_variance * output_variance] are all nonzero.  The condition on
    the square is stated on its own because a product of floating-point
    numbers can be zero when neither factor is. *)
Theorem division_by_zero_free_iff
    (permutations : list (list nat))
    (n_perms n_inputs n_output n_outer n_inner : nat) (ys : list R) :
  length permutations = n_perms ->
  Forall (fun perms => Permutation perms (seq 0 n_inputs)) permutations ->
  Z.of_nat (length ys)
  = design_rows n_perms n_inputs n_output n_outer n_inner ->
  2 <= n_inputs ->
  exists s,
    estimation_loops permutations n_perms n_inputs n_output n_outer n_inner
                     (map Some ys) = Returned s /\
    let V := variance_of_output n_output (map Some ys) in
    let e := normalize n_perms V s in
    let guarded :=
      2 <= n_inner /\ 1 <= n_outer /\ 1 <= n_perms /\
      (exists v, V = Some v /\ v <> 0%R) /\
      (exists w, fmul V V = Some w /\ w <> 0%R) in
    ((Forall finite (effects e) /\ Forall finite (effects_squared e))
     <-> guarded) /\
    (guarded ->
     INR (n_inner - 1) <> 0%R /\ INR n_inner <> 0%R /\ INR n_outer <> 0%R /\
     INR n_output <> 0%R /\ INR n_perms <> 0%R /\
     (forall v, V = Some v -> v <> 0%R) /\
     (forall w, fmul V V = Some w -> w <> 0%R)).
Proof.
  intros Hlen Hperm Hrows Hn.
  pose proof (@permutations_index_lists n_inputs permutations Hperm) as Hv.
  destruct (@estimation_loops_spec permutations n_inputs n_output n_outer
              n_inner (map Some ys) Hv) as [s [E [_ _ Ie Is]]].
  rewrite Hlen in *.
  exists s. split; [exact E|]. intros V e guarded.
  assert (Hraw : length (shapley_effects s) = n_inputs).
  { rewrite Ie. apply run_effects_length; [exact Hv|lia]. }
  assert (Hsq_len : length (shapley_effects_squared s) = n_inputs).
  { rewrite Is. apply run_squares_length; [exact Hv|lia]. }
  split; [split|].
  - intros [Hfe Hfs]. unfold e, normalize in Hfe, Hfs.
    cbn [effects effects_squared] in Hfe, Hfs.
    assert (Hsq : exists w, fmul V V = Some w /\ w <> 0%R).
    { destruct (shapley_effects_squared s) as [|y raw'] eqn:Eq;
        [simpl in Hsq_len; lia|].
      cbn [map] in Hfs.
      assert (Hy : finite (fdiv (fdiv y (of_nat n_perms)) (fmul V V)))
        by (now inversion Hfs).
      destruct Hy as [r Hr].
      apply fdiv_finite in Hr as (_ & w & _ & Hw & Hw0 & _).
      now exists w. }
    destruct (shapley_effects s) as [|x raw] eqn:Es; [simpl in Hraw; lia|].
    cbn [map] in Hfe.
    assert (Hx : finite (fdiv (fdiv x (of_nat n_perms)) V))
      by (now inversion Hfe).
    destruct Hx as [r Hr].
    apply fdiv_finite in Hr as (q & v & Hq & HV & Hv0 & _).
    apply fdiv_finite in Hq as (_ & m & _ & Hm & Hm0 & _).
    assert (Hp : 1 <= n_perms).
    { destruct n_perms; [|lia]. injection Hm as <-. now contradiction Hm0. }
    assert (Hio : 2 <= n_inner /\ 1 <= n_outer).
    { destruct (le_lt_dec 2 n_inner) as [Hi|Hi];
        [destruct (le_lt_dec 1 n_outer) as [Ho|Ho]; [now split|]|];
        exfalso.
      all: assert (Hd : pass_delta n_inputs n_outer n_inner V
                        (pass_start n_inputs n_output n_outer n_inner
                                    (map Some ys) 0) 0 = None)
          by (apply first_cost_none; lia).
      all: assert (Hb : nth 0 (nth 0 permutations []) 0 < n_inputs)
          by (destruct (@valid_nth permutations n_inputs Hv 0) as [Hl Hb];
              [lia|]; rewrite Forall_forall in Hb; apply Hb, nth_In; lia).
      all: pose proof (@first_delta_none permutations n_inputs n_output n_outer
                         n_inner (map Some ys) n_perms Hp
                         ltac:(lia) Hb Hd) as Hnone.
      all: rewrite <- Ie in Hnone.
      all: apply (map_nth_error
                    (fun e0 => fdiv (fdiv e0 (of_nat n_perms)) V)) in Hnone.
      all: apply nth_error_In in Hnone.
      all: rewrite Forall_forall in Hfe.
      all: apply Hfe in Hnone; now apply not_finite_none in Hnone. }
    destruct Hio as [Hi Ho]. unfold guarded.
    split; [exact Hi|]. split; [exact Ho|]. split; [exact Hp|].
    split; [now exists v|exact Hsq].
  - intros (Hi & Ho & Hp & (v & HV & Hv0) & _).
    destruct (@finite_run permutations n_perms n_inputs n_output n_outer n_inner
                ys Hrows (or_intror (conj Hi Ho)) Hlen Hperm v HV)
      as (s' & t & E' & (ra & rb & Ha & Hb & _) & _).
    rewrite E in E'. injection E' as <-.
    unfold e, normalize. cbn [effects effects_squared].
    fold V in HV. rewrite HV, Ha, Hb. cbn [fmul lift2]. split.
    + rewrite normalize_some by (auto; lia). apply Forall_finite_map_some.
    + rewrite normalize_some
        by (try lia; apply Rgt_not_eq; apply (Rsqr_pos_lt v Hv0)).
      apply Forall_finite_map_some.
  - intros (Hi & Ho & Hp & (v & HV & Hv0) & (w & HW & Hw0)).
    assert (Hout : 1 <= n_output).
    { destruct n_output; [|lia]. unfold V, variance_of_output in HV.
      simpl in HV. rewrite np_var_short in HV by (simpl; lia). discriminate. }
    repeat split; try (apply INR_pos_neq; lia).
    + intros v' H. fold V in HV. rewrite HV in H. now injection H as <-.
    + intros w' H. rewrite HW in H. now injection H as <-.
Qed.

(** ** The design builder (lines 100-125) *)

Lemma Forall_firstn_keep {A} (P : A -> Prop) (n : nat) (l : list A) :
  Forall P l -> Forall P (firstn n l).
Proof.
  intros H. revert n; induction H as [|x t Hx Ht IH]; intros [|n]; simpl;
    constructor; auto.
Qed.

Lemma Forall_skipn_keep {A} (P : A -> Prop) (n : nat) (l : list A) :
  Forall P l -> Forall P (skipn n l).
Proof.
  intros H. revert n; induction H as [|x t Hx Ht IH]; intros [|n]; simpl;
    try constructor; auto.
Qed.

Lemma forallb_width (cols : nat) (B : matrix) :
  Forall (fun r => length r = cols) B ->
  forallb (fun r => length r =? cols) B = true.
Proof.
  intros H. apply forallb_forall. rewrite Forall_forall in H.
  intros r Hr. apply Nat.eqb_eq. now apply H.
Qed.

Lemma broadcast_row_length (cols : nat) (r : list float) :
  length (broadcast_row cols r) = cols.
Proof.
  unfold broadcast_row. destruct (length r =? cols) eqn:E.
  - now apply Nat.eqb_eq.
  - apply repeat_length.
Qed.

Lemma broadcast_rows_id (cols : nat) (B : matrix) :
  Forall (fun r => length r = cols) B -> map (broadcast_row cols) B = B.
Proof.
  induction 1 as [|r t Hr Ht IH]; [reflexivity|].
  cbn [map]. rewrite IH. unfold broadcast_row.
  apply Nat.eqb_eq in Hr. now rewrite Hr.
Qed.

(** A value of the shape of the slice is written as it is. *)
Lemma assign_rows_ok (rows cols a k : nat) (B X : matrix) :
  shaped rows cols X -> shaped k cols B -> a + k <= rows ->
  assign_rows cols a k cols B X
  = Returned (firstn a X ++ B ++ skipn (a + k) X) /\
  shaped rows cols (firstn a X ++ B ++ skipn (a + k) X).
Proof.
  intros [HX HXw] [HB HBw] Hb. unfold assign_rows.
  rewrite !Nat.min_l by lia.
  replace (a + k - a) with k by lia.
  rewrite HB, !Nat.eqb_refl. cbn [orb andb].
  rewrite broadcast_rows_id by exact HBw.
  split; [reflexivity|]. split.
  - rewrite !length_app, length_firstn, length_skipn. lia.
  - apply Forall_app. split; [now apply Forall_firstn_keep|].
    apply Forall_app. split; [exact HBw|now apply Forall_skipn_keep].
Qed.

Lemma transpose_shaped (ncols : nat) (X : matrix) :
  shaped ncols (length X) (transpose ncols X).
Proof.
  unfold shaped, transpose. split.
  - now rewrite length_map, length_seq.
  - apply Forall_map, Forall_forall. intros i _.
    unfold column. now rewrite length_map.
Qed.

(** The transpose of a sample of [d] inputs and [n] draws. *)
Lemma np_T_shaped (d n : nat) (X : matrix) :
  shaped d n X ->
  np_T n X = Returned (transpose n X) /\ shaped n d (transpose n X).
Proof.
  intros [Hl Hw]. split.
  - destruct X as [|r t].
    + cbn [np_T]. f_equal. unfold transpose, column. cbn [map].
      generalize 0. induction n as [|n IH]; intros a; [reflexivity|].
      cbn [repeat seq map]. now rewrite <- IH.
    + cbn [np_T].
      assert (Hr : length r = n) by (now inversion Hw).
      rewrite Hr, forallb_width by exact Hw. reflexivity.
  - rewrite <- Hl. apply transpose_shaped.
Qed.

Lemma index_check_ok (w : nat) (idx : list nat) :
  Forall (fun i => i < w) idx -> index_check w idx = Returned tt.
Proof.
  intros H. unfold index_check.
  replace (forallb (fun i => i <? w) idx) with true; [reflexivity|].
  symmetry. apply forallb_forall. rewrite Forall_forall in H.
  intros i Hi. apply Nat.ltb_lt. now apply H.
Qed.

Lemma np_zeros2_shaped (rows cols : nat) :
  np_zeros2 (Z.of_nat rows) cols
  = Returned (repeat (repeat (Some 0%R) cols) rows) /\
  shaped rows cols (repeat (repeat (Some 0%R) cols) rows).
Proof.
  unfold np_zeros2.
  destruct (Z.of_nat rows <? 0)%Z eqn:E; [apply Z.ltb_lt in E; lia|].
  rewrite Nat2Z.id. split; [reflexivity|]. split.
  - apply repeat_length.
  - apply Forall_forall. intros r Hr. apply repeat_spec in Hr. subst.
    apply repeat_length.
Qed.

(** A slice assignment that succeeds keeps the shape of the array. *)
Lemma assign_rows_shape (rows cols a k w : nat) (B X X' : matrix) :
  shaped rows cols X -> assign_rows cols a k w B X = Returned X' ->
  shaped rows cols X'.
Proof.
  intros [HX HXw]. unfold assign_rows.
  set (lo := Nat.min a (length X)). set (hi := Nat.min (a + k) (length X)).
  assert (Hlo : lo <= hi) by (unfold lo, hi; lia).
  assert (Hhi : hi <= length X) by (unfold hi; lia).
  destruct (_ && _); [|discriminate].
  intros [= <-].
  set (rs := if length B =? hi - lo then B else repeat (hd [] B) (hi - lo)).
  assert (Hrs : length rs = hi - lo).
  { unfold rs. destruct (length B =? hi - lo) eqn:E1.
    - now apply Nat.eqb_eq.
    - apply repeat_length. }
  split.
  - rewrite !length_app, length_firstn, length_map, length_skipn. lia.
  - apply Forall_app. split; [now apply Forall_firstn_keep|].
    apply Forall_app. split; [|now apply Forall_skipn_keep].
    apply Forall_map, Forall_forall. intros r _.
    apply broadcast_row_length.
Qed.

Section BuilderLoops.
Variable G : Type.

Lemma for_eachM_inv {A St} (I : St -> Prop) (l : list A)
  (body : A -> St -> M G St) (s : St) (g : G) :
I s ->
(forall x s g, In x l -> I s ->
   exists s' g', body x s g = Returned (s', g') /\ I s') ->
exists s' g', for_eachM l body s g = Returned (s', g') /\ I s'.
Proof.
revert s g; induction l as [|x t IH]; intros s g Hs Hstep.
- exists s, g. now split.
- destruct (Hstep x s g) as (s1 & g1 & E1 & I1); [now left|exact Hs|].
  destruct (IH s1 g1 I1) as (s2 & g2 & E2 & I2).
  { intros y s' g' Hy. apply Hstep. now right. }
  exists s2, g2. split; [|exact I2].
  cbn [for_eachM]. unfold bind. now rewrite E1.
Qed.

Lemma for_eachM_preserves {A St} (I : St -> Prop) (l : list A)
(body : A -> St -> M G St) :
(forall x s g s' g', body x s g = Returned (s', g') -> I s -> I s') ->
forall s g s' g',
for_eachM l body s g = Returned (s', g') -> I s -> I s'.
Proof.
intros Hstep. induction l as [|x t IH]; intros s g s' g'.
- cbn [for_eachM]. unfold ret. now intros [= <- <-].
- cbn [for_eachM]. unfold bind.
destruct (body x s g) as [[s1 g1]|e] eqn:E; [|discriminate].
intros Ht Hs. apply (IH s1 g1 s' g' Ht). now apply (Hstep x s g s1 g1).
Qed.

Lemma for_eachM_app {A St} (l1 l2 : list A) (body : A -> St -> M G St)
  (s : St) (g : G) :
for_eachM (l1 ++ l2) body s g
= match for_eachM l1 body s g with
  | Returned (s', g') => for_eachM l2 body s' g'
  | Raised e => Raised e
  end.
Proof.
revert s g; induction l1 as [|x t IH]; intros s g; [reflexivity|].
cbn [app for_eachM]. unfold bind.
destruct (body x s g) as [[s1 g1]|e]; [apply IH|reflexivity].
Qed.

Lemma mapM_app {A B} (f : A -> M G B) (l1 l2 : list A) (g : G) :
mapM f (l1 ++ l2) g
= match mapM f l1 g with
  | Returned (ys1, g1) =>
      match mapM f l2 g1 with
      | Returned (ys2, g2) => Returned (ys1 ++ ys2, g2)
      | Raised e => Raised e
      end
  | Raised e => Raised e
  end.
Proof.
revert g; induction l1 as [|x t IH]; intros g.
- cbn [app mapM]. unfold ret. now destruct (mapM f l2 g) as [[ys g2]|e].
- cbn [app mapM]. unfold bind.
  destruct (f x g) as [[y g1]|e]; [|reflexivity].
  rewrite IH. destruct (mapM f t g1) as [[ys1 g2]|e]; [|reflexivity].
  unfold ret. now destruct (mapM f l2 g2) as [[ys2 g3]|e].
Qed.
End BuilderLoops.

(** *** Segments written one after the other *)

Lemma concat_uniform_length {A} (m : nat) (ls : list (list A)) :
  Forall (fun x => length x = m) ls -> length (concat ls) = length ls * m.
Proof.
  induction 1 as [|x t Hx Ht IH]; [reflexivity|].
  cbn [concat length]. rewrite length_app, IH, Hx. lia.
Qed.

Lemma Forall_map_seq {A} (P : A -> Prop) (f : nat -> A) (n : nat) :
  (forall k, k < n -> P (f k)) -> Forall P (map f (seq 0 n)).
Proof.
  intros H. apply Forall_map, Forall_forall. intros k Hk.
  apply in_seq in Hk. apply H. lia.
Qed.

(** What lies at an offset within the [k]-th of equally long segments. *)
Lemma segment_of_concat {A} (m a r : nat) (ls : list (list A)) (k : nat) :
  Forall (fun x => length x = m) ls -> k < length ls -> r + a <= m ->
  firstn a (skipn (k * m + r) (concat ls))
  = firstn a (skipn r (nth k ls [])).
Proof.
  intros H. revert k; induction H as [|x t Hx Ht IH]; intros k Hk Hr.
  - cbn in Hk. lia.
  - cbn [concat]. destruct k as [|k].
    + cbn [Nat.mul Nat.add nth].
      rewrite skipn_app. replace (r - length x) with 0 by lia.
      cbn [skipn]. rewrite firstn_app, length_skipn.
      replace (a - (length x - r)) with 0 by lia.
      cbn [firstn]. apply app_nil_r.
    + cbn [nth]. rewrite skipn_app.
      rewrite skipn_all2 by (cbn; lia). cbn [app].
      replace (S k * m + r - length x) with (k * m + r) by (cbn; lia).
      apply IH; [cbn in Hk; lia|exact Hr].
Qed.

Lemma nth_map_seq {A} (f : nat -> A) (n k : nat) (d : A) :
  k < n -> nth k (map f (seq 0 n)) d = f k.
Proof.
  intros Hk. rewrite (nth_indep _ d (f 0)) by (rewrite length_map, length_seq; lia).
  rewrite map_nth, seq_nth by lia. reflexivity.
Qed.

Section Segments.
Variable G : Type.
Variable B : Type.
Variable dflt : B.
Variables rows cols m o : nat.
Variable F : nat -> B -> matrix.
Variable P : nat -> B -> Prop.
Variable body : nat -> matrix -> M G matrix.
Variable draw : nat -> M G B.
Variable a : nat.

(** A loop whose [k]-th pass draws [b] and writes the [m] rows [F k b] at
  row [o + k * m] writes the rows of its passes one after the other, and
  draws what [mapM draw] draws. *)
Lemma for_eachM_segments (n : nat) (d0 : matrix) (g : G) :
shaped rows cols d0 -> o + n * m <= rows ->
(forall k d g, k < n -> shaped rows cols d ->
   exists b d' g',
     draw (a + k) g = Returned (b, g') /\
     body (a + k) d g = Returned (d', g') /\
     P k b /\ shaped m cols (F k b) /\
     d' = firstn (o + k * m) d ++ F k b ++ skipn (o + k * m + m) d) ->
exists bs d' g',
  mapM draw (seq a n) g = Returned (bs, g') /\
  for_eachM (seq a n) body d0 g = Returned (d', g') /\
  length bs = n /\
  (forall k, k < n -> P k (nth k bs dflt)) /\
  (forall k, k < n -> shaped m cols (F k (nth k bs dflt))) /\
  shaped rows cols d' /\
  d' = firstn o d0
       ++ concat (map (fun k => F k (nth k bs dflt)) (seq 0 n))
       ++ skipn (o + n * m) d0.
Proof.
intros Hd0 Hb Hstep. induction n as [|n IH].
- exists [], d0, g. cbn [seq mapM for_eachM map concat length Nat.mul app].
  unfold ret.
  split; [reflexivity|]. split; [reflexivity|]. split; [reflexivity|].
  split; [intros k Hk; lia|]. split; [intros k Hk; lia|].
  split; [exact Hd0|].
  replace (o + 0) with o by lia. symmetry. apply firstn_skipn.
- destruct IH as (bs & d1 & g1 & Em & Ef & Hlen & HP & HF & Hd1 & Eq);
    [lia|intros; apply Hstep; auto|].
  destruct (Hstep n d1 g1) as (b & d2 & g2 & Eb & Ed & Pb & Fb & Eq2);
    [lia|exact Hd1|].
  exists (bs ++ [b]), d2, g2.
  assert (Hnth : forall k, k < n -> nth k (bs ++ [b]) dflt = nth k bs dflt)
    by (intros k Hk; apply app_nth1; lia).
  assert (Hlast : nth n (bs ++ [b]) dflt = b)
    by (rewrite app_nth2 by lia; now rewrite Hlen, Nat.sub_diag).
  assert (HC : length (concat (map (fun k => F k (nth k bs dflt))
                                   (seq 0 n))) = n * m).
  { rewrite (@concat_uniform_length _ m).
    - now rewrite length_map, length_seq.
    - apply Forall_map_seq. intros k Hk. apply (HF k Hk). }
  destruct Hd0 as [Hl0 Hw0].
  split; [|split; [|split; [|split; [|split; [|split]]]]].
  + rewrite seq_S, mapM_app, Em. cbn [mapM]. unfold bind, ret.
    now rewrite Eb.
  + rewrite seq_S, for_eachM_app, Ef. cbn [for_eachM]. unfold bind, ret.
    now rewrite Ed.
  + rewrite length_app, Hlen. cbn. lia.
  + intros k Hk. destruct (Nat.eq_dec k n) as [->|Hne].
    * now rewrite Hlast.
    * rewrite Hnth by lia. apply HP. lia.
  + intros k Hk. destruct (Nat.eq_dec k n) as [->|Hne].
    * now rewrite Hlast.
    * rewrite Hnth by lia. apply HF. lia.
  + rewrite Eq2. destruct Hd1 as [Hl1 Hw1]. destruct Fb as [Fl Fw]. split.
    * rewrite !length_app, length_firstn, length_skipn. lia.
    * apply Forall_app. split; [now apply Forall_firstn_keep|].
      apply Forall_app. split; [exact Fw|now apply Forall_skipn_keep].
  + rewrite Eq2, Eq.
    assert (Ho : length (firstn o d0) = o) by (rewrite length_firstn; lia).
    rewrite (app_assoc (firstn o d0)).
    rewrite firstn_app, firstn_all2
      by (rewrite length_app, Ho, HC; lia).
    rewrite length_app, Ho, HC.
    replace (o + n * m - (o + n * m)) with 0 by lia.
    cbn [firstn]. rewrite app_nil_r.
    rewrite skipn_app, (@skipn_all2 _ (o + n * m + m))
      by (rewrite length_app, Ho, HC; lia).
    rewrite length_app, Ho, HC. cbn [app].
    replace (o + n * m + m - (o + n * m)) with m by lia.
    rewrite skipn_add.
    replace (o + n * m + m) with (o + S n * m) by lia.
    rewrite seq_S, map_app, concat_app. cbn [map concat Nat.add].
    rewrite app_nil_r, Hlast.
    rewrite (map_ext_in (fun k => F k (nth k (bs ++ [b]) dflt))
                        (fun k => F k (nth k bs dflt)))
      by (intros k Hk; apply in_seq in Hk; rewrite Hnth by lia;
          reflexivity).
    now rewrite <- !app_assoc.
Qed.
End Segments.

(** *** The builder, loop by loop *)

Lemma block_rows_shaped (perms : list nat) (n_inputs n_outer n_inner : nat)
    (Xout : matrix) (l : nat) (Xin : matrix) :
  length perms = n_inputs ->
  shaped n_inner n_inputs (block_rows perms n_outer n_inner Xout l Xin).
Proof.
  intros Hp. unfold block_rows. split.
  - rewrite length_map. apply transpose_shaped.
  - apply Forall_map, Forall_forall. intros r _.
    now rewrite length_map, np_argsort_length.
Qed.

Lemma argsort_in_range (perms : list nat) (n : nat) :
  Permutation perms (seq 0 n) -> Forall (fun i => i < n) (np_argsort perms).
Proof.
  intros Hp.
  assert (Hlp : length perms = n)
    by (rewrite (Permutation_length Hp); apply length_seq).
  eapply Permutation_Forall; [symmetry; apply np_argsort_perm|].
  apply Forall_forall. intros i Hi. apply in_seq in Hi. lia.
Qed.

(** The rows lines 115-125 make of well-shaped samples. *)
Lemma block_of_samples_ok (perms : list nat)
    (n_inputs n_outer n_inner j l : nat) (Xout Xin : matrix) :
  Permutation perms (seq 0 n_inputs) -> 1 <= j < n_inputs -> l < n_outer ->
  shaped (n_inputs - j) n_outer Xout -> shaped j n_inner Xin ->
  block_of_samples perms n_outer n_inner Xout l Xin
  = Returned (block_rows perms n_outer n_inner Xout l Xin).
Proof.
  intros Hp Hj Hl Ho Hi. unfold block_of_samples.
  destruct (np_T_shaped Ho) as [Eo [Hol How]].
  destruct (np_T_shaped Hi) as [Ei [Hil Hiw]].
  rewrite Eo. cbn [obind].
  rewrite (getitem_ok [] (transpose n_outer Xout)) by lia. cbn [obind].
  rewrite Ei. cbn [obind].
  rewrite (@inner_block_rows perms n_inputs j n_inner (transpose n_inner Xin)
             (nth l (transpose n_outer Xout) []) Hp Hil Hiw).
  - reflexivity.
  - rewrite Forall_forall in How.
    rewrite (How (nth l (transpose n_outer Xout) [])) by (apply nth_In; lia).
    lia.
Qed.

Section Builder.
Variable G : Type.
Variable Xall : nat -> M G matrix.
Variable Xcond :
nat -> list nat -> option (list nat) -> option (list float) -> M G matrix.
Variable permutations : list (list nat).
Variables n_perms n_inputs n_output n_outer n_inner : nat.

(** The samplers return one row per requested input and one column per
  requested draw. *)
Hypothesis HXall : forall n g,
exists X g', Xall n g = Returned (X, g') /\ shaped n_inputs n X.
Hypothesis HXcond : forall n S Sc x g,
exists X g', Xcond n S Sc x g = Returned (X, g') /\ shaped (length S) n X.

Local Abbreviation rows :=
(n_output + n_perms * (n_inputs - 1) * n_outer * n_inner).
Local Abbreviation off := (inner_indices n_inputs n_output n_outer n_inner).

Lemma build_block_sim (perms : list nat) (p j l : nat) (Xout : matrix)
  (design : matrix) (g : G) :
Permutation perms (seq 0 n_inputs) ->
in_range n_perms n_inputs n_outer p j l ->
shaped (n_inputs - j) n_outer Xout ->
shaped rows n_inputs design ->
exists Xin design' g',
  sample_inner Xcond n_inner (slice_to j perms) (slice_from j perms)
               (transpose n_outer Xout) l g
  = Returned (Xin, g') /\
  build_block Xcond n_inputs n_output n_outer n_inner p j
              (np_argsort perms) (slice_to j perms) (slice_from j perms)
              (transpose n_outer Xout) l design g
  = Returned (design', g') /\
  shaped j n_inner Xin /\
  shaped n_inner n_inputs (block_rows perms n_outer n_inner Xout l Xin) /\
  design' = firstn (off p j 0 + l * n_inner) design
            ++ block_rows perms n_outer n_inner Xout l Xin
            ++ skipn (off p j 0 + l * n_inner + n_inner) design.
Proof.
intros Hp Hr Ho Hs.
pose proof Hr as (Hpr & Hj & Hl).
assert (Hlp : length perms = n_inputs)
  by (rewrite (Permutation_length Hp); apply length_seq).
destruct (np_T_shaped Ho) as [_ [Hol How]].
unfold sample_inner, build_block, bind, lift.
rewrite (getitem_ok [] (transpose n_outer Xout)) by lia.
set (xjc := nth l (transpose n_outer Xout) []).
assert (Hxjc : length xjc = n_inputs - j).
{ rewrite Forall_forall in How. apply How, nth_In. lia. }
destruct (HXcond n_inner (slice_to j perms) (Some (slice_from j perms))
                 (Some xjc) g) as (Xin & g' & EX & HX).
rewrite EX.
assert (Hsj : length (slice_to j perms) = j)
  by (unfold slice_to; rewrite length_firstn; lia).
rewrite Hsj in HX.
destruct (np_T_shaped HX) as [Ei [Hil Hiw]]. rewrite Ei.
rewrite (@inner_block_rows perms n_inputs j n_inner (transpose n_inner Xin)
           xjc Hp Hil Hiw) by lia.
destruct HX as [HXl HXw].
rewrite index_check_ok
  by (rewrite HXl, Hxjc; replace (j + (n_inputs - j)) with n_inputs by lia;
      now apply argsort_in_range).
pose proof (@block_rows_shaped perms n_inputs n_outer n_inner Xout l Xin
              Hlp) as Hb.
pose proof (@block_in_bounds n_perms n_inputs n_output n_outer n_inner
              p j l Hr) as [Hlo Hhi].
assert (Eoff : off p j l = off p j 0 + l * n_inner)
  by (unfold inner_indices; lia).
rewrite np_argsort_length, Hlp.
destruct (@assign_rows_ok rows n_inputs (off p j l) n_inner
            (block_rows perms n_outer n_inner Xout l Xin) design Hs Hb Hhi)
  as [Ea _].
unfold block_rows in Ea at 1. fold xjc in Ea. rewrite Ea.
exists Xin. eexists. exists g'.
split; [reflexivity|]. split; [reflexivity|].
split; [now split|]. split; [exact Hb|].
now rewrite Eoff.
Qed.

Lemma concat_shaped (m cols n : nat) (f : nat -> matrix) :
(forall k, k < n -> shaped m cols (f k)) ->
shaped (n * m) cols (concat (map f (seq 0 n))).
Proof.
intros H. split.
- rewrite (@concat_uniform_length _ m).
  + now rewrite length_map, length_seq.
  + apply Forall_map_seq. intros k Hk. apply (H k Hk).
- apply Forall_concat. apply Forall_map_seq. intros k Hk. apply (H k Hk).
Qed.

Lemma split_in_bounds (p j : nat) :
p < n_perms -> 1 <= j < n_inputs ->
off p j 0 + n_outer * n_inner <= rows.
Proof.
intros Hp Hj. unfold inner_indices.
assert (H1 : p * (n_inputs - 1) + j <= n_perms * (n_inputs - 1)) by nia.
assert (H2 : (p * (n_inputs - 1) + j) * (n_outer * n_inner)
             <= n_perms * (n_inputs - 1) * (n_outer * n_inner))
  by (apply Nat.mul_le_mono_r; exact H1).
nia.
Qed.

Lemma build_split_sim (perms : list nat) (p j : nat)
  (design : matrix) (g : G) :
Permutation perms (seq 0 n_inputs) ->
p < n_perms -> 1 <= j < n_inputs ->
shaped rows n_inputs design ->
exists b design' g',
  sample_split Xcond n_outer n_inner perms j g = Returned (b, g') /\
  build_split Xcond n_inputs n_output n_outer n_inner p perms
              (np_argsort perms) j design g
  = Returned (design', g') /\
  split_shaped n_inputs n_outer n_inner j b /\
  shaped (n_outer * n_inner) n_inputs
         (split_rows perms n_outer n_inner b) /\
  shaped rows n_inputs design' /\
  design' = firstn (off p j 0) design
            ++ split_rows perms n_outer n_inner b
            ++ skipn (off p j 0 + n_outer * n_inner) design.
Proof.
intros Hp Hpr Hj Hs.
assert (Hlp : length perms = n_inputs)
  by (rewrite (Permutation_length Hp); apply length_seq).
unfold sample_split, build_split, bind.
destruct (HXcond n_outer (slice_from j perms) None None g)
  as (Xout & g1 & EX & HX).
rewrite EX.
assert (Hsj : length (slice_from j perms) = n_inputs - j)
  by (unfold slice_from; rewrite length_skipn; lia).
rewrite Hsj in HX.
destruct (np_T_shaped HX) as [Eo _]. unfold lift. rewrite Eo.
destruct (@for_eachM_segments G matrix [] rows n_inputs n_inner
            (off p j 0)
            (fun l Xin => block_rows perms n_outer n_inner Xout l Xin)
            (fun l Xin => shaped j n_inner Xin)
            (build_block Xcond n_inputs n_output n_outer n_inner p j
               (np_argsort perms) (slice_to j perms) (slice_from j perms)
               (transpose n_outer Xout))
            (sample_inner Xcond n_inner (slice_to j perms)
               (slice_from j perms) (transpose n_outer Xout))
            0 n_outer design g1 Hs)
  as (bs & d' & g' & Em & Ef & Hlen & HP & HF & Hd' & Eq).
- now apply split_in_bounds.
- intros l d g2 Hl Hd. cbn [Nat.add].
  apply build_block_sim; auto. unfold in_range. lia.
- rewrite range_0, Em, Ef. unfold ret.
  exists (Xout, bs), d', g'.
  split; [reflexivity|]. split; [reflexivity|].
  split; [split; [exact HX|split; [exact Hlen|exact HP]]|].
  split; [|split; [exact Hd'|exact Eq]].
  unfold split_rows. cbn [fst snd]. apply concat_shaped. exact HF.
Qed.

Hypothesis Hlen : length permutations = n_perms.
Hypothesis Hperm :
Forall (fun perms => Permutation perms (seq 0 n_inputs)) permutations.

Lemma build_perm_sim (p : nat) (design : matrix) (g : G) :
p < n_perms ->
shaped rows n_inputs design ->
exists tp design' g',
  sample_perm Xcond permutations n_inputs n_outer n_inner p g
  = Returned (tp, g') /\
  build_perm Xcond permutations n_inputs n_output n_outer n_inner
             p design g
  = Returned (design', g') /\
  (length tp = n_inputs - 1 /\
   forall t, t < n_inputs - 1 ->
     split_shaped n_inputs n_outer n_inner (1 + t) (nth t tp ([], []))) /\
  shaped ((n_inputs - 1) * (n_outer * n_inner)) n_inputs
         (perm_rows (nth p permutations []) n_inputs n_outer n_inner tp) /\
  shaped rows n_inputs design' /\
  design' = firstn (n_output + p * ((n_inputs - 1) * (n_outer * n_inner)))
                   design
            ++ perm_rows (nth p permutations []) n_inputs n_outer n_inner
                         tp
            ++ skipn (n_output + p * ((n_inputs - 1) * (n_outer * n_inner))
                      + (n_inputs - 1) * (n_outer * n_inner))
                     design.
Proof.
intros Hp Hs. unfold sample_perm, build_perm, bind, lift.
rewrite (getitem_ok [] permutations) by lia.
set (perms := nth p permutations []).
assert (Hpp : Permutation perms (seq 0 n_inputs)).
{ rewrite Forall_forall in Hperm. apply Hperm, nth_In. lia. }
assert (Eo : off p 1 0
             = n_output + p * ((n_inputs - 1) * (n_outer * n_inner)))
  by (unfold inner_indices; nia).
destruct (@for_eachM_segments G (matrix * list matrix) ([], []) rows
            n_inputs (n_outer * n_inner) (off p 1 0)
            (fun t b => split_rows perms n_outer n_inner b)
            (fun t b => split_shaped n_inputs n_outer n_inner (1 + t) b)
            (build_split Xcond n_inputs n_output n_outer n_inner p perms
               (np_argsort perms))
            (sample_split Xcond n_outer n_inner perms)
            1 (n_inputs - 1) design g Hs)
  as (tp & d' & g' & Em & Ef & Hl & HP & HF & Hd' & Eq).
- rewrite Eo.
  assert (H1 : S p * ((n_inputs - 1) * (n_outer * n_inner))
               <= n_perms * ((n_inputs - 1) * (n_outer * n_inner)))
    by (apply Nat.mul_le_mono_r; lia).
  nia.
- intros t d g2 Ht Hd.
  destruct (@build_split_sim perms p (1 + t) d g2 Hpp Hp)
    as (b & d2 & g3 & E1 & E2 & Sb & Sr & Sd & Eq2); [lia|exact Hd|].
  exists b, d2, g3.
  split; [exact E1|]. split; [exact E2|]. split; [exact Sb|].
  split; [exact Sr|].
  rewrite Eq2. f_equal; [|f_equal]; f_equal; unfold inner_indices; nia.
- unfold range. rewrite Em, Ef.
  exists tp, d', g'.
  split; [reflexivity|]. split; [reflexivity|].
  split; [split; [exact Hl|exact HP]|].
  split; [|split; [exact Hd'|]].
  + unfold perm_rows. apply concat_shaped. exact HF.
  + rewrite Eq, Eo. reflexivity.
Qed.

(** The design is the unconditional sample followed by the rows made of
  the draws, in the order of the loops. *)
Lemma build_design_samples (g : G) :
1 <= n_inputs ->
exists X g1 tr design g',
  Xall n_output g = Returned (X, g1) /\
  shaped n_inputs n_output X /\
  samples Xcond permutations n_perms n_inputs n_outer n_inner g1
  = Returned (tr, g') /\
  build_design Xall Xcond permutations n_perms n_inputs n_output n_outer
               n_inner g
  = Returned (design, g') /\
  length tr = n_perms /\
  (forall p, p < n_perms ->
     length (nth p tr []) = n_inputs - 1 /\
     forall t, t < n_inputs - 1 ->
       split_shaped n_inputs n_outer n_inner (1 + t)
                    (nth t (nth p tr []) ([], []))) /\
  design = transpose n_output X
           ++ conditional_rows permutations n_perms n_inputs n_outer
                               n_inner tr.
Proof.
intros Hn. unfold samples, build_design, bind, lift.
rewrite design_rows_nat by exact Hn.
destruct (np_zeros2_shaped rows n_inputs) as [Ez Sz]. rewrite Ez.
destruct (HXall n_output g) as (X & g1 & EX & HX). rewrite EX.
destruct (np_T_shaped HX) as [Et St]. rewrite Et.
destruct HX as [HXl HXw]. rewrite HXl.
destruct (@assign_rows_ok rows n_inputs 0 n_output (transpose n_output X)
            _ Sz St) as [Ea Sa]; [apply Nat.le_add_r|].
rewrite Ea. cbn [firstn app Nat.add] in *.
set (d1 := transpose n_output X
           ++ skipn n_output (repeat (repeat (Some 0%R) n_inputs) rows))
  in *.
destruct (@for_eachM_segments G (list (matrix * list matrix)) [] rows
            n_inputs ((n_inputs - 1) * (n_outer * n_inner)) n_output
            (fun p tp => perm_rows (nth p permutations []) n_inputs
                                   n_outer n_inner tp)
            (fun p tp =>
               length tp = n_inputs - 1 /\
               forall t, t < n_inputs - 1 ->
                 split_shaped n_inputs n_outer n_inner (1 + t)
                              (nth t tp ([], [])))
            (build_perm Xcond permutations n_inputs n_output n_outer
                        n_inner)
            (sample_perm Xcond permutations n_inputs n_outer n_inner)
            0 n_perms d1 g1 Sa)
  as (tr & d' & g' & Em & Ef & Hl & HP & HF & Hd' & Eq).
- nia.
- intros p d g2 Hp Hd. cbn [Nat.add].
  destruct (@build_perm_sim p d g2 Hp Hd)
    as (tp & d2 & g3 & E1 & E2 & Sb & Sr & Sd & Eq2).
  exists tp, d2, g3.
  split; [exact E1|]. split; [exact E2|]. split; [exact Sb|].
  split; [exact Sr|exact Eq2].
- exists X, g1, tr, d', g'. rewrite range_0.
  split; [reflexivity|]. split; [now split|].
  split; [exact Em|]. split; [exact Ef|].
  split; [exact Hl|]. split; [exact HP|].
  rewrite Eq. unfold conditional_rows.
  destruct St as [Stl _].
  assert (Hf : firstn n_output d1 = transpose n_output X).
  { unfold d1. rewrite firstn_app, Stl, Nat.sub_diag, firstn_O, app_nil_r.
    apply firstn_all2. lia. }
  rewrite Hf. f_equal.
  assert (Hd1 : length d1 = rows) by (apply Sa).
  rewrite skipn_all2 by (rewrite Hd1; nia). apply app_nil_r.
Qed.
End Builder.

(** *** Where the rows of a block lie *)

Section Lookup.
Variable permutations : list (list nat).
Variables n_perms n_inputs n_output n_outer n_inner : nat.
Variable tr : list (list (matrix * list matrix)).

Hypothesis Hlen : length permutations = n_perms.
Hypothesis Hperm :
Forall (fun perms => Permutation perms (seq 0 n_inputs)) permutations.

Lemma permutation_nth_length (p : nat) :
p < n_perms -> length (nth p permutations []) = n_inputs.
Proof.
intros Hp.
assert (Hpp : Permutation (nth p permutations []) (seq 0 n_inputs)).
{ rewrite Forall_forall in Hperm. apply Hperm, nth_In. lia. }
rewrite (Permutation_length Hpp). apply length_seq.
Qed.

Lemma split_rows_shaped (perms : list nat) (b : matrix * list matrix) :
length perms = n_inputs ->
shaped (n_outer * n_inner) n_inputs (split_rows perms n_outer n_inner b).
Proof.
intros Hp. unfold split_rows. apply concat_shaped.
intros l _. now apply block_rows_shaped.
Qed.

Lemma perm_rows_shaped (perms : list nat)
  (tp : list (matrix * list matrix)) :
length perms = n_inputs ->
shaped ((n_inputs - 1) * (n_outer * n_inner)) n_inputs
       (perm_rows perms n_inputs n_outer n_inner tp).
Proof.
intros Hp. unfold perm_rows. apply concat_shaped.
intros t _. now apply split_rows_shaped.
Qed.

Lemma conditional_rows_block (U : matrix) (p j l : nat) :
length U = n_output ->
in_range n_perms n_inputs n_outer p j l ->
firstn n_inner
  (skipn (inner_indices n_inputs n_output n_outer n_inner p j l)
         (U ++ conditional_rows permutations n_perms n_inputs n_outer
                                n_inner tr))
= block_rows (nth p permutations []) n_outer n_inner
             (outer_sample tr p j) l (inner_sample tr p j l).
Proof.
intros HU (Hp & Hj & Hl).
pose proof (permutation_nth_length Hp) as Hlp.
set (perms := nth p permutations []) in *.
set (M2 := n_outer * n_inner). set (M1 := (n_inputs - 1) * M2).
assert (Eoff : inner_indices n_inputs n_output n_outer n_inner p j l
               = n_output + (p * M1 + ((j - 1) * M2 + l * n_inner)))
  by (unfold inner_indices, M1, M2; nia).
rewrite Eoff, skipn_app, HU.
rewrite skipn_all2 by (rewrite HU; apply Nat.le_add_r). cbn [app].
rewrite Nat.add_comm, Nat.add_sub.
assert (Hin : l * n_inner + n_inner <= M2).
{ unfold M2. replace (l * n_inner + n_inner) with (S l * n_inner) by lia.
  apply Nat.mul_le_mono_r. lia. }
assert (Hsp : (j - 1) * M2 + l * n_inner + n_inner <= M1).
{ unfold M1.
  assert (S (j - 1) * M2 <= (n_inputs - 1) * M2)
    by (apply Nat.mul_le_mono_r; lia).
  lia. }
unfold conditional_rows.
rewrite (@segment_of_concat _ M1).
- rewrite nth_map_seq by exact Hp. fold perms.
  unfold perm_rows.
  rewrite (@segment_of_concat _ M2).
  + rewrite nth_map_seq by lia.
    unfold split_rows.
    replace (l * n_inner) with (l * n_inner + 0) by lia.
    rewrite (@segment_of_concat _ n_inner).
    * rewrite nth_map_seq by exact Hl. cbn [skipn].
      apply firstn_all2.
      destruct (@block_rows_shaped perms n_inputs n_outer n_inner
                  (fst (nth (j - 1) (nth p tr []) ([], []))) l
                  (nth l (snd (nth (j - 1) (nth p tr []) ([], []))) [])
                  Hlp) as [Hb _].
      unfold outer_sample, inner_sample. rewrite Hb. lia.
    * apply Forall_map_seq. intros k _.
      now apply block_rows_shaped with (n_inputs := n_inputs).
    * now rewrite length_map, length_seq.
    * lia.
  + apply Forall_map_seq. intros t _.
    now apply split_rows_shaped.
  + rewrite length_map, length_seq. lia.
  + fold M2. lia.
- apply Forall_map_seq. intros q Hq.
  apply perm_rows_shaped. now apply permutation_nth_length.
- now rewrite length_map, length_seq.
- exact Hsp.
Qed.
End Lookup.

(** With well-shaped samples the builder returns, and the unconditional
    sample is in the first [n_output] rows. *)
Lemma build_design_ok
    (G : Type) (Xall : nat -> M G matrix)
    (Xcond : nat -> list nat -> option (list nat) -> option (list float)
             -> M G matrix)
    (permutations : list (list nat))
    (n_perms n_inputs n_output n_outer n_inner : nat) (g : G) :
  (forall n g, exists X g', Xall n g = Returned (X, g') /\
                            shaped n_inputs n X) ->
  (forall n S Sc x g,
     exists X g', Xcond n S Sc x g = Returned (X, g') /\
                  shaped (length S) n X) ->
  length permutations = n_perms ->
  Forall (fun perms => Permutation perms (seq 0 n_inputs)) permutations ->
  1 <= n_inputs ->
  exists X g1 design g',
    Xall n_output g = Returned (X, g1) /\
    build_design Xall Xcond permutations n_perms n_inputs n_output n_outer
                 n_inner g
    = Returned (design, g') /\
    firstn n_output design = transpose n_output X.
Proof.
  intros HXall HXcond Hlen Hperm Hn.
  destruct (@build_design_samples G Xall Xcond permutations n_perms n_inputs
              n_output n_outer n_inner HXall HXcond Hlen Hperm g Hn)
    as (X & g1 & tr & design & g' & EX & HX & _ & E & _ & _ & Eq).
  exists X, g1, design, g'. split; [exact EX|]. split; [exact E|].
  destruct (transpose_shaped n_output X) as [Hl _].
  rewrite Eq, firstn_app, Hl, Nat.sub_diag, firstn_O, app_nil_r.
  apply firstn_all2. lia.
Qed.

Lemma for_eachM_id {G A St} (l : list A) (body : A -> St -> M G St)
    (s : St) (g : G) :
  (forall x s g, In x l -> body x s g = Returned (s, g)) ->
  for_eachM l body s g = Returned (s, g).
Proof.
  intros H. induction l as [|x t IH]; [reflexivity|].
  cbn [for_eachM]. unfold bind. rewrite H by now left.
  apply IH. intros y s' g' Hy. apply H. now right.
Qed.

(** Whenever the builder returns, its result has the shape of line 101,
    whatever the collaborators do. *)
Lemma build_design_shape
    (G : Type) (Xall : nat -> M G matrix)
    (Xcond : nat -> list nat -> option (list nat) -> option (list float)
             -> M G matrix)
    (permutations : list (list nat))
    (n_perms n_inputs n_output n_outer n_inner : nat)
    (g g' : G) (design : matrix) :
  build_design Xall Xcond permutations n_perms n_inputs n_output n_outer
               n_inner g = Returned (design, g') ->
  Z.of_nat (length design)
  = design_rows n_perms n_inputs n_output n_outer n_inner /\
  Forall (fun row => length row = n_inputs) design.
Proof.
  unfold build_design, bind, lift.
  destruct (np_zeros2 _ n_inputs) as [Z0|e] eqn:Ez; [|discriminate].
  unfold np_zeros2 in Ez.
  destruct (design_rows n_perms n_inputs n_output n_outer n_inner <? 0)%Z
    eqn:Eneg; [discriminate|].
  apply Z.ltb_ge in Eneg. injection Ez as <-.
  set (rows := Z.to_nat (design_rows n_perms n_inputs n_output n_outer
                                     n_inner)).
  assert (S0 : shaped rows n_inputs
                 (repeat (repeat (Some 0%R) n_inputs) rows)).
  { split; [apply repeat_length|].
    apply Forall_forall. intros r Hr. apply repeat_spec in Hr. subst r.
    apply repeat_length. }
  destruct (Xall n_output g) as [[X g1]|e]; [|discriminate].
  destruct (np_T n_output X) as [XT|e]; [|discriminate].
  destruct (assign_rows n_inputs 0 n_output _ _ _) as [D1|e] eqn:Ea;
    [|discriminate].
  pose proof (@assign_rows_shape _ _ _ _ _ _ _ _ S0 Ea) as S1.
  intros E.
  assert (Sd : shaped rows n_inputs design).
  { refine (@for_eachM_preserves G nat matrix (shaped rows n_inputs) _ _ _
              D1 g1 design g' E S1).
    intros p d g2 d' g2'. unfold build_perm, bind, lift.
    destruct (getitem permutations p) as [perms|e]; [|discriminate].
    apply for_eachM_preserves.
    intros j d3 g3 d3' g3'. unfold build_split, bind, lift.
    destruct (Xcond n_outer _ None None g3) as [[Xs g4]|e]; [|discriminate].
    destruct (np_T n_outer Xs) as [XsT|e]; [|discriminate].
    apply for_eachM_preserves.
    intros l d5 g5 d5' g5'. unfold build_block, bind, lift.
    destruct (getitem _ l) as [xjc|e]; [|discriminate].
    destruct (Xcond n_inner _ _ _ g5) as [[Xi g6]|e]; [|discriminate].
    destruct (np_T n_inner Xi) as [XiT|e]; [|discriminate].
    destruct (inner_block _ _ _ _) as [block|e]; [|discriminate].
    destruct (index_check _ _) as [u|e]; [|discriminate].
    destruct (assign_rows _ _ _ _ _ d5) as [D|e] eqn:Eb; [|discriminate].
    intros [= <- <-] Hs. exact (@assign_rows_shape _ _ _ _ _ _ _ _ Hs Eb). }
  destruct Sd as [Hl Hw]. split; [|exact Hw].
  rewrite Hl. unfold rows. now rewrite Z2Nat.id.
Qed.

(** Claim C4.  Layout of the design matrix.  Whenever the design builder
    returns, its matrix has [design_rows] rows and [n_inputs] columns.  With
    samplers that return arrays of one row per requested input and one
    column per requested draw, valid permutations and [n_inputs >= 1], it
    does return; the first [n_output] rows are the transposed unconditional
    sample; and for every triple [(p, j, l)] the [n_inner] rows that start
    at row [n_output + p*(n_inputs-1)*n_outer*n_inner
    + (j-1)*n_outer*n_inner + l*n_inner] are the block that lines 115-123
    make of the outer sample of split [j] of permutation [p] and of the
    inner sample of its [l]-th draw, these samples being what the
    conditional sampler returns when it is called in the order of the loops
    from the state the unconditional sampler left.  The block of
    [(p, j, l)] lies at or after row [n_output] and ends within the matrix;
    the row ranges of two triples only meet when the triples are equal; and
    for [n_inputs = 1] the matrix has exactly [n_output] rows, there is no
    split to iterate over and, the unconditional sample being well shaped,
    the design is the unconditional block. *)
Theorem design_matrix_layout
    (G : Type) (Xall : nat -> M G matrix)
    (Xcond : nat -> list nat -> option (list nat) -> option (list float)
             -> M G matrix)
    (permutations : list (list nat))
    (n_perms n_inputs n_output n_outer n_inner : nat) :
  (forall g design g',
     build_design Xall Xcond permutations n_perms n_inputs n_output n_outer
                  n_inner g = Returned (design, g') ->
     Z.of_nat (length design)
     = design_rows n_perms n_inputs n_output n_outer n_inner /\
     Forall (fun row => length row = n_inputs) design) /\
  ((forall n g, exists X g', Xall n g = Returned (X, g') /\
                             shaped n_inputs n X) ->
   (forall n S Sc x g,
      exists X g', Xcond n S Sc x g = Returned (X, g') /\
                   shaped (length S) n X) ->
   length permutations = n_perms ->
   Forall (fun perms => Permutation perms (seq 0 n_inputs)) permutations ->
   1 <= n_inputs ->
   forall g,
     exists X g1 tr design g',
       Xall n_output g = Returned (X, g1) /\
       samples Xcond permutations n_perms n_inputs n_outer n_inner g1
       = Returned (tr, g') /\
       build_design Xall Xcond permutations n_perms n_inputs n_output n_outer
                    n_inner g = Returned (design, g') /\
       firstn n_output design = transpose n_output X /\
       forall p j l,
         in_range n_perms n_inputs n_outer p j l ->
         block_of_samples (nth p permutations []) n_outer n_inner
                          (outer_sample tr p j) l (inner_sample tr p j l)
         = Returned
             (firstn n_inner
                (skipn (n_output + p * (n_inputs - 1) * n_outer * n_inner
                        + (j - 1) * n_outer * n_inner + l * n_inner)
                       design))) /\
  (forall p j l,
     in_range n_perms n_inputs n_outer p j l ->
     n_output <= inner_indices n_inputs n_output n_outer n_inner p j l /\
     (Z.of_nat (inner_indices n_inputs n_output n_outer n_inner p j l + n_inner)
      <= design_rows n_perms n_inputs n_output n_outer n_inner)%Z) /\
  (forall p j l p' j' l' r,
     in_range n_perms n_inputs n_outer p j l ->
     in_range n_perms n_inputs n_outer p' j' l' ->
     inner_indices n_inputs n_output n_outer n_inner p j l <= r
     < inner_indices n_inputs n_output n_outer n_inner p j l + n_inner ->
     inner_indices n_inputs n_output n_outer n_inner p' j' l' <= r
     < inner_indices n_inputs n_output n_outer n_inner p' j' l' + n_inner ->
     p = p' /\ j = j' /\ l = l') /\
  (n_inputs = 1 ->
     design_rows n_perms n_inputs n_output n_outer n_inner = Z.of_nat n_output /\
     range 1 n_inputs = [] /\
     (length permutations = n_perms ->
      forall g X g1,
        Xall n_output g = Returned (X, g1) -> shaped n_inputs n_output X ->
        build_design Xall Xcond permutations n_perms n_inputs n_output n_outer
                     n_inner g = Returned (transpose n_output X, g1))).
Proof.
  split; [|split; [|split; [|split]]].
  - intros g design g'. apply build_design_shape.
  - intros HXall HXcond Hlen Hperm Hn g.
    destruct (@build_design_samples G Xall Xcond permutations n_perms n_inputs
                n_output n_outer n_inner HXall HXcond Hlen Hperm g Hn)
      as (X & g1 & tr & design & g' & EX & HX & Es & E & Hl & Htr & Eq).
    exists X, g1, tr, design, g'.
    destruct (transpose_shaped n_output X) as [HTl _].
    split; [exact EX|]. split; [exact Es|]. split; [exact E|]. split.
    + rewrite Eq, firstn_app, HTl, Nat.sub_diag, firstn_O, app_nil_r.
      apply firstn_all2. lia.
    + intros p j l Hr. pose proof Hr as (Hp & Hj & Hlo).
      destruct (Htr p Hp) as [_ Hsp].
      destruct (Hsp (j - 1)) as (So & _ & Si); [lia|].
      replace (1 + (j - 1)) with j in * by lia.
      assert (Hpp : Permutation (nth p permutations []) (seq 0 n_inputs)).
      { rewrite Forall_forall in Hperm. apply Hperm, nth_In. lia. }
      rewrite (@block_of_samples_ok (nth p permutations []) n_inputs n_outer
                 n_inner j l (outer_sample tr p j) (inner_sample tr p j l)
                 Hpp Hj Hlo So (Si l Hlo)).
      f_equal. rewrite Eq. symmetry.
      apply (@conditional_rows_block permutations n_perms n_inputs n_output
               n_outer n_inner tr Hlen Hperm (transpose n_output X) p j l
               HTl Hr).
  - intros p j l Hr.
    destruct (@block_in_bounds n_perms n_inputs n_output n_outer n_inner
                p j l Hr) as [Hlo Hhi].
    split; [exact Hlo|].
    rewrite design_rows_nat by (unfold in_range in Hr; lia).
    now apply Nat2Z.inj_le.
  - intros p j l p' j' l' r. apply blocks_disjoint.
  - intros ->. split; [|split].
    + unfold design_rows. lia.
    + reflexivity.
    + intros Hlen g X g1 EX HX.
      unfold build_design, bind, lift.
      replace (design_rows n_perms 1 n_output n_outer n_inner)
        with (Z.of_nat n_output) by (unfold design_rows; lia).
      destruct (np_zeros2_shaped n_output 1) as [Ez Sz]. rewrite Ez, EX.
      destruct (np_T_shaped HX) as [Et St]. rewrite Et.
      destruct HX as [HXl _]. rewrite HXl.
      destruct (@assign_rows_ok n_output 1 0 n_output (transpose n_output X)
                  _ Sz St) as [Ea _]; [lia|].
      rewrite Ea. cbn [firstn app Nat.add].
      rewrite skipn_all2 by (rewrite repeat_length; lia).
      rewrite app_nil_r.
      apply for_eachM_id. intros p d g2 Hp.
      rewrite range_0 in Hp. apply in_seq in Hp.
      unfold build_perm, bind, lift.
      rewrite (getitem_ok [] permutations) by lia. reflexivity.
Qed.

(** Claim C1.  Column un-permutation round trip.  For every permutation
    [perm] of the input indices and every split [j], the block written for
    one outer draw (the [n_inner] conditional samples of [Sj = perm[:j]]
    concatenated with the replicated draw for [Sjc = perm[j:]], columns
    reindexed by [np.argsort(perm)]) has [n_inner] rows of [n_inputs]
    columns; in each row the column of original index [perm[q]] holds the
    [q]-th concatenated value, so that when the columns carry per-input
    placeholder values [value k], the written row is
    [value 0, ..., value (n_inputs-1)]: column [k] holds the value of
    original input [k]. *)
Theorem column_unpermutation_round_trip
    (perm : list nat) (n_inputs j n_inner : nat)
    (sample_inputs : matrix) (xjc : list float) :
  Permutation perm (seq 0 n_inputs) ->
  length sample_inputs = n_inner ->
  Forall (fun r => length r = j) sample_inputs ->
  j + length xjc = n_inputs ->
  exists block,
    inner_block (np_argsort perm) n_inner sample_inputs xjc = Returned block /\
    length block = n_inner /\
    forall i row,
      nth_error block i = Some row ->
      exists sample,
        nth_error sample_inputs i = Some sample /\
        length row = n_inputs /\
        (forall q, q < n_inputs ->
           nth_error row (nth q perm 0) = nth_error (sample ++ xjc) q) /\
        (forall value : nat -> float,
           sample = map value (slice_to j perm) ->
           xjc = map value (slice_from j perm) ->
           row = map value (seq 0 n_inputs)).
Proof.
  intros Hp Hlen Hrows Hj.
  assert (Hlp : length perm = n_inputs)
    by (rewrite (Permutation_length Hp); apply length_seq).
  rewrite (@inner_block_rows perm n_inputs j n_inner sample_inputs xjc)
    by assumption.
  eexists. split; [reflexivity|]. split; [now rewrite length_map|].
  intros i row Hi. rewrite nth_error_map in Hi.
  destruct (nth_error sample_inputs i) as [sample|] eqn:Es; [|discriminate].
  injection Hi as <-. exists sample. split; [reflexivity|].
  assert (Hs : length (sample ++ xjc) = n_inputs).
  { rewrite length_app. apply nth_error_In in Es.
    rewrite Forall_forall in Hrows. rewrite (Hrows _ Es). exact Hj. }
  split; [now rewrite length_map, np_argsort_length|]. split.
  - intros q Hq.
    pose proof (@perm_seq_bound perm n_inputs q Hp Hq) as Hk.
    rewrite nth_error_map.
    rewrite (nth_error_nth' (np_argsort perm) 0)
      by (rewrite np_argsort_length; lia).
    cbn [option_map]. rewrite (@np_argsort_inverse perm n_inputs q Hp Hq).
    symmetry. apply nth_error_nth'. lia.
  - intros value -> ->.
    unfold slice_to, slice_from. rewrite <- map_app, firstn_skipn.
    rewrite <- (@np_argsort_sorts perm n_inputs Hp), map_map.
    apply map_ext_in. intros a Ha.
    assert (Hb : a < length perm).
    { eapply Permutation_in in Ha; [|apply np_argsort_perm].
      apply in_seq in Ha. lia. }
    rewrite nth_indep with (d' := value 0) by (rewrite length_map; exact Hb).
    apply (map_nth value).
Qed.

(** Claim C7.  Exact mode.  Whatever [n_perms] the caller passes, the
    generator returns the same list of permutations together with
    [n_perms = n_inputs!]: the list has [n_inputs!] entries without
    repetition, its entries are exactly the permutations of
    [0, ..., n_inputs-1] (every index occurs once in each), and it is in
    strictly increasing lexicographic order; the result of the whole
    routine does not depend on the [n_perms] passed. *)
Theorem exact_mode_enumerates_all_permutations
    (G : Type) (np_random_permutation : nat -> G -> list nat * G)
    (n_inputs : nat) :
  exists permutations,
    (forall n_perms g,
       generate_permutations np_random_permutation "exact" n_perms n_inputs g
       = Returned ((permutations, fact n_inputs), g)) /\
    length permutations = fact n_inputs /\
    NoDup permutations /\
    (forall perm, In perm permutations <-> Permutation perm (seq 0 n_inputs)) /\
    (forall perm k, In perm permutations -> k < n_inputs ->
                    count_occ Nat.eq_dec perm k = 1) /\
    StronglySorted lex_lt permutations /\
    (forall (model : matrix -> M G (list float)) (Xall : nat -> M G matrix)
            (Xcond : nat -> list nat -> option (list nat)
                     -> option (list float) -> M G matrix)
            n_perms n_perms' n_output n_outer n_inner g,
       get_shapley np_random_permutation model Xall Xcond "exact"
                   n_perms n_inputs n_output n_outer n_inner g
       = get_shapley np_random_permutation model Xall Xcond "exact"
                     n_perms' n_inputs n_output n_outer n_inner g).
Proof.
  exists (itertools_permutations (range 0 n_inputs) n_inputs).
  assert (Hr : range 0 n_inputs = seq 0 n_inputs) by apply range_0.
  assert (Hl : length (range 0 n_inputs) = n_inputs)
    by (rewrite Hr; apply length_seq).
  assert (Hs : StronglySorted lex_lt
                 (itertools_permutations (range 0 n_inputs) n_inputs)).
  { apply itertools_permutations_lex. rewrite Hr. apply seq_sorted. }
  assert (Hin : forall perm,
            In perm (itertools_permutations (range 0 n_inputs) n_inputs)
            <-> Permutation perm (seq 0 n_inputs)).
  { intros perm. rewrite <- Hr. split.
    - now apply itertools_permutations_sound.
    - now apply itertools_permutations_complete. }
  split; [|split; [|split; [|split; [|split; [|split]]]]].
  - intros n_perms g. unfold generate_permutations. cbn [String.eqb].
    unfold ret. now rewrite itertools_permutations_length.
  - now apply itertools_permutations_length.
  - eapply StronglySorted_NoDup; [apply lex_lt_irrefl|exact Hs].
  - exact Hin.
  - intros perm k Hp Hk. apply Hin in Hp.
    rewrite (Permutation_count_occ Nat.eq_dec) in Hp. rewrite Hp.
    apply NoDup_count_occ'; [apply seq_NoDup|apply in_seq; lia].
  - exact Hs.
  - intros. reflexivity.
Qed.

(** ** The result table (lines 172-181) *)

Lemma nth_error_zip_with_inv {A B C} (f : A -> B -> C) (a : list A)
    (b : list B) (i : nat) :
  i < length a -> i < length b ->
  exists x y, nth_error a i = Some x /\ nth_error b i = Some y /\
              nth_error (zip_with f a b) i = Some (f x y).
Proof.
  intros Ha Hb.
  destruct (nth_error a i) as [x|] eqn:Ex;
    [|apply nth_error_None in Ex; lia].
  destruct (nth_error b i) as [y|] eqn:Ey;
    [|apply nth_error_None in Ey; lia].
  exists x, y. repeat split. now apply nth_error_zip_with.
Qed.

Lemma normalize_lengths (n_perms n : nat) (V : float) (s : locals) :
  length (shapley_effects s) = n ->
  length (shapley_effects_squared s) = n ->
  let e := normalize n_perms V s in
  length (effects e) = n /\ length (effects_squared e) = n /\
  length (standard_errors e) = n /\
  length (CI_min e) = n /\ length (CI_max e) = n.
Proof.
  intros Ha Hb e. unfold e, normalize.
  cbn [effects effects_squared standard_errors CI_min CI_max].
  assert (H1 : length (map (fun x => fdiv (fdiv x (of_nat n_perms)) V)
                           (shapley_effects s)) = n)
    by now rewrite length_map.
  assert (H2 : length (map (fun x => fdiv (fdiv x (of_nat n_perms))
                                          (fmul V V))
                           (shapley_effects_squared s)) = n)
    by now rewrite length_map.
  assert (H3 : forall f : float -> float -> float,
            length (zip_with f
                      (map (fun x => fdiv (fdiv x (of_nat n_perms))
                                          (fmul V V))
                           (shapley_effects_squared s))
                      (map (fun x => fdiv (fdiv x (of_nat n_perms)) V)
                           (shapley_effects s))) = n)
    by (intros f; rewrite zip_with_length; congruence).
  repeat split; auto.
  - rewrite zip_with_length; [exact H1|]. now rewrite H3.
  - rewrite zip_with_length; [exact H1|]. now rewrite H3.
Qed.

Lemma labels_nth (n i : nat) :
  i < n -> nth_error (labels n) i = Some ("X" ++ str (i + 1))%string.
Proof.
  intros Hi. unfold labels. rewrite map_map, nth_error_map, range_0.
  rewrite nth_error_seq.
  destruct (i <? n) eqn:E; [reflexivity|apply Nat.ltb_ge in E; lia].
Qed.

(** Claim C9.  Confidence intervals and labels.  The routine's table has
    the columns "Shapley effects", "std. errors", "CI_min" and "CI_max" and
    one row per input; row [i] is labelled ["X" ++ str (i+1)] and holds the
    effect, the standard error, [effect - 1.96 * se] and
    [effect + 1.96 * se]. *)
Theorem confidence_intervals_and_labels
    (permutations : list (list nat))
    (n_perms n_inputs n_output n_outer n_inner : nat) (output0 : list float) :
  length permutations = n_perms ->
  Forall (fun perms => Permutation perms (seq 0 n_inputs)) permutations ->
  exists s,
    estimation_loops permutations n_perms n_inputs n_output n_outer n_inner
                     output0 = Returned s /\
    let e := normalize n_perms (variance_of_output n_output output0) s in
    let df := table n_inputs e in
    estimate permutations n_perms n_inputs n_output n_outer n_inner output0
    = Returned df /\
    df_columns df
    = ["Shapley effects"; "std. errors"; "CI_min"; "CI_max"]%string /\
    length (df_index df) = n_inputs /\
    length (df_values df) = n_inputs /\
    forall i, i < n_inputs ->
      exists effect se,
        nth_error (effects e) i = Some effect /\
        nth_error (standard_errors e) i = Some se /\
        nth_error (CI_min e) i = Some (fsub effect (fmul (Some (196 / 100)%R) se)) /\
        nth_error (CI_max e) i = Some (fadd effect (fmul (Some (196 / 100)%R) se)) /\
        (forall x y, effect = Some x -> se = Some y ->
           nth_error (CI_min e) i = Some (Some (x - 196 / 100 * y)%R) /\
           nth_error (CI_max e) i = Some (Some (x + 196 / 100 * y)%R)) /\
        nth_error (df_index df) i = Some ("X" ++ str (i + 1))%string /\
        nth_error (df_values df) i
        = Some [effect; se;
                fsub effect (fmul (Some (196 / 100)%R) se);
                fadd effect (fmul (Some (196 / 100)%R) se)].
Proof.
  intros Hlen Hperm.
  pose proof (@permutations_index_lists n_inputs permutations Hperm) as Hv.
  destruct (@estimation_loops_spec permutations n_inputs n_output n_outer
              n_inner output0 Hv) as [s [E [_ _ Ie Is]]].
  rewrite Hlen in *.
  exists s. split; [exact E|]. intros e df.
  assert (Ha : length (shapley_effects s) = n_inputs)
    by (rewrite Ie; apply run_effects_length; [exact Hv|lia]).
  assert (Hb : length (shapley_effects_squared s) = n_inputs)
    by (rewrite Is; apply run_squares_length; [exact Hv|lia]).
  destruct (@normalize_lengths n_perms n_inputs
              (variance_of_output n_output output0) s Ha Hb)
    as (L1 & L2 & L3 & L4 & L5).
  fold e in L1, L2, L3, L4, L5.
  assert (Hlab : length (labels n_inputs) = n_inputs).
  { unfold labels. now rewrite !length_map, range_0, length_seq. }
  split; [unfold estimate; now rewrite E|].
  split; [reflexivity|]. split; [exact Hlab|].
  split.
  { unfold df, table, df_T, pd_DataFrame, transpose.
    cbn [df_values df_columns df_index].
    now rewrite length_map, length_seq, Hlab. }
  intros i Hi.
  destruct (@nth_error_zip_with_inv _ _ _
              (fun x se => fsub x (fmul z95 se))
              (effects e) (standard_errors e) i)
    as (effect & se & He & Hse & Hmin); [lia|lia|].
  pose proof (nth_error_zip_with (fun x se => fadd x (fmul z95 se)) _ _ _
                He Hse) as Hmax.
  assert (Hcmin : nth_error (CI_min e) i
                  = Some (fsub effect (fmul (Some (196 / 100)%R) se)))
    by exact Hmin.
  assert (Hcmax : nth_error (CI_max e) i
                  = Some (fadd effect (fmul (Some (196 / 100)%R) se)))
    by exact Hmax.
  exists effect, se.
  split; [exact He|]. split; [exact Hse|]. split; [exact Hcmin|].
  split; [exact Hcmax|]. split; [|split].
  - intros x y -> ->. split; [exact Hcmin|exact Hcmax].
  - unfold df, table, df_T, pd_DataFrame. cbn [df_index df_columns].
    now apply labels_nth.
  - unfold df, table, df_T, pd_DataFrame, transpose.
    cbn [df_values df_columns df_index]. rewrite Hlab.
    rewrite nth_error_map, nth_error_seq.
    destruct (i <? n_inputs) eqn:Ei; [|apply Nat.ltb_ge in Ei; lia].
    cbn [option_map Nat.add column map].
    rewrite (nth_error_nth _ _ nan He), (nth_error_nth _ _ nan Hse),
      (nth_error_nth _ _ nan Hcmin), (nth_error_nth _ _ nan Hcmax).
    reflexivity.
Qed.

(** ** The permutation generator (lines 88-98) and the whole routine *)

Lemma for_eachM_range_inv {G St} (I : nat -> St -> Prop)
    (body : nat -> St -> M G St) (n : nat) (s : St) (g : G) :
  I 0 s ->
  (forall k s g, k < n -> I k s ->
     exists s' g', body k s g = Returned (s', g') /\ I (S k) s') ->
  exists s' g', for_eachM (range 0 n) body s g = Returned (s', g') /\ I n s'.
Proof.
  intros H0 Hstep. induction n as [|n IH].
  - exists s, g. now split.
  - destruct IH as (s1 & g1 & E1 & I1); [intros; apply Hstep; auto|].
    destruct (Hstep n s1 g1) as (s2 & g2 & E2 & I2); [lia|exact I1|].
    exists s2, g2. split; [|exact I2].
    rewrite range_S, for_eachM_app, E1. cbn [for_eachM]. unfold bind.
    now rewrite E2.
Qed.

Section Routine.
Variable G : Type.
Variable np_random_permutation : nat -> G -> list nat * G.
Variable model : matrix -> M G (list float).
Variable Xall : nat -> M G matrix.
Variable Xcond :
  nat -> list nat -> option (list nat) -> option (list float) -> M G matrix.

Lemma other_method_is_random (method : string)
    (n_perms n_inputs n_output n_outer n_inner : nat) (g : G) :
  method <> "exact"%string ->
  get_shapley np_random_permutation model Xall Xcond method
              n_perms n_inputs n_output n_outer n_inner g
  = get_shapley np_random_permutation model Xall Xcond "random"
                n_perms n_inputs n_output n_outer n_inner g.
Proof.
  intros H. unfold get_shapley, generate_permutations.
  apply String.eqb_neq in H. rewrite H. reflexivity.
Qed.

Hypothesis Hrandom : forall n g,
  Permutation (fst (np_random_permutation n g)) (seq 0 n).

Lemma generate_permutations_ok (method : string) (n_perms n_inputs : nat)
    (g : G) :
  exists permutations g',
    generate_permutations np_random_permutation method n_perms n_inputs g
    = Returned ((permutations, length permutations), g') /\
    Forall (fun perms => Permutation perms (seq 0 n_inputs)) permutations /\
    (method <> "exact"%string -> length permutations = n_perms).
Proof.
  unfold generate_permutations.
  destruct (String.eqb method "exact") eqn:Em.
  - eexists. exists g. split; [reflexivity|]. split.
    + apply Forall_forall. intros perm Hin. rewrite <- range_0.
      apply itertools_permutations_sound with (r := n_inputs);
        [rewrite range_0; apply length_seq|exact Hin].
    + apply String.eqb_eq in Em. intros H. contradiction.
  - unfold bind.
    destruct (@for_eachM_range_inv G (list (list nat))
                (fun k perms =>
                   length perms = n_perms /\
                   Forall (fun p => Permutation p (seq 0 n_inputs))
                          (firstn k perms))
                (fun i permutations g =>
                   let (row, g') := np_random_permutation n_inputs g in
                   lift (setitem permutations i row) g')
                n_perms (repeat (repeat 0 n_inputs) n_perms) g)
      as (perms & g' & E & [Hl Hp]).
    + split; [apply repeat_length|constructor].
    + intros k s g0 Hk [Hl Hp].
      pose proof (Hrandom n_inputs g0) as Hr.
      destruct (np_random_permutation n_inputs g0) as [row g1].
      cbn [fst] in Hr. unfold lift. rewrite setitem_ok by lia.
      eexists. exists g1. split; [reflexivity|]. split.
      * rewrite length_app, length_firstn. cbn [length].
        rewrite length_skipn. lia.
      * rewrite firstn_app, length_firstn, Nat.min_l by lia.
        rewrite (@firstn_all2 _ (S k) (firstn k s))
          by (rewrite length_firstn; lia).
        replace (S k - k) with 1 by lia.
        apply Forall_app. split; [exact Hp|]. now constructor.
    + rewrite E. exists perms, g'. split; [reflexivity|].
      split; [|intros _; exact Hl].
      rewrite <- Hl in Hp. now rewrite firstn_all in Hp.
Qed.

Lemma estimate_returns (permutations : list (list nat))
    (n_inputs n_output n_outer n_inner : nat) (out : list float) :
  Forall (fun perms => Permutation perms (seq 0 n_inputs)) permutations ->
  exists df,
    estimate permutations (length permutations) n_inputs n_output n_outer
             n_inner out = Returned df.
Proof.
  intros Hp.
  pose proof (@permutations_index_lists n_inputs permutations Hp) as Hv.
  destruct (@estimation_loops_spec permutations n_inputs n_output n_outer
              n_inner out Hv) as [s [E _]].
  unfold estimate. rewrite E. now eexists.
Qed.

(** Random mode with [n_perms = 0]: the design is the unconditional block
    and the model is evaluated on it. *)
Lemma zero_permutations_run (n_inputs n_output n_outer n_inner : nat)
    (g g1 g2 : G) (X : matrix) (out : list float) :
  Xall n_output g = Returned (X, g1) -> shaped n_inputs n_output X ->
  model (transpose n_output X) g1 = Returned (out, g2) ->
  exists df,
    get_shapley np_random_permutation model Xall Xcond "random"
                0 n_inputs n_output n_outer n_inner g = Returned (df, g2) /\
    estimate [] 0 n_inputs n_output n_outer n_inner out = Returned df.
Proof.
  intros EX HX Em.
  destruct (@estimate_returns [] n_inputs n_output n_outer n_inner out)
    as [df Ed]; [constructor|].
  exists df. split; [|exact Ed].
  unfold get_shapley, generate_permutations, bind.
  cbn [String.eqb Ascii.eqb Bool.eqb range Nat.sub seq for_eachM repeat
       ret length fst snd].
  unfold build_design, bind, lift.
  replace (design_rows 0 n_inputs n_output n_outer n_inner)
    with (Z.of_nat n_output) by (unfold design_rows; lia).
  destruct (np_zeros2_shaped n_output n_inputs) as [Ez Sz]. rewrite Ez, EX.
  destruct (np_T_shaped HX) as [Et St]. rewrite Et.
  destruct HX as [HXl _]. rewrite HXl.
  destruct (@assign_rows_ok n_output n_inputs 0 n_output
              (transpose n_output X) _ Sz St) as [Ea _]; [lia|].
  rewrite Ea. cbn [firstn app Nat.add range Nat.sub seq for_eachM ret].
  rewrite skipn_all2 by (rewrite repeat_length; lia).
  rewrite app_nil_r, Em.
  cbn [length] in Ed. now rewrite Ed.
Qed.

Hypothesis Hmodel : forall X g, exists out g', model X g = Returned (out, g').

(** With collaborators that return well-shaped results, the routine
    returns a table whatever the method string and the requested number
    of permutations. *)
Lemma get_shapley_returns (method : string)
    (n_perms n_inputs n_output n_outer n_inner : nat) (g : G) :
  (forall n g, exists X g', Xall n g = Returned (X, g') /\
                            shaped n_inputs n X) ->
  (forall n S Sc x g,
     exists X g', Xcond n S Sc x g = Returned (X, g') /\
                  shaped (length S) n X) ->
  1 <= n_inputs ->
  exists df g',
    get_shapley np_random_permutation model Xall Xcond method
                n_perms n_inputs n_output n_outer n_inner g
    = Returned (df, g').
Proof.
  intros HXall HXcond Hn.
  destruct (generate_permutations_ok method n_perms n_inputs g)
    as (permutations & g1 & Eg & Hp & _).
  destruct (@build_design_ok G Xall Xcond permutations (length permutations)
              n_inputs n_output n_outer n_inner g1 HXall HXcond eq_refl Hp
              Hn) as (X & g2 & design & g3 & _ & Eb & _).
  destruct (Hmodel design g3) as (out & g4 & Em).
  destruct (@estimate_returns permutations n_inputs n_output n_outer n_inner
              out Hp) as [df Ed].
  exists df, g4. unfold get_shapley, bind.
  rewrite Eg. cbn [fst snd]. rewrite Eb, Em. unfold lift. now rewrite Ed.
Qed.

(** A negative [n_inputs], or in random mode a negative [n_perms], is
    refused before anything is computed; other sizes are natural
    numbers. *)
Lemma negative_sizes_raise (method : string) (n_perms n_inputs : Z)
    (n_output n_outer n_inner : nat) (g : G) :
  (n_inputs < 0)%Z \/ (method <> "exact"%string /\ (n_perms < 0)%Z) ->
  get_shapley_int np_random_permutation model Xall Xcond method
                  n_perms n_inputs n_output n_outer n_inner g
  = Raised ValueError.
Proof.
  intros H. unfold get_shapley_int, negative_size.
  destruct H as [H|[Hm H]].
  - apply Z.ltb_lt in H. now rewrite H.
  - apply Z.ltb_lt in H. apply String.eqb_neq in Hm. rewrite H, Hm.
    cbn [negb andb]. now rewrite orb_true_r.
Qed.

Lemma natural_sizes_run (method : string) (n_perms n_inputs : Z)
    (n_output n_outer n_inner : nat) (g : G) :
  (0 <= n_inputs)%Z -> method = "exact"%string \/ (0 <= n_perms)%Z ->
  get_shapley_int np_random_permutation model Xall Xcond method
                  n_perms n_inputs n_output n_outer n_inner g
  = get_shapley np_random_permutation model Xall Xcond method
                (Z.to_nat n_perms) (Z.to_nat n_inputs)
                n_output n_outer n_inner g.
Proof.
  intros Hi Hp. unfold get_shapley_int, negative_size.
  apply Z.ltb_ge in Hi. rewrite Hi. cbn [orb].
  destruct Hp as [->|Hp].
  - reflexivity.
  - apply Z.ltb_ge in Hp. rewrite Hp. now rewrite andb_false_r.
Qed.
End Routine.

(** Claim C8, as the code has it.  The routine validates nothing.  A
    method string other than "exact" runs the random branch, exactly as
    "random" does; with collaborators that return well-shaped results and
    [n_inputs >= 1] the routine returns a table for every method string and
    every natural [n_perms], 0 included; random mode with [n_perms = 0]
    (also with [n_inputs = 0]) builds the unconditional design, evaluates
    the model on it and returns the table the estimator makes of its output.
    The only sizes refused are negative ones, and not by a check of the
    routine: a negative [n_inputs], or outside exact mode a negative
    [n_perms], makes [itertools.permutations] or [np.zeros] of lines 89 and
    94 raise ValueError before any collaborator is called; with
    [n_inputs >= 0] and, outside exact mode, [n_perms >= 0] the routine runs
    on these sizes as natural numbers. *)
Theorem get_shapley_validates_nothing
    (G : Type) (np_random_permutation : nat -> G -> list nat * G)
    (model : matrix -> M G (list float)) (Xall : nat -> M G matrix)
    (Xcond : nat -> list nat -> option (list nat) -> option (list float)
             -> M G matrix) :
  (forall method n_perms n_inputs n_output n_outer n_inner g,
     method <> "exact"%string ->
     get_shapley np_random_permutation model Xall Xcond method
                 n_perms n_inputs n_output n_outer n_inner g
     = get_shapley np_random_permutation model Xall Xcond "random"
                   n_perms n_inputs n_output n_outer n_inner g) /\
  (forall n_inputs,
     (forall n g, Permutation (fst (np_random_permutation n g)) (seq 0 n)) ->
     (forall X g, exists out g', model X g = Returned (out, g')) ->
     (forall n g, exists X g', Xall n g = Returned (X, g') /\
                               shaped n_inputs n X) ->
     (forall n S Sc x g,
        exists X g', Xcond n S Sc x g = Returned (X, g') /\
                     shaped (length S) n X) ->
     1 <= n_inputs ->
     forall method n_perms n_output n_outer n_inner g,
     exists df g',
       get_shapley np_random_permutation model Xall Xcond method
                   n_perms n_inputs n_output n_outer n_inner g
       = Returned (df, g')) /\
  (forall n_inputs n_output n_outer n_inner g g1 g2 X out,
     Xall n_output g = Returned (X, g1) -> shaped n_inputs n_output X ->
     model (transpose n_output X) g1 = Returned (out, g2) ->
     exists df,
       get_shapley np_random_permutation model Xall Xcond "random"
                   0 n_inputs n_output n_outer n_inner g = Returned (df, g2) /\
       estimate [] 0 n_inputs n_output n_outer n_inner out = Returned df) /\
  (forall method n_perms n_inputs n_output n_outer n_inner g,
     ((n_inputs < 0)%Z \/ (method <> "exact"%string /\ (n_perms < 0)%Z) ->
      get_shapley_int np_random_permutation model Xall Xcond method
                      n_perms n_inputs n_output n_outer n_inner g
      = Raised ValueError) /\
     ((0 <= n_inputs)%Z -> method = "exact"%string \/ (0 <= n_perms)%Z ->
      get_shapley_int np_random_permutation model Xall Xcond method
                      n_perms n_inputs n_output n_outer n_inner g
      = get_shapley np_random_permutation model Xall Xcond method
                    (Z.to_nat n_perms) (Z.to_nat n_inputs)
                    n_output n_outer n_inner g)).
Proof.
  split; [|split; [|split]].
  - intros. now apply other_method_is_random.
  - intros n_inputs Hr Hm HXall HXcond Hn method n_perms n_output n_outer
      n_inner g.
    now apply get_shapley_returns.
  - intros. now apply zero_permutations_run with (g1 := g1) (X := X).
  - intros. split; [apply negative_sizes_raise|apply natural_sizes_run].
Qed.

(** ** Concrete runs *)

Lemma identity_permutation_valid (n : nat) (g : unit) :
  Permutation (fst (identity_permutation n g)) (seq 0 n).
Proof. reflexivity. Qed.

Lemma sum_model_returns (X : matrix) (g : unit) :
  exists out g', sum_model X g = Returned (out, g').
Proof. now eexists; eexists. Qed.

Lemma ramp_shaped (d n : nat) : shaped d n (ramp d n).
Proof.
  unfold ramp. split; [apply repeat_length|].
  apply Forall_forall. intros r Hr. apply repeat_spec in Hr. subst r.
  now rewrite length_map, length_seq.
Qed.

Lemma ramp_Xall_shape (d n : nat) (g : unit) :
  exists X g', ramp_Xall d n g = Returned (X, g') /\ shaped d n X.
Proof.
  eexists; eexists. split; [reflexivity|]. apply ramp_shaped.
Qed.

Lemma ramp_Xcond_shape (n : nat) (S : list nat) (Sc : option (list nat))
    (x : option (list float)) (g : unit) :
  exists X g', ramp_Xcond n S Sc x g = Returned (X, g') /\
               shaped (length S) n X.
Proof.
  eexists; eexists. split; [reflexivity|]. apply ramp_shaped.
Qed.

(** An unsupported method string is not rejected: the routine returns. *)
Lemma unsupported_method_returns :
  exists df g',
    get_shapley identity_permutation sum_model (ramp_Xall 2) ramp_Xcond
                "bogus" 1 2 3 1 2 tt
    = Returned (df, g').
Proof.
  apply get_shapley_returns.
  - apply identity_permutation_valid.
  - apply sum_model_returns.
  - intros n g. apply ramp_Xall_shape.
  - apply ramp_Xcond_shape.
  - lia.
Qed.

Lemma get_shapley_validates_nothing_witness :
  get_shapley identity_permutation sum_model (ramp_Xall 2) ramp_Xcond
              "bogus" 1 2 3 1 2 tt
  = get_shapley identity_permutation sum_model (ramp_Xall 2) ramp_Xcond
                "random" 1 2 3 1 2 tt /\
  (exists df g',
     get_shapley identity_permutation sum_model (ramp_Xall 2) ramp_Xcond
                 "exact" 7 2 3 1 2 tt
     = Returned (df, g')) /\
  (exists df,
     get_shapley identity_permutation sum_model (ramp_Xall 0) ramp_Xcond
                 "random" 0 0 3 1 2 tt = Returned (df, tt)) /\
  get_shapley_int identity_permutation sum_model (ramp_Xall 2) ramp_Xcond
                  "random" (-1) 2 3 1 2 tt
  = Raised ValueError /\
  get_shapley_int identity_permutation sum_model (ramp_Xall 2) ramp_Xcond
                  "exact" (-1) 2 3 1 2 tt
  = get_shapley identity_permutation sum_model (ramp_Xall 2) ramp_Xcond
                "exact" (Z.to_nat (-1)) (Z.to_nat 2) 3 1 2 tt.
Proof.
  destruct (@get_shapley_validates_nothing unit identity_permutation
              sum_model (ramp_Xall 2) ramp_Xcond) as (H1 & H2 & _ & H4).
  destruct (@get_shapley_validates_nothing unit identity_permutation
              sum_model (ramp_Xall 0) ramp_Xcond) as (_ & _ & H3 & _).
  split; [|split; [|split; [|split]]].
  - apply H1. discriminate.
  - apply (H2 2).
    + apply identity_permutation_valid.
    + apply sum_model_returns.
    + intros n g. apply ramp_Xall_shape.
    + apply ramp_Xcond_shape.
    + lia.
  - destruct (H3 0 3 1 2 tt tt tt (ramp 0 3)
                 (map np_sum (transpose 3 (ramp 0 3))))
      as [df [E _]]; [reflexivity|apply ramp_shaped|reflexivity|].
    now exists df.
  - apply (H4 "random"%string (-1)%Z 2%Z 3 1 2 tt).
    right. split; [discriminate|lia].
  - apply (H4 "exact"%string (-1)%Z 2%Z 3 1 2 tt); [lia|now left].
Defined.

Open Scope R_scope.

Lemma two_permutations :
  Forall (fun perms => Permutation perms (seq 0 2)) [[0; 1]; [1; 0]]%nat.
Proof.
  constructor; [apply Permutation_refl|].
  constructor; [apply perm_swap|constructor].
Qed.

Lemma perm_201 : Permutation [2; 0; 1]%nat (seq 0 3).
Proof.
  eapply perm_trans; [apply perm_swap|]. apply perm_skip, perm_swap.
Qed.

(** The round trip of the specification's test: permutation [2,0,1]. *)
Example unpermute_201 (a b c : float) :
  inner_block (np_argsort [2; 0; 1]%nat) 1 [[c]] [a; b]
  = Returned [[a; b; c]].
Proof. reflexivity. Qed.

Example exact_permutations_of_3 :
  itertools_permutations (range 0 3) 3
  = [[0; 1; 2]; [0; 2; 1]; [1; 0; 2]; [1; 2; 0]; [2; 0; 1]; [2; 1; 0]]%nat.
Proof. reflexivity. Qed.

Example labels_of_12 :
  labels 12
  = ["X1"; "X2"; "X3"; "X4"; "X5"; "X6"; "X7"; "X8"; "X9"; "X10"; "X11";
     "X12"]%string.
Proof. reflexivity. Qed.

Lemma column_unpermutation_round_trip_witness :
  exists block,
    inner_block (np_argsort [2; 0; 1]%nat) 1 [[Some 7]] [Some 5; Some 6]
    = Returned block /\
    length block = 1%nat /\
    forall i row,
      nth_error block i = Some row ->
      exists sample,
        nth_error [[Some 7]] i = Some sample /\
        length row = 3%nat /\
        (forall q, (q < 3)%nat ->
           nth_error row (nth q [2; 0; 1]%nat 0%nat)
           = nth_error (sample ++ [Some 5; Some 6]) q) /\
        (forall value : nat -> float,
           sample = map value (slice_to 1 [2; 0; 1]%nat) ->
           [Some 5; Some 6] = map value (slice_from 1 [2; 0; 1]%nat) ->
           row = map value (seq 0 3)).
Proof.
  apply (@column_unpermutation_round_trip [2; 0; 1]%nat 3 1 1
           [[Some 7]] [Some 5; Some 6]).
  - exact perm_201.
  - reflexivity.
  - repeat constructor.
  - reflexivity.
Defined.

Lemma estimator_consumes_in_design_order_witness :
  (exists s,
     after_block [[0; 1]; [1; 0]]%nat 2 2 1 2 (map Some six_outputs) 1 0 0
     = Returned s /\
     model_output s = [Some 3; Some 7]) /\
  (exists s,
     estimation_loops [[0; 1]; [1; 0]]%nat 2 2 2 1 2 (map Some six_outputs)
     = Returned s /\
     output s = []).
Proof.
  destruct (@estimator_consumes_in_design_order [[0; 1]; [1; 0]]%nat
              2 2 2 1 2 (map Some six_outputs)) as [Hb Hend].
  - reflexivity.
  - exact two_permutations.
  - reflexivity.
  - split; [|exact Hend].
    destruct (Hb 1%nat 0%nat 0%nat) as (s & E & Hm & _); [lia|lia|lia|].
    exists s. split; [exact E|exact Hm].
Defined.

Lemma variance_of_six :
  variance_of_output 2 (map Some six_outputs) = Some (1 / 4).
Proof.
  change (variance_of_output 2 (map Some six_outputs))
    with (np_var 0 (map Some [0; 1])).
  rewrite population_variance_spec by discriminate. f_equal.
  unfold population_variance, sum_sq_dev, Rmean, Rsum. simpl. field.
Qed.

Lemma deltas_telescope_to_output_variance_witness :
  exists s,
    estimation_loops [[0; 1]; [1; 0]]%nat 2 2 2 1 2 (map Some six_outputs)
    = Returned s /\
    np_sum (effects (normalize 2
                       (variance_of_output 2 (map Some six_outputs)) s))
    = Some 1.
Proof.
  destruct (@deltas_telescope_to_output_variance [[0; 1]; [1; 0]]%nat
              2 2 2 1 2 six_outputs) as [_ H].
  - reflexivity.
  - exact two_permutations.
  - reflexivity.
  - lia.
  - right. lia.
  - apply (H (1 / 4)).
    + exact variance_of_six.
    + lra.
    + lia.
Defined.

Lemma variance_estimators_are_asymmetric_witness :
  variance_of_output 2 (map Some six_outputs)
  = Some (sum_sq_dev [0; 1] / INR 2) /\
  (exists s,
     after_split [[0; 1]; [1; 0]]%nat 2 2 1 2 (map Some six_outputs) 1 0
     = Returned s /\
     estimated_cost s = Some (Rmean [sum_sq_dev [3; 7] / (INR 2 - 1)])) /\
  (exists s0 s,
     entering_split [[0; 1]; [1; 0]]%nat 2 2 1 2 (map Some six_outputs) 1 1
     = Returned s0 /\
     after_split [[0; 1]; [1; 0]]%nat 2 2 1 2 (map Some six_outputs) 1 1
     = Returned s /\
     estimated_cost s = variance_of_output 2 (map Some six_outputs) /\
     output s = output s0).
Proof.
  destruct (@variance_estimators_are_asymmetric [[0; 1]; [1; 0]]%nat
              2 2 2 1 2 (map Some six_outputs))
    as (_ & Hsplit & Hreal).
  - reflexivity.
  - exact two_permutations.
  - destruct (Hreal six_outputs eq_refl eq_refl) as [HV Hcost].
    split; [apply HV; lia|]. split.
    + destruct (Hcost 1%nat 0%nat) as (s & E & Hc & _); try lia.
      exists s. split; [exact E|exact Hc].
    + destruct (Hsplit 1%nat 1%nat) as (s0 & s & E0 & E & _ & Hlast);
        [lia|lia|].
      destruct (Hlast eq_refl) as [Hc Ho].
      exists s0, s. repeat split; assumption.
Defined.

Lemma standard_error_is_unclamped_root_witness :
  exists s,
    estimation_loops [[0; 1]; [1; 0]]%nat 2 2 2 1 2 (map Some six_outputs)
    = Returned s /\
    length (shapley_effects s) = 2%nat /\
    length (shapley_effects_squared s) = 2%nat /\
    let V := variance_of_output 2 (map Some six_outputs) in
    let e := normalize 2 V s in
    estimate [[0; 1]; [1; 0]]%nat 2 2 2 1 2 (map Some six_outputs)
    = Returned (table 2 e) /\
    forall i, (i < 2)%nat ->
      let effect :=
        fdiv (fdiv (nth i (shapley_effects s) nan) (of_nat 2)) V in
      let squared_mean :=
        fdiv (fdiv (nth i (shapley_effects_squared s) nan) (of_nat 2))
             (fmul V V) in
      let radicand := fsub squared_mean (fmul effect effect) in
      let se := np_sqrt (fdiv radicand (of_nat 2)) in
      nth_error (effects e) i = Some effect /\
      nth_error (effects_squared e) i = Some squared_mean /\
      nth_error (standard_errors e) i = Some se /\
      (forall r, radicand = Some r -> 0 <= r -> (1 <= 2)%nat ->
         se = Some (sqrt (r / INR 2)) /\
         se = spec_standard_error 2 squared_mean effect) /\
      (forall r, radicand = Some r -> r < 0 -> (1 <= 2)%nat ->
         se = nan /\ spec_standard_error 2 squared_mean effect = Some 0) /\
      (radicand = nan -> se = nan) /\
      (2%nat = 0%nat -> se = nan).
Proof.
  apply (@standard_error_is_unclamped_root [[0; 1]; [1; 0]]%nat
           2 2 2 1 2 (map Some six_outputs)).
  - reflexivity.
  - exact two_permutations.
Defined.

Lemma confidence_intervals_and_labels_witness :
  exists df,
    estimate [[0; 1]; [1; 0]]%nat 2 2 2 1 2 (map Some six_outputs)
    = Returned df /\
    df_index df = ["X1"; "X2"]%string.
Proof.
  destruct (@confidence_intervals_and_labels [[0; 1]; [1; 0]]%nat
              2 2 2 1 2 (map Some six_outputs))
    as (s & _ & H).
  - reflexivity.
  - exact two_permutations.
  - destruct H as (E & _). eexists. split; [exact E|reflexivity].
Defined.

Lemma division_by_zero_free_iff_witness :
  exists s,
    estimation_loops [[0; 1]; [1; 0]]%nat 2 2 2 1 2 (map Some six_outputs)
    = Returned s /\
    Forall finite
      (effects (normalize 2 (variance_of_output 2 (map Some six_outputs)) s)).
Proof.
  destruct (@division_by_zero_free_iff [[0; 1]; [1; 0]]%nat
              2 2 2 1 2 six_outputs) as (s & E & H & _).
  - reflexivity.
  - exact two_permutations.
  - reflexivity.
  - lia.
  - exists s. split; [exact E|]. apply H.
    split; [lia|]. split; [lia|]. split; [lia|]. split.
    + exists (1 / 4). split; [exact variance_of_six|lra].
    + exists (1 / 4 * (1 / 4)). rewrite variance_of_six.
      split; [reflexivity|lra].
Defined.

Lemma design_matrix_layout_witness :
  exists X g1 tr design g',
    ramp_Xall 2 3 tt = Returned (X, g1) /\
    samples ramp_Xcond [[0; 1]; [1; 0]]%nat 2 2 1 2 g1 = Returned (tr, g') /\
    build_design (ramp_Xall 2) ramp_Xcond [[0; 1]; [1; 0]]%nat 2 2 3 1 2 tt
    = Returned (design, g') /\
    firstn 3 design = transpose 3 X /\
    forall p j l, in_range 2 2 1 p j l ->
      block_of_samples (nth p [[0; 1]; [1; 0]]%nat []) 1 2
                       (outer_sample tr p j) l (inner_sample tr p j l)
      = Returned (firstn 2 (skipn (3 + p * (2 - 1) * 1 * 2
                                   + (j - 1) * 1 * 2 + l * 2) design)).
Proof.
  destruct (@design_matrix_layout unit (ramp_Xall 2) ramp_Xcond
              [[0; 1]; [1; 0]]%nat 2 2 3 1 2) as (_ & H & _).
  apply H.
  - intros n g. apply ramp_Xall_shape.
  - apply ramp_Xcond_shape.
  - reflexivity.
  - exact two_permutations.
  - lia.
Defined.

(** ** Inputs on which the arithmetic leaves the finite numbers *)

Lemma fdiv_by_zero (a : float) : fdiv a (Some 0) = None.
Proof. destruct a; [apply fdiv_zero|reflexivity]. Qed.

Lemma fsub_none_r (a : float) : fsub a None = None.
Proof. now destruct a. Qed.

(** A single inner draw ([n_inner = 1]) has no Bessel variance: the first
    increment is nan and so is the sum of the effects, although the output
    variance is 1/4. *)
Lemma single_inner_draw_sum_is_nan :
  exists s s00,
    estimation_loops [[0; 1]; [1; 0]]%nat 2 2 2 1 1 (map Some [0; 1; 5; 9])
    = Returned s /\
    variance_of_output 2 (map Some [0; 1; 5; 9]) = Some (1 / 4) /\
    1 / 4 <> 0 /\
    after_split [[0; 1]; [1; 0]]%nat 2 2 1 1 (map Some [0; 1; 5; 9]) 0 0
    = Returned s00 /\
    delta s00 = None /\
    np_sum (effects (normalize 2 (Some (1 / 4)) s)) = None.
Proof.
  pose proof (@permutations_index_lists 2 _ two_permutations) as Hv.
  destruct (@estimation_loops_spec [[0; 1]; [1; 0]]%nat 2 2 1 1
              (map Some [0; 1; 5; 9]) Hv) as [s [E [_ _ Ie _]]].
  destruct (@after_split_spec [[0; 1]; [1; 0]]%nat 2 2 1 1
              (map Some [0; 1; 5; 9]) Hv 0 0)
    as (s0 & s00 & _ & E00 & _ & Hd & _); [simpl; lia|lia|].
  assert (Hnone : pass_delta 2 1 1
                    (variance_of_output 2 (map Some [0; 1; 5; 9]))
                    (pass_start 2 2 1 1 (map Some [0; 1; 5; 9]) 0) 0 = None)
    by (apply first_cost_none; lia).
  exists s, s00. split; [exact E|]. split; [exact variance_of_six|].
  split; [lra|]. split; [exact E00|]. split; [now rewrite Hd|].
  apply np_sum_none. unfold normalize. cbn [effects].
  apply in_map_iff. exists None. split; [reflexivity|].
  rewrite Ie.
  eapply nth_error_In.
  apply (@first_delta_none [[0; 1]; [1; 0]]%nat 2 2 1 1
           (map Some [0; 1; 5; 9]) 2); try lia; [simpl; lia|exact Hnone].
Qed.

(** Lines 166-168 apply no clamp: on accumulators whose squared mean falls
    below the squared effect (as rounding can produce), the square root is
    taken of a negative number and the standard error is nan, where the
    clamped root of the specification is 0. *)
Example normalize_has_no_clamp :
  let s :=
    {| output := []; model_output := []; conditional_variance := [];
       estimated_cost := nan; delta := nan; previous_cost := nan;
       shapley_effects := [Some 2];
       shapley_effects_squared := [Some 1] |} in
  let e := normalize 1 (Some 1) s in
  effects e = [Some 2] /\
  effects_squared e = [Some 1] /\
  standard_errors e = [nan] /\
  spec_standard_error 1 (Some 1) (Some 2) = Some 0.
Proof.
  assert (H21 : 2 / 1 / 1 = 2) by field.
  assert (H11 : 1 / 1 / (1 * 1) = 1) by field.
  cbv zeta. unfold normalize, spec_standard_error.
  cbn [effects effects_squared standard_errors shapley_effects
       shapley_effects_squared map zip_with fmul fmax lift2].
  unfold of_nat. change (INR 1) with 1.
  rewrite !fdiv_some by lra. cbn [fmul fsub fmax lift2].
  rewrite !fdiv_some by lra. rewrite H21, H11.
  split; [reflexivity|]. split; [reflexivity|]. split.
  - unfold np_sqrt. destruct (Rlt_dec _ 0) as [_|H]; [reflexivity|].
    exfalso. apply H. lra.
  - rewrite Rmax_right by lra.
    replace (0 / 1) with 0 by field.
    rewrite np_sqrt_some by lra. now rewrite sqrt_0.
Qed.

(** A constant model has output variance 0; the normalisation divides by
    it and the standard error is nan. *)
Lemma zero_variance_standard_error_is_nan :
  exists s,
    estimation_loops [[0]]%nat 1 1 2 1 2 (map Some [3; 3]) = Returned s /\
    variance_of_output 2 (map Some [3; 3]) = Some 0 /\
    standard_errors (normalize 1 (Some 0) s) = [None].
Proof.
  assert (Hp : Forall (fun perms => Permutation perms (seq 0 1)) [[0]]%nat)
    by (repeat constructor).
  pose proof (@permutations_index_lists 1 _ Hp) as Hv.
  destruct (@estimation_loops_spec [[0]]%nat 1 2 1 2 (map Some [3; 3]) Hv)
    as [s [E [_ _ Ie Is]]].
  exists s. split; [exact E|]. split.
  - change (variance_of_output 2 (map Some [3; 3]))
      with (np_var 0 (map Some [3; 3])).
    rewrite population_variance_spec by discriminate. f_equal.
    unfold population_variance, sum_sq_dev, Rmean, Rsum. simpl. field.
  - assert (Ha : length (shapley_effects s) = 1%nat)
      by (rewrite Ie; apply run_effects_length; [exact Hv|simpl; lia]).
    assert (Hb : length (shapley_effects_squared s) = 1%nat)
      by (rewrite Is; apply run_squares_length; [exact Hv|simpl; lia]).
    unfold normalize. cbn [standard_errors].
    destruct (shapley_effects s) as [|x [|? ?]]; try discriminate.
    destruct (shapley_effects_squared s) as [|y [|? ?]]; try discriminate.
    cbn [map zip_with]. rewrite fdiv_by_zero. cbn [fmul lift2].
    now rewrite fsub_none_r.
Qed.

(** Random mode with [n_perms = 0]: nothing is wrong with [n_inner] or with
    the output variance, and every effect is 0/0. *)
Lemma zero_permutations_effects_are_nan :
  exists s,
    estimation_loops [] 0 2 2 1 2 (map Some [0; 1]) = Returned s /\
    variance_of_output 2 (map Some [0; 1]) = Some (1 / 4) /\
    1 / 4 <> 0 /\
    (2 <= 2)%nat /\
    INR 0 = 0 /\
    effects (normalize 0 (Some (1 / 4)) s) = [None; None] /\
    ~ Forall finite (effects (normalize 0 (Some (1 / 4)) s)).
Proof.
  eexists. split; [reflexivity|]. split; [exact variance_of_six|].
  split; [lra|]. split; [lia|]. split; [reflexivity|].
  assert (He : effects (normalize 0 (Some (1 / 4))
                          (initial_locals 2 2 1 (map Some [0; 1])))
               = [None; None]).
  { unfold normalize. cbn [effects initial_locals shapley_effects np_zeros
                           repeat map].
    change (of_nat 0) with (Some 0). now rewrite fdiv_zero. }
  split; [exact He|].
  rewrite He. intros H. inversion H as [|? ? Hn _]. now apply not_finite_none in Hn.
Qed.

(** ** The root of line 168 under rounding *)

(** Random mode with [n_perms = 7], one input, and a model whose first three
    outputs are 0, 1 and 5.  In binary64 the seven increments add up to an
    effect of exactly 1 and a squared mean of [1 - 2^-53]: the difference
    under the root is negative, the standard error of the code is nan, and
    the clamped root of the specification is 0. *)
Lemma unclamped_root_is_nan_in_binary64 :
  PrimFloat.eqb
    (Binary64.effect
       (Binary64.normalize 7 Binary64.variance_of_0_1_5
          (Binary64.estimation_loops 7 Binary64.variance_of_0_1_5
             Binary64.initial)))
    Binary64.one = true /\
  PrimFloat.ltb
    (Binary64.effect_squared
       (Binary64.normalize 7 Binary64.variance_of_0_1_5
          (Binary64.estimation_loops 7 Binary64.variance_of_0_1_5
             Binary64.initial)))
    Binary64.one = true /\
  PrimFloat.is_nan
    (Binary64.standard_error
       (Binary64.normalize 7 Binary64.variance_of_0_1_5
          (Binary64.estimation_loops 7 Binary64.variance_of_0_1_5
             Binary64.initial))) = true /\
  PrimFloat.eqb
    (Binary64.spec_standard_error 7
       (Binary64.effect_squared
          (Binary64.normalize 7 Binary64.variance_of_0_1_5
             (Binary64.estimation_loops 7 Binary64.variance_of_0_1_5
                Binary64.initial)))
       (Binary64.effect
          (Binary64.normalize 7 Binary64.variance_of_0_1_5
             (Binary64.estimation_loops 7 Binary64.variance_of_0_1_5
                Binary64.initial))))
    Binary64.zero = true.
Proof. repeat split; reflexivity. Qed.

(** The same run in exact arithmetic: the variance is 14/3 and the
    difference under the root is 0. *)
Lemma variance_of_0_1_5_exact :
  variance_of_output 3 (map Some [0; 1; 5]) = Some (14 / 3).
Proof.
  change (variance_of_output 3 (map Some [0; 1; 5]))
    with (np_var 0 (map Some [0; 1; 5])).
  rewrite population_variance_spec by discriminate. f_equal.
  unfold population_variance, sum_sq_dev, Rmean, Rsum. simpl. field.
Qed.

(** In binary64 the square of a nonzero variance can be zero. *)
Example squared_variance_underflows_in_binary64 :
  PrimFloat.eqb Binary64.tiny_variance Binary64.zero = false /\
  PrimFloat.eqb (PrimFloat.mul Binary64.tiny_variance Binary64.tiny_variance)
                Binary64.zero = true.
Proof. split; reflexivity. Qed.

(** ** Samplers that return fewer draws than asked for *)

(** With one draw where two outer draws are asked for, the second outer
    draw does not exist: line 119 raises [IndexError]. *)
Example one_draw_sampler_index_error :
  get_shapley identity_permutation sum_model (ramp_Xall 2) one_draw_Xcond
              "random" 1 2 3 2 1 tt
  = Raised IndexError.
Proof. reflexivity. Qed.

(** With one draw where two inner draws are asked for, the inner sample has
    one row and the replicated outer draw two: line 123 raises
    [ValueError]. *)
Example one_draw_sampler_value_error :
  get_shapley identity_permutation sum_model (ramp_Xall 2) one_draw_Xcond
              "random" 1 2 3 1 2 tt
  = Raised ValueError.
Proof. reflexivity. Qed.

Close Scope R_scope.

(** * Further properties of the routine *)

(** ** Random mode (lines 93-98) *)

Lemma draws_S {G} (rp : nat -> G -> list nat * G) (n k : nat) (g : G) :
  draws rp n (S k) g
  = (fst (rp n g) :: fst (draws rp n k (snd (rp n g))),
     snd (draws rp n k (snd (rp n g)))).
Proof.
  cbn [draws]. destruct (rp n g) as [row g1]. cbn [fst snd].
  now destruct (draws rp n k g1).
Qed.

Lemma draws_snoc {G} (rp : nat -> G -> list nat * G) (n k : nat) (g : G) :
  draws rp n (S k) g
  = (fst (draws rp n k g) ++ [fst (rp n (snd (draws rp n k g)))],
     snd (rp n (snd (draws rp n k g)))).
Proof.
  revert g; induction k as [|k IH]; intros g.
  - rewrite draws_S. reflexivity.
  - rewrite (draws_S rp n (S k) g), IH, (draws_S rp n k g). reflexivity.
Qed.

Lemma draws_length {G} (rp : nat -> G -> list nat * G) (n k : nat) (g : G) :
  length (fst (draws rp n k g)) = k.
Proof.
  revert g; induction k as [|k IH]; intros g; [reflexivity|].
  cbn [draws]. destruct (rp n g) as [row g1].
  specialize (IH g1). destruct (draws rp n k g1) as [rows g2].
  cbn [fst length] in *. now rewrite IH.
Qed.

Lemma random_fill {G} (rp : nat -> G -> list nat * G)
    (n_perms n_inputs k : nat) (g : G) :
  k <= n_perms ->
  for_eachM (range 0 k)
    (fun i permutations g =>
       let (row, g') := rp n_inputs g in
       lift (setitem permutations i row) g')
    (repeat (repeat 0 n_inputs) n_perms) g
  = Returned (fst (draws rp n_inputs k g)
              ++ repeat (repeat 0 n_inputs) (n_perms - k),
              snd (draws rp n_inputs k g)).
Proof.
  induction k as [|k IH]; intros Hk.
  - cbn [range Nat.sub seq for_eachM draws fst snd app]. unfold ret.
    now rewrite Nat.sub_0_r.
  - rewrite range_S, for_eachM_app, IH by lia.
    cbn [for_eachM]. unfold bind, ret, lift.
    rewrite draws_snoc. cbn [fst snd].
    destruct (rp n_inputs (snd (draws rp n_inputs k g))) as [row g1].
    cbn [fst snd].
    rewrite setitem_ok
      by (rewrite length_app, draws_length, repeat_length; lia).
    rewrite update_after_prefix by apply draws_length.
    do 2 f_equal. f_equal.
    replace (n_perms - k) with (S (n_perms - S k)) by lia. reflexivity.
Qed.

Lemma draws_nth {G} (rp : nat -> G -> list nat * G) (n k i : nat) (g : G) :
  i < k ->
  nth_error (fst (draws rp n k g)) i
  = Some (fst (rp n (snd (draws rp n i g)))).
Proof.
  induction k as [|k IH]; intros Hi; [lia|].
  rewrite draws_snoc. cbn [fst].
  destruct (Nat.eq_dec i k) as [->|Hne].
  - rewrite nth_error_app2 by (rewrite draws_length; lia).
    now rewrite draws_length, Nat.sub_diag.
  - rewrite nth_error_app1 by (rewrite draws_length; lia). apply IH. lia.
Qed.

Lemma random_mode_generates {G} (rp : nat -> G -> list nat * G)
    (method : string) (n_perms n_inputs : nat) (g : G) :
  method <> "exact"%string ->
  generate_permutations rp method n_perms n_inputs g
  = Returned ((fst (draws rp n_inputs n_perms g), n_perms),
              snd (draws rp n_inputs n_perms g)).
Proof.
  intros Hm. unfold generate_permutations.
  apply String.eqb_neq in Hm. rewrite Hm. unfold bind.
  rewrite random_fill by lia. unfold ret.
  rewrite Nat.sub_diag. cbn [repeat]. rewrite app_nil_r.
  now rewrite draws_length.
Qed.

(** Property X1.  Random mode.  For every method string other than
    "exact" the generator returns exactly [n_perms] rows and reports
    [n_perms] unchanged; row [i] is the result of the [i]-th call of
    [np.random.permutation(n_inputs)], each call starting from the
    generator state the previous one left; nothing is filtered or
    deduplicated, and nothing is raised. *)
Theorem random_mode_draws_in_order
    (G : Type) (np_random_permutation : nat -> G -> list nat * G)
    (method : string) (n_perms n_inputs : nat) (g : G) :
  method <> "exact"%string ->
  exists permutations g',
    generate_permutations np_random_permutation method n_perms n_inputs g
    = Returned ((permutations, n_perms), g') /\
    length permutations = n_perms /\
    draws np_random_permutation n_inputs n_perms g = (permutations, g') /\
    forall i, i < n_perms ->
      nth_error permutations i
      = Some (fst (np_random_permutation n_inputs
                     (snd (draws np_random_permutation n_inputs i g)))).
Proof.
  intros Hm.
  exists (fst (draws np_random_permutation n_inputs n_perms g)),
         (snd (draws np_random_permutation n_inputs n_perms g)).
  split; [now apply random_mode_generates|].
  split; [apply draws_length|]. split.
  - now destruct (draws np_random_permutation n_inputs n_perms g).
  - intros i Hi. now apply draws_nth.
Qed.

Lemma random_mode_draws_in_order_witness :
  exists permutations g',
    generate_permutations identity_permutation "random" 2 3 tt
    = Returned ((permutations, 2), g') /\
    length permutations = 2 /\
    draws identity_permutation 3 2 tt = (permutations, g') /\
    forall i, i < 2 ->
      nth_error permutations i
      = Some (fst (identity_permutation 3
                     (snd (draws identity_permutation 3 i tt)))).
Proof.
  apply random_mode_draws_in_order. discriminate.
Defined.

(** ** No inputs (line 101) *)

(** Property X2.  No inputs.  With [n_inputs = 0] the row count of line 101
    is [n_output - n_perms * n_outer * n_inner] (with [n_perms = 1] in exact
    mode, where the only permutation is the empty one); when it is negative
    [np.zeros] raises a [ValueError], before any collaborator is called. *)
Theorem no_inputs_negative_row_count
    (G : Type) (np_random_permutation : nat -> G -> list nat * G)
    (model : matrix -> M G (list float)) (Xall : nat -> M G matrix)
    (Xcond : nat -> list nat -> option (list nat) -> option (list float)
             -> M G matrix)
    (method : string) (n_perms n_output n_outer n_inner : nat) (g : G) :
  n_output
  < (if String.eqb method "exact" then 1 else n_perms) * n_outer * n_inner ->
  get_shapley np_random_permutation model Xall Xcond method
              n_perms 0 n_output n_outer n_inner g
  = Raised ValueError.
Proof.
  intros Hneg. unfold get_shapley, bind.
  assert (Hg : exists permutations g',
             generate_permutations np_random_permutation method n_perms 0 g
             = Returned ((permutations,
                          if String.eqb method "exact" then 1 else n_perms),
                         g')).
  { destruct (String.eqb method "exact") eqn:Em.
    - apply String.eqb_eq in Em. subst method.
      exists [[]], g. reflexivity.
    - apply String.eqb_neq in Em. eexists. eexists.
      now apply random_mode_generates. }
  destruct Hg as (permutations & g' & ->). cbn [fst snd].
  unfold build_design, bind, lift, np_zeros2.
  destruct (design_rows _ 0 n_output n_outer n_inner <? 0)%Z eqn:E;
    [reflexivity|].
  apply Z.ltb_ge in E. unfold design_rows in E. nia.
Qed.

Lemma no_inputs_negative_row_count_witness :
  get_shapley identity_permutation sum_model (ramp_Xall 0) ramp_Xcond
              "random" 2 0 3 1 2 tt
  = Raised ValueError.
Proof.
  apply no_inputs_negative_row_count. simpl. lia.
Defined.

(** ** The conditional blocks of the finished design (lines 104-125) *)

(** Each entry of a list of results was returned by the call on the entry's
    argument, at some state of the run. *)
Lemma mapM_nth {G A B} (f : A -> M G B) (l : list A) (g g' : G)
    (bs : list B) (k : nat) (da : A) (db : B) :
  mapM f l g = Returned (bs, g') -> k < length l ->
  exists ga gb, f (nth k l da) ga = Returned (nth k bs db, gb).
Proof.
  revert g bs k. induction l as [|x t IH]; intros g bs k E Hk;
    [simpl in Hk; lia|].
  cbn [mapM] in E. unfold bind, ret in E.
  destruct (f x g) as [[y g1]|e] eqn:Ex; [|discriminate].
  cbn [fst snd] in E.
  destruct (mapM f t g1) as [[ys g2]|e] eqn:Et; [|discriminate].
  cbn [fst snd] in E. injection E as <- <-.
  destruct k as [|k].
  - exists g, g1. exact Ex.
  - cbn [nth]. apply (IH g1 ys k Et). simpl in Hk. lia.
Qed.

Lemma nth_range (a b k : nat) : k < b - a -> nth k (range a b) 0 = a + k.
Proof. intros H. unfold range. now rewrite seq_nth. Qed.

Lemma length_range (a b : nat) : length (range a b) = b - a.
Proof. unfold range. apply length_seq. Qed.

(** What the sampling calls of triple [(p, j, l)] were and what they
    returned, read off the draws of a run. *)
Lemma samples_calls {G}
    (Xcond : nat -> list nat -> option (list nat) -> option (list float)
             -> M G matrix)
    (permutations : list (list nat))
    (n_perms n_inputs n_outer n_inner : nat) (g g' : G)
    (tr : list (list (matrix * list matrix))) (p j l : nat) :
  samples Xcond permutations n_perms n_inputs n_outer n_inner g
  = Returned (tr, g') ->
  in_range n_perms n_inputs n_outer p j l ->
  exists xjc_sampled xjc ga gb gc gd,
    Xcond n_outer (slice_from j (nth p permutations [])) None None ga
    = Returned (outer_sample tr p j, gb) /\
    np_T n_outer (outer_sample tr p j) = Returned xjc_sampled /\
    getitem xjc_sampled l = Returned xjc /\
    Xcond n_inner (slice_to j (nth p permutations []))
          (Some (slice_from j (nth p permutations []))) (Some xjc) gc
    = Returned (inner_sample tr p j l, gd).
Proof.
  intros E (Hp & Hj & Hl). unfold samples in E.
  destruct (@mapM_nth G _ _ _ _ g g' tr p 0 [] E) as (g1 & g2 & Ep);
    [rewrite length_range; lia|].
  rewrite nth_range in Ep by lia. cbn [Nat.add] in Ep.
  unfold sample_perm, bind, lift in Ep.
  destruct (getitem permutations p) as [perms|e] eqn:Eg; [|discriminate].
  assert (Hperms : perms = nth p permutations []).
  { unfold getitem in Eg.
    destruct (nth_error permutations p) as [x|] eqn:En; [|discriminate].
    injection Eg as <-. symmetry. now apply nth_error_nth. }
  cbn [fst snd] in Ep. subst perms.
  destruct (@mapM_nth G _ _ _ _ g1 g2 (nth p tr []) (j - 1) 0 ([], []) Ep)
    as (g3 & g4 & Es); [rewrite length_range; lia|].
  rewrite nth_range in Es by lia.
  replace (1 + (j - 1)) with j in Es by lia.
  unfold sample_split, bind, lift, ret in Es.
  destruct (Xcond n_outer (slice_from j (nth p permutations [])) None None g3)
    as [[X g5]|e] eqn:EX; [|discriminate].
  cbn [fst snd] in Es.
  destruct (np_T n_outer X) as [xs|e] eqn:ET; [|discriminate].
  cbn [fst snd] in Es.
  destruct (mapM _ (range 0 n_outer) g5) as [[inner g6]|e] eqn:Ei;
    [|discriminate].
  cbn [fst snd] in Es. injection Es as Eb _.
  assert (Ho : outer_sample tr p j = X)
    by (unfold outer_sample; now rewrite <- Eb).
  assert (Hi : inner_sample tr p j l = nth l inner [])
    by (unfold inner_sample; now rewrite <- Eb).
  destruct (@mapM_nth G _ _ _ _ g5 g6 inner l 0 [] Ei) as (g7 & g8 & El);
    [rewrite length_range; lia|].
  rewrite nth_range in El by lia. cbn [Nat.add] in El.
  unfold sample_inner, bind, lift in El.
  destruct (getitem xs l) as [xjc|e] eqn:Ex; [|discriminate].
  cbn [fst snd] in El.
  exists xs, xjc, g3, g5, g7, g8.
  rewrite Ho, Hi. repeat split; assumption.
Qed.

Lemma nth_transpose (n k : nat) (X : matrix) :
  k < n -> nth k (transpose n X) [] = column nan k X.
Proof.
  intros Hk. unfold transpose.
  rewrite (nth_indep _ [] (column nan 0 X))
    by (rewrite length_map, length_seq; lia).
  rewrite (map_nth (fun i => column nan i X)), seq_nth by lia.
  reflexivity.
Qed.

(** The entries of the block made of an outer and an inner sample. *)
Lemma block_rows_entry (perms : list nat)
    (n_inputs n_outer n_inner j l i q : nat) (Xout Xin : matrix) :
  Permutation perms (seq 0 n_inputs) -> 1 <= j < n_inputs -> l < n_outer ->
  shaped (n_inputs - j) n_outer Xout -> shaped j n_inner Xin ->
  i < n_inner -> q < n_inputs ->
  nth (nth q perms 0)
      (nth i (block_rows perms n_outer n_inner Xout l Xin) []) nan
  = if q <? j then nth i (nth q Xin []) nan
    else nth l (nth (q - j) Xout []) nan.
Proof.
  intros Hp Hj Hl [Hol How] [Hil Hiw] Hi Hq.
  assert (Hlp : length perms = n_inputs)
    by (rewrite (Permutation_length Hp); apply length_seq).
  unfold block_rows.
  set (xjc := nth l (transpose n_outer Xout) []).
  set (f := fun r : list float =>
              map (fun c => nth c (r ++ xjc) nan) (np_argsort perms)).
  assert (Htl : length (transpose n_inner Xin) = n_inner)
    by (unfold transpose; now rewrite length_map, length_seq).
  rewrite (nth_indep _ [] (f [])) by (rewrite length_map; lia).
  rewrite (map_nth f). unfold f.
  pose proof (perm_seq_bound Hp Hq) as Hb.
  rewrite (nth_indep _ nan (nth 0 (nth i (transpose n_inner Xin) [] ++ xjc)
                                nan))
    by (rewrite length_map, np_argsort_length; lia).
  rewrite (map_nth (fun c => nth c (nth i (transpose n_inner Xin) [] ++ xjc)
                                  nan)).
  rewrite (np_argsort_inverse Hp Hq).
  assert (Hx : xjc = column nan l Xout)
    by (unfold xjc; now apply nth_transpose).
  rewrite nth_transpose, Hx by exact Hi. unfold column.
  destruct (q <? j) eqn:Eq.
  - apply Nat.ltb_lt in Eq.
    rewrite app_nth1 by (rewrite length_map; lia).
    rewrite (nth_indep _ nan (nth i [] nan)) by (rewrite length_map; lia).
    now rewrite (map_nth (fun row => nth i row nan)).
  - apply Nat.ltb_ge in Eq.
    rewrite app_nth2 by (rewrite length_map; lia).
    rewrite length_map, Hil.
    rewrite (nth_indep _ nan (nth l [] nan)) by (rewrite length_map; lia).
    now rewrite (map_nth (fun row => nth l row nan)).
Qed.

(** Property X3.  The conditional blocks of the finished design.  With
    samplers that return arrays of one row per requested input and one
    column per requested draw, valid permutations and [n_inputs >= 1], the
    builder returns a design, and the conditional sampler, called in the
    order of the loops from the state the unconditional sampler left, ends
    in the same state.  For every triple [(p, j, l)] the builder visits:
    the outer sample is what [Xcond(n_outer, perms[j:], None, None)]
    returned, [xjc] is row [l] of its transpose, of length [n_inputs - j],
    and the inner sample is what [Xcond(n_inner, perms[:j], perms[j:], xjc)]
    returned; and in row [i] of the [n_inner] rows starting at the offset of
    line 124 the column of input [perms[q]] holds draw [i] of the [q]-th
    input of the inner sample when [q < j], and entry [q - j] of [xjc] when
    [q >= j].  No later write disturbs an earlier block. *)
Theorem design_blocks_hold_their_outer_draw
    (G : Type) (Xall : nat -> M G matrix)
    (Xcond : nat -> list nat -> option (list nat) -> option (list float)
             -> M G matrix)
    (permutations : list (list nat))
    (n_perms n_inputs n_output n_outer n_inner : nat) (g : G) :
  (forall n g, exists X g', Xall n g = Returned (X, g') /\
                            shaped n_inputs n X) ->
  (forall n S Sc x g,
     exists X g', Xcond n S Sc x g = Returned (X, g') /\
                  shaped (length S) n X) ->
  length permutations = n_perms ->
  Forall (fun perms => Permutation perms (seq 0 n_inputs)) permutations ->
  1 <= n_inputs ->
  exists X g1 tr design g',
    Xall n_output g = Returned (X, g1) /\
    samples Xcond permutations n_perms n_inputs n_outer n_inner g1
    = Returned (tr, g') /\
    build_design Xall Xcond permutations n_perms n_inputs n_output n_outer
                 n_inner g
    = Returned (design, g') /\
    forall p j l,
      in_range n_perms n_inputs n_outer p j l ->
      let perms := nth p permutations [] in
      exists xjc_sampled xjc ga gb gc gd,
        Xcond n_outer (slice_from j perms) None None ga
        = Returned (outer_sample tr p j, gb) /\
        np_T n_outer (outer_sample tr p j) = Returned xjc_sampled /\
        getitem xjc_sampled l = Returned xjc /\
        Xcond n_inner (slice_to j perms) (Some (slice_from j perms))
              (Some xjc) gc
        = Returned (inner_sample tr p j l, gd) /\
        length xjc = n_inputs - j /\
        forall i q, i < n_inner -> q < n_inputs ->
          nth (nth q perms 0)
              (nth (inner_indices n_inputs n_output n_outer n_inner p j l + i)
                   design [])
              nan
          = if q <? j then nth i (nth q (inner_sample tr p j l) []) nan
            else nth (q - j) xjc nan.
Proof.
  intros HXall HXcond Hlen Hperm Hn.
  destruct (@build_design_samples G Xall Xcond permutations n_perms n_inputs
              n_output n_outer n_inner HXall HXcond Hlen Hperm g Hn)
    as (X & g1 & tr & design & g' & EX & HX & Es & E & Hl & Htr & Eq).
  exists X, g1, tr, design, g'.
  split; [exact EX|]. split; [exact Es|]. split; [exact E|].
  intros p j l Hr perms. pose proof Hr as (Hp & Hj & Hlo).
  destruct (@samples_calls G Xcond permutations n_perms n_inputs n_outer
              n_inner g1 g' tr p j l Es Hr)
    as (xs & xjc & ga & gb & gc & gd & E1 & E2 & E3 & E4).
  fold perms in E1, E4.
  exists xs, xjc, ga, gb, gc, gd.
  split; [exact E1|]. split; [exact E2|]. split; [exact E3|].
  split; [exact E4|].
  destruct (Htr p Hp) as [_ Hsp].
  destruct (Hsp (j - 1)) as (So & _ & Si); [lia|].
  replace (1 + (j - 1)) with j in * by lia.
  fold (outer_sample tr p j) in So.
  specialize (Si l Hlo). fold (inner_sample tr p j l) in Si.
  destruct (np_T_shaped So) as [Et [Stl Stw]].
  rewrite Et in E2. injection E2 as <-.
  rewrite (getitem_ok [] (transpose n_outer (outer_sample tr p j))) in E3
    by lia.
  injection E3 as <-.
  assert (Hpp : Permutation perms (seq 0 n_inputs)).
  { rewrite Forall_forall in Hperm. apply Hperm, nth_In. lia. }
  split.
  { rewrite Forall_forall in Stw. apply Stw, nth_In. lia. }
  intros i q Hi Hq.
  destruct (transpose_shaped n_output X) as [HTl _].
  pose proof (@conditional_rows_block permutations n_perms n_inputs n_output
                n_outer n_inner tr Hlen Hperm (transpose n_output X) p j l
                HTl Hr) as Hb.
  rewrite <- Eq in Hb. fold perms in Hb.
  assert (Hrow :
            nth (inner_indices n_inputs n_output n_outer n_inner p j l + i)
                design []
            = nth i (block_rows perms n_outer n_inner (outer_sample tr p j) l
                                (inner_sample tr p j l)) []).
  { rewrite <- Hb, nth_firstn.
    replace (i <? n_inner) with true by (symmetry; now apply Nat.ltb_lt).
    now rewrite nth_skipn. }
  rewrite Hrow.
  rewrite (@block_rows_entry perms n_inputs n_outer n_inner j l i q
             (outer_sample tr p j) (inner_sample tr p j l)
             Hpp Hj Hlo So Si Hi Hq).
  destruct (q <? j) eqn:Eqj; [reflexivity|].
  apply Nat.ltb_ge in Eqj.
  rewrite nth_transpose by exact Hlo. unfold column.
  destruct So as [Sol _].
  rewrite (nth_indep (map (fun row => nth l row nan) (outer_sample tr p j))
                     nan (nth l [] nan))
    by (rewrite length_map; lia).
  now rewrite (map_nth (fun row => nth l row nan)).
Qed.

Lemma design_blocks_hold_their_outer_draw_witness :
  exists X g1 tr design g',
    ramp_Xall 2 3 tt = Returned (X, g1) /\
    samples ramp_Xcond [[0; 1]; [1; 0]] 2 2 1 2 g1 = Returned (tr, g') /\
    build_design (ramp_Xall 2) ramp_Xcond [[0; 1]; [1; 0]] 2 2 3 1 2 tt
    = Returned (design, g') /\
    forall p j l,
      in_range 2 2 1 p j l ->
      let perms := nth p [[0; 1]; [1; 0]] [] in
      exists xjc_sampled xjc ga gb gc gd,
        ramp_Xcond 1 (slice_from j perms) None None ga
        = Returned (outer_sample tr p j, gb) /\
        np_T 1 (outer_sample tr p j) = Returned xjc_sampled /\
        getitem xjc_sampled l = Returned xjc /\
        ramp_Xcond 2 (slice_to j perms) (Some (slice_from j perms))
                   (Some xjc) gc
        = Returned (inner_sample tr p j l, gd) /\
        length xjc = 2 - j /\
        forall i q, i < 2 -> q < 2 ->
          nth (nth q perms 0)
              (nth (inner_indices 2 3 1 2 p j l + i) design []) nan
          = if q <? j then nth i (nth q (inner_sample tr p j l) []) nan
            else nth (q - j) xjc nan.
Proof.
  apply design_blocks_hold_their_outer_draw.
  - intros n g. apply ramp_Xall_shape.
  - apply ramp_Xcond_shape.
  - reflexivity.
  - repeat constructor.
  - lia.
Defined.

(** ** Every conditional row is written (lines 101 and 124) *)

Lemma rank_onto (n_perms n_inputs n_outer k : nat) :
  k < n_perms * (n_inputs - 1) * n_outer ->
  exists p j l,
    in_range n_perms n_inputs n_outer p j l /\ rank n_inputs n_outer p j l = k.
Proof.
  intros Hk.
  assert (Ho : n_outer <> 0) by nia.
  assert (Hi : n_inputs - 1 <> 0) by nia.
  exists (k / n_outer / (n_inputs - 1)),
         (S ((k / n_outer) mod (n_inputs - 1))), (k mod n_outer).
  pose proof (Nat.div_mod_eq k n_outer) as E1.
  pose proof (Nat.div_mod_eq (k / n_outer) (n_inputs - 1)) as E2.
  pose proof (Nat.mod_upper_bound k n_outer Ho) as B1.
  pose proof (Nat.mod_upper_bound (k / n_outer) (n_inputs - 1) Hi) as B2.
  set (l := k mod n_outer) in *. set (m := k / n_outer) in *.
  set (t := m mod (n_inputs - 1)) in *. set (p := m / (n_inputs - 1)) in *.
  unfold in_range, rank. split; [|nia].
  split; [|split; [lia|exact B1]].
  destruct (le_lt_dec n_perms p) as [Hge|Hlt]; [|exact Hlt].
  exfalso.
  assert (H1 : n_perms * (n_inputs - 1) <= p * (n_inputs - 1))
    by (apply Nat.mul_le_mono_r; exact Hge).
  assert (H2 : n_perms * (n_inputs - 1) <= m) by lia.
  assert (H3 : n_perms * (n_inputs - 1) * n_outer <= m * n_outer)
    by (apply Nat.mul_le_mono_r; exact H2).
  lia.
Qed.

(** Property X4.  The blocks tile the conditional part of the design.
    For [n_inputs >= 1], every row index from [n_output] up to the row count
    of line 101 lies in the block of exactly one triple [(p, j, l)] the
    builder visits: no allocated row keeps its [np.zeros] content, and none
    is written twice. *)
Theorem every_conditional_row_is_in_one_block
    (n_perms n_inputs n_output n_outer n_inner r : nat) :
  1 <= n_inputs ->
  (Z.of_nat n_output <= Z.of_nat r
   < design_rows n_perms n_inputs n_output n_outer n_inner)%Z ->
  exists p j l,
    in_range n_perms n_inputs n_outer p j l /\
    inner_indices n_inputs n_output n_outer n_inner p j l <= r
    < inner_indices n_inputs n_output n_outer n_inner p j l + n_inner /\
    forall p' j' l',
      in_range n_perms n_inputs n_outer p' j' l' ->
      inner_indices n_inputs n_output n_outer n_inner p' j' l' <= r
      < inner_indices n_inputs n_output n_outer n_inner p' j' l' + n_inner ->
      p' = p /\ j' = j /\ l' = l.
Proof.
  intros Hn Hr. rewrite design_rows_nat in Hr by exact Hn.
  assert (Hr' : n_output <= r
                < n_output + n_perms * (n_inputs - 1) * n_outer * n_inner)
    by lia.
  clear Hr.
  assert (Hin : n_inner <> 0) by nia.
  pose proof (Nat.div_mod_eq (r - n_output) n_inner) as E.
  pose proof (Nat.mod_upper_bound (r - n_output) n_inner Hin) as B.
  destruct (@rank_onto n_perms n_inputs n_outer ((r - n_output) / n_inner))
    as (p & j & l & Hrange & Hrank).
  { set (k := (r - n_output) / n_inner) in *.
    destruct (le_lt_dec (n_perms * (n_inputs - 1) * n_outer) k) as [Hge|Hlt];
      [exfalso|exact Hlt].
    assert (H1 : n_perms * (n_inputs - 1) * n_outer * n_inner <= k * n_inner)
      by (apply Nat.mul_le_mono_r; exact Hge).
    lia. }
  exists p, j, l. split; [exact Hrange|].
  assert (Hhere :
            inner_indices n_inputs n_output n_outer n_inner p j l <= r
            < inner_indices n_inputs n_output n_outer n_inner p j l + n_inner).
  { rewrite inner_indices_rank, Hrank. nia. }
  split; [exact Hhere|].
  intros p' j' l' Hrange' Hthere.
  now apply (@blocks_disjoint n_perms n_inputs n_output n_outer n_inner
               p' j' l' p j l r).
Qed.

Lemma every_conditional_row_is_in_one_block_witness :
  exists p j l,
    in_range 2 3 2 p j l /\
    inner_indices 3 4 2 5 p j l <= 31 < inner_indices 3 4 2 5 p j l + 5 /\
    forall p' j' l',
      in_range 2 3 2 p' j' l' ->
      inner_indices 3 4 2 5 p' j' l' <= 31
      < inner_indices 3 4 2 5 p' j' l' + 5 ->
      p' = p /\ j' = j /\ l' = l.
Proof.
  apply every_conditional_row_is_in_one_block; [lia|].
  unfold design_rows. lia.
Defined.

(** ** How often the conditional sampler is called (lines 104-125) *)

Section Calls.
Variable G : Type.
Variable calls : G -> nat.

Lemma for_eachM_calls {A St} (c : nat) (l : list A)
    (body : A -> St -> M G St) :
  (forall x s g s' g', In x l -> body x s g = Returned (s', g') ->
     calls g' = calls g + c) ->
  forall s g s' g',
    for_eachM l body s g = Returned (s', g') ->
    calls g' = calls g + length l * c.
Proof.
  induction l as [|x t IH]; intros Hstep s g s' g'.
  - cbn [for_eachM]. unfold ret. intros [= <- <-]. cbn. lia.
  - cbn [for_eachM length]. unfold bind.
    destruct (body x s g) as [[s1 g1]|e] eqn:E; [|discriminate].
    intros Ht.
    rewrite (IH (fun y s g s' g' Hy => Hstep y s g s' g' (or_intror Hy))
                s1 g1 s' g' Ht).
    rewrite (Hstep x s g s1 g1 (or_introl eq_refl) E). lia.
Qed.

Lemma lift_state {A} (c : outcome A) (g g' : G) (a : A) :
  lift c g = Returned (a, g') -> g' = g.
Proof. unfold lift. destruct c; [now intros [= _ <-]|discriminate]. Qed.

Variable np_random_permutation : nat -> G -> list nat * G.
Variable model : matrix -> M G (list float).
Variable Xall : nat -> M G matrix.
Variable Xcond :
  nat -> list nat -> option (list nat) -> option (list float) -> M G matrix.

Hypothesis Hrandom_calls : forall n g,
  calls (snd (np_random_permutation n g)) = calls g.
Hypothesis Hmodel_calls : forall X g out g',
  model X g = Returned (out, g') -> calls g' = calls g.
Hypothesis HXall_calls : forall n g X g',
  Xall n g = Returned (X, g') -> calls g' = calls g.
Hypothesis HXcond_calls : forall n S Sc x g X g',
  Xcond n S Sc x g = Returned (X, g') -> calls g' = calls g + 1.

Lemma generate_permutations_calls (method : string) (n_perms n_inputs : nat)
    (g g' : G) (pn : list (list nat) * nat) :
  generate_permutations np_random_permutation method n_perms n_inputs g
  = Returned (pn, g') ->
  calls g' = calls g.
Proof.
  unfold generate_permutations.
  destruct (String.eqb method "exact"); [unfold ret; now intros [= _ <-]|].
  unfold bind.
  destruct (for_eachM _ _ _ g) as [[perms g1]|e] eqn:E; [|discriminate].
  unfold ret. intros [= _ <-].
  eapply (@for_eachM_calls nat (list (list nat)) 0) in E; [lia|].
  intros i permutations g0 s' g0' _.
  pose proof (Hrandom_calls n_inputs g0) as Hc.
  destruct (np_random_permutation n_inputs g0) as [row g2].
  cbn [snd] in Hc. intros Hl. apply lift_state in Hl. subst. lia.
Qed.

Lemma build_block_calls (n_inputs n_output n_outer n_inner p j : nat)
    (perms_sorted Sj Sjc : list nat) (xjc_sampled : matrix) (l : nat)
    (design design' : matrix) (g g' : G) :
  build_block Xcond n_inputs n_output n_outer n_inner p j perms_sorted
              Sj Sjc xjc_sampled l design g
  = Returned (design', g') ->
  calls g' = calls g + 1.
Proof.
  unfold build_block, bind.
  destruct (lift (getitem xjc_sampled l) g) as [[xjc g1]|e] eqn:E1;
    [|discriminate].
  apply lift_state in E1. subst g1.
  destruct (Xcond n_inner Sj (Some Sjc) (Some xjc) g) as [[X g2]|e] eqn:E2;
    [|discriminate].
  apply HXcond_calls in E2.
  destruct (lift (np_T n_inner X) g2) as [[sample_inputs g3]|e] eqn:E3;
    [|discriminate].
  apply lift_state in E3. subst g3.
  destruct (lift (inner_block _ _ _ _) g2) as [[block g3]|e] eqn:E4;
    [|discriminate].
  apply lift_state in E4. subst g3.
  destruct (lift (index_check _ _) g2) as [[checked g3]|e] eqn:E5;
    [|discriminate].
  apply lift_state in E5. subst g3.
  intros E6. apply lift_state in E6. now subst.
Qed.

Lemma build_split_calls (n_inputs n_output n_outer n_inner p : nat)
    (perms perms_sorted : list nat) (j : nat)
    (design design' : matrix) (g g' : G) :
  build_split Xcond n_inputs n_output n_outer n_inner p perms perms_sorted
              j design g
  = Returned (design', g') ->
  calls g' = calls g + (n_outer + 1).
Proof.
  unfold build_split, bind.
  destruct (Xcond n_outer (slice_from j perms) None None g)
    as [[X g1]|e] eqn:E1; [|discriminate].
  apply HXcond_calls in E1.
  destruct (lift (np_T n_outer X) g1) as [[xjc_sampled g2]|e] eqn:ET;
    [|discriminate].
  apply lift_state in ET. subst g2.
  intros E2.
  eapply (@for_eachM_calls nat matrix 1) in E2.
  - unfold range in E2. rewrite length_seq in E2. lia.
  - intros l d g2 d' g2' _. apply build_block_calls.
Qed.

Lemma build_perm_calls (permutations : list (list nat))
    (n_inputs n_output n_outer n_inner p : nat)
    (design design' : matrix) (g g' : G) :
  build_perm Xcond permutations n_inputs n_output n_outer n_inner p design g
  = Returned (design', g') ->
  calls g' = calls g + (n_inputs - 1) * (n_outer + 1).
Proof.
  unfold build_perm, bind.
  destruct (lift (getitem permutations p) g) as [[perms g1]|e] eqn:E1;
    [|discriminate].
  apply lift_state in E1. subst g1.
  intros E2.
  eapply (@for_eachM_calls nat matrix (n_outer + 1)) in E2.
  - unfold range in E2. now rewrite length_seq in E2.
  - intros j d g2 d' g2' _. apply build_split_calls.
Qed.

Lemma build_design_calls (permutations : list (list nat))
    (n_perms n_inputs n_output n_outer n_inner : nat)
    (design : matrix) (g g' : G) :
  build_design Xall Xcond permutations n_perms n_inputs n_output n_outer
               n_inner g
  = Returned (design, g') ->
  calls g' = calls g + n_perms * ((n_inputs - 1) * (n_outer + 1)).
Proof.
  unfold build_design, bind.
  destruct (lift (np_zeros2 _ _) g) as [[zeros g1]|e] eqn:E1; [|discriminate].
  apply lift_state in E1. subst g1.
  destruct (Xall n_output g) as [[X g2]|e] eqn:E2; [|discriminate].
  apply HXall_calls in E2.
  destruct (lift (np_T n_output X) g2) as [[unconditional g3]|e] eqn:ET;
    [|discriminate].
  apply lift_state in ET. subst g3.
  destruct (lift (assign_rows _ _ _ _ _ _) g2) as [[d0 g3]|e] eqn:E3;
    [|discriminate].
  apply lift_state in E3. subst g3.
  intros E4.
  eapply (@for_eachM_calls nat matrix ((n_inputs - 1) * (n_outer + 1)))
    in E4.
  - unfold range in E4. rewrite length_seq in E4. lia.
  - intros p d g4 d' g4' _. apply build_perm_calls.
Qed.

Lemma get_shapley_calls (method : string)
    (n_perms n_inputs n_output n_outer n_inner : nat)
    (df : DataFrame) (g g' : G) :
  get_shapley np_random_permutation model Xall Xcond method
              n_perms n_inputs n_output n_outer n_inner g
  = Returned (df, g') ->
  calls g'
  = calls g
    + (if String.eqb method "exact" then fact n_inputs else n_perms)
      * ((n_inputs - 1) * (n_outer + 1)).
Proof.
  unfold get_shapley, bind.
  destruct (generate_permutations _ _ _ _ g) as [[pn g1]|e] eqn:E1;
    [|discriminate].
  pose proof (generate_permutations_calls _ _ _ _ E1) as C1.
  assert (Hn : snd pn
               = if String.eqb method "exact" then fact n_inputs
                 else n_perms).
  { destruct (String.eqb method "exact") eqn:Em.
    - unfold generate_permutations in E1. rewrite Em in E1.
      unfold ret in E1. injection E1 as <- _. cbn [snd].
      apply itertools_permutations_length. rewrite range_0. apply length_seq.
    - apply String.eqb_neq in Em.
      rewrite (random_mode_generates np_random_permutation n_perms n_inputs
                 g Em) in E1.
      now injection E1 as <- _. }
  destruct (build_design _ _ _ _ _ _ _ _ g1) as [[design g2]|e] eqn:E2;
    [|discriminate].
  apply build_design_calls in E2.
  destruct (model design g2) as [[out g3]|e] eqn:E3; [|discriminate].
  apply Hmodel_calls in E3.
  intros E4. apply lift_state in E4. subst g'.
  rewrite <- Hn. lia.
Qed.
End Calls.

(** Property X5.  The number of sampler calls.  Let [calls] count, on
    the state the collaborators share, the calls of the conditional
    sampler: each call of [Xcond] adds one, and [np.random.permutation],
    [Xall] and [model] leave it alone.  With samplers that return arrays of
    one row per requested input and one column per requested draw, and
    [n_inputs >= 1], the routine returns, having called [Xcond] exactly
    [n_perms * (n_inputs - 1) * (n_outer + 1)] times, where [n_perms] is
    [n_inputs!] in exact mode: once per permutation and split for the outer
    sample, and once more for each outer draw. *)
Theorem conditional_sampler_call_count
    (G : Type) (calls : G -> nat)
    (np_random_permutation : nat -> G -> list nat * G)
    (model : matrix -> M G (list float)) (Xall : nat -> M G matrix)
    (Xcond : nat -> list nat -> option (list nat) -> option (list float)
             -> M G matrix)
    (method : string) (n_perms n_inputs n_output n_outer n_inner : nat)
    (g : G) :
  (forall n g, Permutation (fst (np_random_permutation n g)) (seq 0 n)) ->
  (forall n g, calls (snd (np_random_permutation n g)) = calls g) ->
  (forall X g, exists out g',
      model X g = Returned (out, g') /\ calls g' = calls g) ->
  (forall n g, exists X g',
      Xall n g = Returned (X, g') /\ shaped n_inputs n X /\
      calls g' = calls g) ->
  (forall n S Sc x g, exists X g',
      Xcond n S Sc x g = Returned (X, g') /\ shaped (length S) n X /\
      calls g' = calls g + 1) ->
  1 <= n_inputs ->
  exists df g',
    get_shapley np_random_permutation model Xall Xcond method
                n_perms n_inputs n_output n_outer n_inner g
    = Returned (df, g') /\
    calls g'
    = calls g
      + (if String.eqb method "exact" then fact n_inputs else n_perms)
        * ((n_inputs - 1) * (n_outer + 1)).
Proof.
  intros Hrandom Hrc Hmodel HXall HXcond Hn.
  destruct (@get_shapley_returns G np_random_permutation model Xall Xcond
              Hrandom
              (fun X g => match Hmodel X g with
                          | ex_intro _ out (ex_intro _ g' (conj E _)) =>
                              ex_intro _ out (ex_intro _ g' E)
                          end)
              method n_perms n_inputs n_output n_outer n_inner g)
    as (df & g' & E).
  - intros n g0. destruct (HXall n g0) as (X & g1 & EX & HX & _).
    now exists X, g1.
  - intros n S Sc x g0.
    destruct (HXcond n S Sc x g0) as (X & g1 & EX & HX & _).
    now exists X, g1.
  - exact Hn.
  - exists df, g'. split; [exact E|].
    assert (Hm : forall X g0 out g1,
               model X g0 = Returned (out, g1) -> calls g1 = calls g0).
    { intros X g0 out g1 Em.
      destruct (Hmodel X g0) as (out' & g1' & Em' & Hc).
      rewrite Em in Em'. now injection Em' as _ <-. }
    assert (Ha : forall n g0 X g1,
               Xall n g0 = Returned (X, g1) -> calls g1 = calls g0).
    { intros n g0 X g1 EX.
      destruct (HXall n g0) as (X' & g1' & EX' & _ & Hc).
      rewrite EX in EX'. now injection EX' as _ <-. }
    assert (Hc : forall n S Sc x g0 X g1,
               Xcond n S Sc x g0 = Returned (X, g1) ->
               calls g1 = calls g0 + 1).
    { intros n S Sc x g0 X g1 EX.
      destruct (HXcond n S Sc x g0) as (X' & g1' & EX' & _ & Hc).
      rewrite EX in EX'. now injection EX' as _ <-. }
    exact (@get_shapley_calls G calls np_random_permutation model Xall Xcond
             Hrc Hm Ha Hc method n_perms n_inputs n_output n_outer n_inner
             df g g' E).
Qed.

Lemma conditional_sampler_call_count_witness :
  exists df k,
    get_shapley tally_permutation tally_model (tally_Xall 3) tally_Xcond
                "exact" 0 3 4 5 2 0
    = Returned (df, k) /\
    k = 0 + fact 3 * ((3 - 1) * (5 + 1)).
Proof.
  apply (@conditional_sampler_call_count nat (fun k => k)
           tally_permutation tally_model (tally_Xall 3) tally_Xcond
           "exact" 0 3 4 5 2 0).
  - reflexivity.
  - reflexivity.
  - intros X k. now exists (map np_sum X), k.
  - intros n k. exists (ramp 3 n), k.
    split; [reflexivity|]. split; [apply ramp_shaped|reflexivity].
  - intros n Sj Sjc xjc k. exists (ramp (length Sj) n), (S k).
    split; [reflexivity|]. split; [apply ramp_shaped|lia].
  - lia.
Defined.

(** ** Exceptions of the collaborators (lines 102, 115, 121, 128) *)

Section Failures.
Variable G : Type.
Variable np_random_permutation : nat -> G -> list nat * G.
Variable model : matrix -> M G (list float).
Variable Xall : nat -> M G matrix.
Variable Xcond :
  nat -> list nat -> option (list nat) -> option (list float) -> M G matrix.
Variable e : exn.



End Failures.



(** ** What the estimator reads of the model output (lines 135-157) *)

Lemma fold_left_ext_in {A B} (f g : A -> B -> A) (l : list B) (a : A) :
  (forall a b, In b l -> f a b = g a b) -> fold_left f l a = fold_left g l a.
Proof.
  revert a; induction l as [|b t IH]; intros a H; [reflexivity|].
  cbn [fold_left]. rewrite H by now left.
  apply IH. intros a' b' Hb. apply H. now right.
Qed.

(** A slice within the first [n] entries only depends on them. *)
Lemma slice_within_prefix {A} (n a k : nat) (l l' : list A) :
  firstn n l = firstn n l' -> a + k <= n ->
  firstn k (skipn a l) = firstn k (skipn a l').
Proof.
  intros H Hb.
  assert (E : forall m : list A,
             firstn k (skipn a m) = firstn k (skipn a (firstn n m))).
  { intros m. rewrite skipn_firstn_comm, firstn_firstn.
    now rewrite Nat.min_l by lia. }
  now rewrite (E l), (E l'), H.
Qed.

Section Prefix.
Variable permutations : list (list nat).
Variables n_perms n_inputs n_output n_outer n_inner : nat.
Variables out out' : list float.

Local Abbreviation rows :=
  (n_output + n_perms * (n_inputs - 1) * n_outer * n_inner).

Hypothesis Hprefix : firstn rows out = firstn rows out'.

Lemma variance_of_output_prefix :
  variance_of_output n_output out = variance_of_output n_output out'.
Proof.
  unfold variance_of_output, slice_to. f_equal.
  apply (@slice_within_prefix float rows 0 n_output out out' Hprefix).
  apply Nat.le_add_r.
Qed.

Lemma outputs_of_block_prefix (p j l : nat) :
  in_range n_perms n_inputs n_outer p j l ->
  outputs_of_block n_inputs n_output n_outer n_inner out p j l
  = outputs_of_block n_inputs n_output n_outer n_inner out' p j l.
Proof.
  intros Hr. unfold outputs_of_block, slice_to, slice_from.
  apply (@slice_within_prefix float rows _ _ out out' Hprefix).
  apply (@block_in_bounds n_perms n_inputs n_output n_outer n_inner p j l Hr).
Qed.

Lemma pass_cost_prefix (p j : nat) :
  p < n_perms -> j < n_inputs ->
  pass_cost n_inputs n_outer n_inner (variance_of_output n_output out)
            (pass_start n_inputs n_output n_outer n_inner out p) j
  = pass_cost n_inputs n_outer n_inner (variance_of_output n_output out')
              (pass_start n_inputs n_output n_outer n_inner out' p) j.
Proof.
  intros Hp Hj.
  destruct (Nat.eq_dec j (n_inputs - 1)) as [->|Hne].
  - rewrite !pass_cost_last. apply variance_of_output_prefix.
  - rewrite !pass_cost_blocks by lia. f_equal.
    apply map_ext_in. intros l Hl. rewrite range_0 in Hl. apply in_seq in Hl.
    rewrite outputs_of_block_prefix; [reflexivity|].
    unfold in_range. lia.
Qed.

Lemma pass_delta_prefix (p j : nat) :
  p < n_perms -> j < n_inputs ->
  pass_delta n_inputs n_outer n_inner (variance_of_output n_output out)
             (pass_start n_inputs n_output n_outer n_inner out p) j
  = pass_delta n_inputs n_outer n_inner (variance_of_output n_output out')
               (pass_start n_inputs n_output n_outer n_inner out' p) j.
Proof.
  intros Hp Hj. unfold pass_delta.
  rewrite pass_cost_prefix by assumption. f_equal.
  destruct j as [|j]; [reflexivity|].
  cbn [pass_prev]. apply pass_cost_prefix; lia.
Qed.

Lemma run_effects_prefix (k : nat) :
  k <= n_perms ->
  run_effects permutations n_inputs n_output n_outer n_inner out k
  = run_effects permutations n_inputs n_output n_outer n_inner out' k.
Proof.
  intros Hk. unfold run_effects. apply fold_left_ext_in.
  intros acc p Hp. apply in_seq in Hp.
  unfold pass_effects. apply fold_left_ext_in.
  intros acc' j Hj. apply in_seq in Hj.
  rewrite pass_delta_prefix by lia. reflexivity.
Qed.

Lemma run_squares_prefix (k : nat) :
  k <= n_perms ->
  run_squares permutations n_inputs n_output n_outer n_inner out k
  = run_squares permutations n_inputs n_output n_outer n_inner out' k.
Proof.
  intros Hk. unfold run_squares. apply fold_left_ext_in.
  intros acc p Hp. apply in_seq in Hp.
  unfold pass_squares. apply fold_left_ext_in.
  intros acc' j Hj. apply in_seq in Hj.
  rewrite pass_delta_prefix by lia. reflexivity.
Qed.
End Prefix.

(** Property X7.  What the estimator reads.  The table only depends on
    the first [n_output + n_perms * (n_inputs - 1) * n_outer * n_inner]
    model outputs: two output vectors that agree on this prefix give the
    same table.  Outputs beyond the design's row count are ignored, and the
    length of the output vector is never checked. *)
Theorem estimator_reads_design_rows_only
    (permutations : list (list nat))
    (n_perms n_inputs n_output n_outer n_inner : nat)
    (out out' : list float) :
  length permutations = n_perms ->
  Forall (fun perms => Permutation perms (seq 0 n_inputs)) permutations ->
  firstn (n_output + n_perms * (n_inputs - 1) * n_outer * n_inner) out
  = firstn (n_output + n_perms * (n_inputs - 1) * n_outer * n_inner) out' ->
  exists df,
    estimate permutations n_perms n_inputs n_output n_outer n_inner out
    = Returned df /\
    estimate permutations n_perms n_inputs n_output n_outer n_inner out'
    = Returned df.
Proof.
  intros Hlen Hperm Hpre.
  pose proof (@permutations_index_lists n_inputs permutations Hperm) as Hv.
  destruct (@estimation_loops_spec permutations n_inputs n_output n_outer
              n_inner out Hv) as [s [E [_ _ Ie Is]]].
  destruct (@estimation_loops_spec permutations n_inputs n_output n_outer
              n_inner out' Hv) as [s' [E' [_ _ Ie' Is']]].
  rewrite Hlen in *.
  eexists. split; [unfold estimate; rewrite E; reflexivity|].
  unfold estimate. rewrite E'. cbn [obind]. do 2 f_equal.
  rewrite <- (@variance_of_output_prefix n_perms n_inputs n_output n_outer
                n_inner out out' Hpre).
  unfold normalize.
  rewrite Ie', Is', Ie, Is.
  rewrite <- (@run_effects_prefix permutations n_perms n_inputs n_output
                n_outer n_inner out out' Hpre n_perms (le_n _)).
  rewrite <- (@run_squares_prefix permutations n_perms n_inputs n_output
                n_outer n_inner out out' Hpre n_perms (le_n _)).
  reflexivity.
Qed.

Lemma estimator_reads_design_rows_only_witness :
  exists df,
    estimate [[0; 1]; [1; 0]] 2 2 2 1 2 (map Some [0; 1; 2; 4; 3; 7]%R)
    = Returned df /\
    estimate [[0; 1]; [1; 0]] 2 2 2 1 2
             (map Some [0; 1; 2; 4; 3; 7; 100; 200]%R ++ [nan])
    = Returned df.
Proof.
  apply estimator_reads_design_rows_only.
  - reflexivity.
  - repeat constructor.
  - reflexivity.
Defined.

(** ** Each accumulator entry, increment by increment (lines 143-164) *)

Lemma nth_bump (i i' : nat) (d : float) (a : list float) :
  i' < length a ->
  nth i (bump i' d a) nan
  = if i =? i' then fadd (nth i a nan) d else nth i a nan.
Proof.
  intros Hi'. unfold bump.
  assert (Hf : length (firstn i' a) = i') by (rewrite length_firstn; lia).
  destruct (Nat.eqb_spec i i') as [->|Hne].
  - rewrite app_nth2 by lia. rewrite Hf, Nat.sub_diag. reflexivity.
  - destruct (lt_dec i i') as [Hlt|Hge].
    + rewrite app_nth1 by lia. rewrite nth_firstn.
      destruct (i <? i') eqn:E; [reflexivity|apply Nat.ltb_ge in E; lia].
    + rewrite app_nth2 by lia. rewrite Hf.
      replace (i - i') with (S (i - S i')) by lia. cbn [nth].
      rewrite nth_skipn. f_equal. lia.
Qed.

(** [np.argsort] of a permutation gives the position of each input. *)
Lemma np_argsort_position (perm : list nat) (n i : nat) :
  Permutation perm (seq 0 n) -> i < n ->
  nth i (np_argsort perm) 0 < n /\
  nth (nth i (np_argsort perm) 0) perm 0 = i.
Proof.
  intros Hp Hi.
  assert (Hlen : length perm = n)
    by (rewrite (Permutation_length Hp); apply length_seq).
  assert (Hin : In i perm).
  { eapply Permutation_in; [symmetry; exact Hp|]. apply in_seq. lia. }
  destruct (In_nth perm i 0 Hin) as (q & Hq & Eq).
  rewrite Hlen in Hq.
  rewrite <- Eq at 1 2. rewrite (np_argsort_inverse Hp Hq).
  now split.
Qed.

Section Accumulate.
Variable f : nat -> float.
Variable perms : list nat.
Variable n : nat.
Hypothesis Hperm : Permutation perms (seq 0 n).

Lemma accumulate_length (k : nat) (acc : list float) :
  length acc = n -> k <= n ->
  length (fold_left (fun a j => bump (nth j perms 0) (f j) a) (seq 0 k) acc)
  = n.
Proof.
  intros Hacc. induction k as [|k IH]; intros Hk; [exact Hacc|].
  rewrite seq_S, fold_left_app. cbn [fold_left Nat.add].
  rewrite bump_length; [apply IH; lia|].
  rewrite IH by lia. apply (perm_seq_bound Hperm). lia.
Qed.

Lemma accumulate_nth (k i : nat) (acc : list float) :
  length acc = n -> k <= n -> i < n ->
  nth i (fold_left (fun a j => bump (nth j perms 0) (f j) a) (seq 0 k) acc)
      nan
  = if nth i (np_argsort perms) 0 <? k
    then fadd (nth i acc nan) (f (nth i (np_argsort perms) 0))
    else nth i acc nan.
Proof.
  intros Hacc Hk Hi.
  destruct (np_argsort_position Hperm Hi) as [Hq Eq].
  set (q := nth i (np_argsort perms) 0) in *.
  induction k as [|k IH]; [reflexivity|].
  rewrite seq_S, fold_left_app. cbn [fold_left Nat.add].
  assert (Hb : nth k perms 0 < n) by (apply (perm_seq_bound Hperm); lia).
  rewrite nth_bump by (rewrite accumulate_length; [exact Hb|exact Hacc|lia]).
  rewrite IH by lia.
  destruct (Nat.eqb_spec i (nth k perms 0)) as [E|E].
  - assert (Hqk : q = k).
    { unfold q. rewrite E. apply (np_argsort_inverse Hperm). lia. }
    rewrite Hqk, Nat.ltb_irrefl.
    replace (k <? S k) with true by (symmetry; apply Nat.ltb_lt; lia).
    reflexivity.
  - assert (Hqk : q <> k) by (intros ->; now apply E).
    destruct (q <? k) eqn:E1.
    + apply Nat.ltb_lt in E1.
      replace (q <? S k) with true by (symmetry; apply Nat.ltb_lt; lia).
      reflexivity.
    + apply Nat.ltb_ge in E1.
      replace (q <? S k) with false by (symmetry; apply Nat.ltb_ge; lia).
      reflexivity.
Qed.
End Accumulate.

Section RunAccumulate.
Variable permutations : list (list nat).
Variables n_perms n_inputs n_output n_outer n_inner : nat.
Variable output0 : list float.

Hypothesis Hlen : length permutations = n_perms.
Hypothesis Hperm :
  Forall (fun perms => Permutation perms (seq 0 n_inputs)) permutations.

Local Abbreviation D :=
  (fun p j =>
     pass_delta n_inputs n_outer n_inner
       (variance_of_output n_output output0)
       (pass_start n_inputs n_output n_outer n_inner output0 p) j).
Local Abbreviation pos :=
  (fun p i => nth i (np_argsort (nth p permutations [])) 0).

Lemma run_effects_nth (k i : nat) :
  k <= n_perms -> i < n_inputs ->
  nth i (run_effects permutations n_inputs n_output n_outer n_inner
                     output0 k) nan
  = fold_left (fun acc p => fadd acc (D p (pos p i))) (seq 0 k) (Some 0%R).
Proof.
  intros Hk Hi.
  pose proof (@permutations_index_lists n_inputs permutations Hperm) as Hv.
  induction k as [|k IH].
  - cbn [seq fold_left]. unfold run_effects. cbn [seq fold_left].
    unfold np_zeros. apply nth_error_nth. now apply nth_error_repeat.
  - assert (Hpk : Permutation (nth k permutations []) (seq 0 n_inputs)).
    { rewrite Forall_forall in Hperm. apply Hperm, nth_In. lia. }
    rewrite seq_S, fold_left_app. cbn [fold_left Nat.add].
    rewrite <- IH by lia.
    unfold run_effects at 1. rewrite seq_S, fold_left_app.
    cbn [fold_left Nat.add].
    fold (run_effects permutations n_inputs n_output n_outer n_inner
                      output0 k).
    unfold pass_effects.
    rewrite (@accumulate_nth (D k) (nth k permutations []) n_inputs Hpk
               n_inputs i); [|apply run_effects_length; [exact Hv|lia]|lia|lia].
    destruct (np_argsort_position Hpk Hi) as [Hq _].
    apply Nat.ltb_lt in Hq. now rewrite Hq.
Qed.

Lemma run_squares_nth (k i : nat) :
  k <= n_perms -> i < n_inputs ->
  nth i (run_squares permutations n_inputs n_output n_outer n_inner
                     output0 k) nan
  = fold_left (fun acc p => fadd acc (fmul (D p (pos p i)) (D p (pos p i))))
              (seq 0 k) (Some 0%R).
Proof.
  intros Hk Hi.
  pose proof (@permutations_index_lists n_inputs permutations Hperm) as Hv.
  induction k as [|k IH].
  - cbn [seq fold_left]. unfold run_squares. cbn [seq fold_left].
    unfold np_zeros. apply nth_error_nth. now apply nth_error_repeat.
  - assert (Hpk : Permutation (nth k permutations []) (seq 0 n_inputs)).
    { rewrite Forall_forall in Hperm. apply Hperm, nth_In. lia. }
    rewrite seq_S, fold_left_app. cbn [fold_left Nat.add].
    rewrite <- IH by lia.
    unfold run_squares at 1. rewrite seq_S, fold_left_app.
    cbn [fold_left Nat.add].
    fold (run_squares permutations n_inputs n_output n_outer n_inner
                      output0 k).
    unfold pass_squares.
    rewrite (@accumulate_nth (fun j => fmul (D k j) (D k j))
               (nth k permutations []) n_inputs Hpk n_inputs i);
      [|apply run_squares_length; [exact Hv|lia]|lia|lia].
    destruct (np_argsort_position Hpk Hi) as [Hq _].
    apply Nat.ltb_lt in Hq. now rewrite Hq.
Qed.
End RunAccumulate.

(** Property X8.  The accumulators, input by input.  Let
    [increment p j] be the value of [delta] computed at split [j] of
    permutation [p].  After the loops, entry [i] of [shapley_effects] is the
    sum over the permutations, in order, of the increment at the position
    input [i] has in each permutation, and entry [i] of
    [shapley_effects_squared] is the sum of the squares of these
    increments.  The position of [i] in a permutation is entry [i] of its
    [np.argsort]. *)
Theorem accumulators_sum_the_increments_at_each_position
    (permutations : list (list nat))
    (n_perms n_inputs n_output n_outer n_inner : nat) (output0 : list float) :
  length permutations = n_perms ->
  Forall (fun perms => Permutation perms (seq 0 n_inputs)) permutations ->
  exists (increment : nat -> nat -> float) (s : locals),
    (forall p j, p < n_perms -> j < n_inputs ->
       exists sj,
         after_split permutations n_inputs n_output n_outer n_inner output0
                     p j = Returned sj /\
         delta sj = increment p j) /\
    estimation_loops permutations n_perms n_inputs n_output n_outer n_inner
                     output0 = Returned s /\
    forall i, i < n_inputs ->
      (forall p, p < n_perms ->
         nth i (np_argsort (nth p permutations [])) 0 < n_inputs /\
         nth (nth i (np_argsort (nth p permutations [])) 0)
             (nth p permutations []) 0 = i) /\
      nth_error (shapley_effects s) i
      = Some (fold_left
                (fun acc p =>
                   fadd acc
                     (increment p
                        (nth i (np_argsort (nth p permutations [])) 0)))
                (seq 0 n_perms) (Some 0%R)) /\
      nth_error (shapley_effects_squared s) i
      = Some (fold_left
                (fun acc p =>
                   fadd acc
                     (fmul (increment p
                              (nth i (np_argsort (nth p permutations [])) 0))
                           (increment p
                              (nth i (np_argsort (nth p permutations [])) 0))))
                (seq 0 n_perms) (Some 0%R)).
Proof.
  intros Hlen Hperm.
  pose proof (@permutations_index_lists n_inputs permutations Hperm) as Hv.
  destruct (@estimation_loops_spec permutations n_inputs n_output n_outer
              n_inner output0 Hv) as [s [E [_ _ Ie Is]]].
  rewrite Hlen in *.
  exists (fun p j =>
            pass_delta n_inputs n_outer n_inner
              (variance_of_output n_output output0)
              (pass_start n_inputs n_output n_outer n_inner output0 p) j), s.
  split; [|split; [exact E|]].
  - intros p j Hp Hj.
    destruct (@after_split_spec permutations n_inputs n_output n_outer
                n_inner output0 Hv p j) as (s0 & sj & _ & Ej & _ & Hd & _);
      [lia|exact Hj|].
    now exists sj.
  - intros i Hi. split; [|split].
    + intros p Hp. apply np_argsort_position; [|exact Hi].
      rewrite Forall_forall in Hperm. apply Hperm, nth_In. lia.
    + rewrite <- (@run_effects_nth permutations n_perms n_inputs n_output
                    n_outer n_inner output0 Hlen Hperm n_perms i (le_n _) Hi).
      rewrite Ie. apply nth_error_nth'.
      rewrite run_effects_length; [exact Hi|exact Hv|lia].
    + rewrite <- (@run_squares_nth permutations n_perms n_inputs n_output
                    n_outer n_inner output0 Hlen Hperm n_perms i (le_n _) Hi).
      rewrite Is. apply nth_error_nth'.
      rewrite run_squares_length; [exact Hi|exact Hv|lia].
Qed.

Lemma accumulators_sum_the_increments_at_each_position_witness :
  exists (increment : nat -> nat -> float) (s : locals),
    (forall p j, p < 2 -> j < 2 ->
       exists sj,
         after_split [[0; 1]; [1; 0]] 2 2 1 2 (map Some six_outputs) p j
         = Returned sj /\
         delta sj = increment p j) /\
    estimation_loops [[0; 1]; [1; 0]] 2 2 2 1 2 (map Some six_outputs)
    = Returned s /\
    forall i, i < 2 ->
      (forall p, p < 2 ->
         nth i (np_argsort (nth p [[0; 1]; [1; 0]] [])) 0 < 2 /\
         nth (nth i (np_argsort (nth p [[0; 1]; [1; 0]] [])) 0)
             (nth p [[0; 1]; [1; 0]] []) 0 = i) /\
      nth_error (shapley_effects s) i
      = Some (fold_left
                (fun acc p =>
                   fadd acc
                     (increment p
                        (nth i (np_argsort (nth p [[0; 1]; [1; 0]] [])) 0)))
                (seq 0 2) (Some 0%R)) /\
      nth_error (shapley_effects_squared s) i
      = Some (fold_left
                (fun acc p =>
                   fadd acc
                     (fmul (increment p
                              (nth i (np_argsort (nth p [[0; 1]; [1; 0]] []))
                                   0))
                           (increment p
                              (nth i (np_argsort (nth p [[0; 1]; [1; 0]] []))
                                   0))))
                (seq 0 2) (Some 0%R)).
Proof.
  apply accumulators_sum_the_increments_at_each_position.
  - reflexivity.
  - repeat constructor.
Defined.

(** ** Affine changes of the model output (lines 137-167) *)

Lemma float_list_cases (xs : list float) :
  (exists rs, xs = map Some rs) \/ In None xs.
Proof.
  induction xs as [|[x|] t IH].
  - left. now exists [].
  - destruct IH as [[rs ->]|H]; [left; now exists (x :: rs)|right; now right].
  - right. now left.
Qed.

Lemma np_var_none (ddof : nat) (xs : list float) :
  In None xs -> np_var ddof xs = None.
Proof.
  intros H. unfold np_var. rewrite (@np_mean_none xs H).
  rewrite np_sum_none; [reflexivity|].
  apply in_map_iff. exists None. now split.
Qed.

Lemma fold_left_ext {A B} (f g : A -> B -> A) (l : list B) (a : A) :
  (forall a b, f a b = g a b) -> fold_left f l a = fold_left g l a.
Proof.
  intros H. revert a; induction l as [|b t IH]; intros a; [reflexivity|].
  cbn [fold_left]. now rewrite H, IH.
Qed.

Lemma block_of_map (f : float -> float) (n_inner : nat) (out : list float)
    (l : nat) :
  block_of n_inner (map f out) l = map f (block_of n_inner out l).
Proof. unfold block_of. now rewrite skipn_map, firstn_map. Qed.

Open Scope R_scope.

Lemma Rsum_scale_l (k : R) (f : R -> R) (rs : list R) :
  Rsum (map (fun x => k * f x) rs) = k * Rsum (map f rs).
Proof.
  induction rs as [|x t IH]; unfold Rsum in *; simpl; [lra|].
  rewrite IH. lra.
Qed.

Section Affine.
Variables a c : R.

Local Abbreviation sh := (fun v : float => fadd (fmul (Some a) v) (Some c)).
Local Abbreviation sc := (fun (k : R) (v : float) => fmul (Some k) v).

Lemma map_sh_some (rs : list R) :
  map sh (map Some rs) = map Some (map (fun r => a * r + c) rs).
Proof. rewrite !map_map. reflexivity. Qed.

Lemma Rsum_affine (rs : list R) :
  Rsum (map (fun r => a * r + c) rs) = a * Rsum rs + INR (length rs) * c.
Proof.
  induction rs as [|x t IH]; [unfold Rsum; simpl; lra|].
  cbn [length]. rewrite S_INR. unfold Rsum in *. simpl. rewrite IH. lra.
Qed.

Lemma Rmean_affine (rs : list R) :
  rs <> [] -> Rmean (map (fun r => a * r + c) rs) = a * Rmean rs + c.
Proof.
  intros H. unfold Rmean. rewrite Rsum_affine, length_map.
  field. apply INR_pos_neq. destruct rs; [contradiction|simpl; lia].
Qed.

Lemma sum_sq_dev_affine (rs : list R) :
  rs <> [] ->
  sum_sq_dev (map (fun r => a * r + c) rs) = a * a * sum_sq_dev rs.
Proof.
  intros H. unfold sum_sq_dev. rewrite Rmean_affine by exact H.
  rewrite map_map.
  rewrite <- (Rsum_scale_l (a * a)
                (fun x => (x - Rmean rs) * (x - Rmean rs))).
  f_equal. apply map_ext. intros x. ring.
Qed.

(** [np.var] of an affine image: the variance times the squared slope. *)
Lemma np_var_affine (ddof : nat) (xs : list float) :
  np_var ddof (map sh xs) = sc (a * a) (np_var ddof xs).
Proof.
  destruct (float_list_cases xs) as [[rs ->]|Hn].
  - destruct (le_lt_dec (length rs) ddof) as [Hs|Hl].
    + rewrite !np_var_short by (rewrite ?length_map; exact Hs). reflexivity.
    + rewrite map_sh_some, !np_var_some by (rewrite ?length_map; exact Hl).
      cbn [fmul lift2]. f_equal.
      assert (Hne : rs <> []) by (destruct rs; [simpl in Hl; lia|discriminate]).
      rewrite sum_sq_dev_affine, length_map by exact Hne.
      field. apply INR_pos_neq. lia.
  - rewrite (@np_var_none ddof xs Hn), np_var_none; [reflexivity|].
    apply in_map_iff. exists None. now split.
Qed.

Lemma np_sum_scale (k : R) (xs : list float) :
  np_sum (map (sc k) xs) = sc k (np_sum xs).
Proof.
  induction xs as [|x t IH].
  - cbn. f_equal. ring.
  - cbn [map]. rewrite !np_sum_cons, IH.
    destruct x as [x|], (np_sum t) as [s|]; cbn; try reflexivity.
    f_equal. ring.
Qed.

Lemma np_mean_scale (k : R) (xs : list float) :
  np_mean (map (sc k) xs) = sc k (np_mean xs).
Proof.
  unfold np_mean. rewrite np_sum_scale, length_map.
  destruct (np_sum xs) as [s|]; [|reflexivity].
  unfold of_nat, fdiv. cbn [fmul lift2].
  destruct (Req_dec_T (INR (length xs)) 0) as [E|E]; [reflexivity|].
  cbn [fmul lift2]. f_equal. now field.
Qed.

Section Pass.
Variables n_inputs n_outer n_inner : nat.
Variable V : float.

Local Abbreviation k := (a * a).

Lemma cost_of_affine (out : list float) (j : nat) :
  cost_of n_inputs n_outer n_inner (sc k V) (map sh out) j
  = sc k (cost_of n_inputs n_outer n_inner V out j).
Proof.
  unfold cost_of. destruct (j =? n_inputs - 1)%nat; [reflexivity|].
  rewrite <- np_mean_scale, map_map. f_equal. apply map_ext. intros l.
  now rewrite block_of_map, np_var_affine.
Qed.

Lemma unread_map (f : float -> float) (out : list float) (j : nat) :
  unread n_inputs n_outer n_inner (map f out) j
  = map f (unread n_inputs n_outer n_inner out j).
Proof. unfold unread. apply skipn_map. Qed.

Lemma pass_cost_affine (out : list float) (j : nat) :
  pass_cost n_inputs n_outer n_inner (sc k V) (map sh out) j
  = sc k (pass_cost n_inputs n_outer n_inner V out j).
Proof. unfold pass_cost. now rewrite unread_map, cost_of_affine. Qed.

Lemma pass_delta_affine (out : list float) (j : nat) :
  pass_delta n_inputs n_outer n_inner (sc k V) (map sh out) j
  = sc k (pass_delta n_inputs n_outer n_inner V out j).
Proof.
  unfold pass_delta. rewrite pass_cost_affine.
  assert (Hp : pass_prev n_inputs n_outer n_inner (sc k V) (map sh out) j
               = sc k (pass_prev n_inputs n_outer n_inner V out j)).
  { destruct j as [|j]; cbn [pass_prev]; [|apply pass_cost_affine].
    cbn. f_equal. ring. }
  rewrite Hp.
  destruct (pass_cost n_inputs n_outer n_inner V out j) as [x|],
           (pass_prev n_inputs n_outer n_inner V out j) as [y|];
    cbn; try reflexivity.
  f_equal. ring.
Qed.

Lemma bump_scale (m : R) (i : nat) (d : float) (xs : list float) :
  bump i (sc m d) (map (sc m) xs) = map (sc m) (bump i d xs).
Proof.
  unfold bump. rewrite map_app, firstn_map, skipn_map. cbn [map].
  f_equal. f_equal.
  assert (E : nth i (map (sc m) xs) nan = sc m (nth i xs nan))
    by exact (map_nth (sc m) xs nan i).
  rewrite E.
  destruct (nth i xs nan) as [x|], d as [y|]; cbn; try reflexivity.
  f_equal. ring.
Qed.

Lemma pass_effects_affine (perms : list nat) (out : list float) (n : nat)
    (acc : list float) :
  pass_effects n_inputs n_outer n_inner (sc k V) perms (map sh out) n
               (map (sc k) acc)
  = map (sc k) (pass_effects n_inputs n_outer n_inner V perms out n acc).
Proof.
  unfold pass_effects. induction n as [|n IH]; [reflexivity|].
  rewrite seq_S, !fold_left_app, IH. cbn [fold_left].
  now rewrite pass_delta_affine, bump_scale.
Qed.

Lemma pass_squares_affine (perms : list nat) (out : list float) (n : nat)
    (acc : list float) :
  pass_squares n_inputs n_outer n_inner (sc k V) perms (map sh out) n
               (map (sc (k * k)) acc)
  = map (sc (k * k))
        (pass_squares n_inputs n_outer n_inner V perms out n acc).
Proof.
  unfold pass_squares. induction n as [|n IH]; [reflexivity|].
  rewrite seq_S, !fold_left_app, IH. cbn [fold_left].
  rewrite pass_delta_affine, <- bump_scale. f_equal.
  destruct (pass_delta n_inputs n_outer n_inner V out (0 + n)) as [x|];
    cbn; [|reflexivity].
  f_equal. ring.
Qed.
End Pass.

Section Run.
Variable permutations : list (list nat).
Variables n_inputs n_output n_outer n_inner : nat.
Variable output0 : list float.

Local Abbreviation k := (a * a).

Lemma variance_of_output_affine :
  variance_of_output n_output (map sh output0)
  = sc k (variance_of_output n_output output0).
Proof.
  unfold variance_of_output, slice_to. now rewrite firstn_map, np_var_affine.
Qed.

Lemma pass_start_map (f : float -> float) (p : nat) :
  pass_start n_inputs n_output n_outer n_inner (map f output0) p
  = map f (pass_start n_inputs n_output n_outer n_inner output0 p).
Proof. unfold pass_start, slice_from. now rewrite !skipn_map. Qed.

Lemma np_zeros_scale (m : R) (n : nat) : np_zeros n = map (sc m) (np_zeros n).
Proof.
  unfold np_zeros. rewrite map_repeat. f_equal. cbn. f_equal. ring.
Qed.

Lemma run_effects_affine (n : nat) :
  run_effects permutations n_inputs n_output n_outer n_inner
              (map sh output0) n
  = map (sc k) (run_effects permutations n_inputs n_output n_outer n_inner
                            output0 n).
Proof.
  unfold run_effects. induction n as [|n IH].
  - apply np_zeros_scale.
  - rewrite seq_S, !fold_left_app, IH. cbn [fold_left].
    now rewrite variance_of_output_affine, pass_start_map,
      pass_effects_affine.
Qed.

Lemma run_squares_affine (n : nat) :
  run_squares permutations n_inputs n_output n_outer n_inner
              (map sh output0) n
  = map (sc (k * k))
        (run_squares permutations n_inputs n_output n_outer n_inner
                     output0 n).
Proof.
  unfold run_squares. induction n as [|n IH].
  - apply np_zeros_scale.
  - rewrite seq_S, !fold_left_app, IH. cbn [fold_left].
    now rewrite variance_of_output_affine, pass_start_map,
      pass_squares_affine.
Qed.
End Run.

Hypothesis Ha : a <> 0.

Lemma normalize_affine (n_perms : nat) (V : float) (s s' : locals) :
  shapley_effects s' = map (sc (a * a)) (shapley_effects s) ->
  shapley_effects_squared s'
  = map (sc (a * a * (a * a))) (shapley_effects_squared s) ->
  normalize n_perms (sc (a * a) V) s' = normalize n_perms V s.
Proof.
  intros He Hs.
  assert (Hk : a * a <> 0) by (apply Rmult_integral_contrapositive; now split).
  assert (E1 : map (fun e => fdiv (fdiv e (of_nat n_perms)) (sc (a * a) V))
                   (shapley_effects s')
               = map (fun e => fdiv (fdiv e (of_nat n_perms)) V)
                     (shapley_effects s)).
  { rewrite He, map_map. apply map_ext. intros [x|]; [|reflexivity].
    destruct V as [v|]; cbn [fmul lift2]; unfold of_nat, fdiv;
      destruct (Req_dec_T (INR n_perms) 0) as [E|E]; try reflexivity.
    destruct (Req_dec_T (a * a * v) 0) as [E0|E0],
             (Req_dec_T v 0) as [Ev|Ev]; try reflexivity.
    - exfalso. apply Rmult_integral in E0. tauto.
    - exfalso. apply E0. rewrite Ev. ring.
    - f_equal. now field. }
  assert (E2 : map (fun e => fdiv (fdiv e (of_nat n_perms))
                                  (fmul (sc (a * a) V) (sc (a * a) V)))
                   (shapley_effects_squared s')
               = map (fun e => fdiv (fdiv e (of_nat n_perms)) (fmul V V))
                     (shapley_effects_squared s)).
  { rewrite Hs, map_map. apply map_ext. intros [x|]; [|reflexivity].
    destruct V as [v|]; cbn [fmul lift2]; unfold of_nat, fdiv;
      destruct (Req_dec_T (INR n_perms) 0) as [E|E]; try reflexivity.
    destruct (Req_dec_T (a * a * v * (a * a * v)) 0) as [E0|E0],
             (Req_dec_T (v * v) 0) as [Ev|Ev]; try reflexivity.
    - exfalso. apply Ev.
      assert (Hz : a * a * v = 0)
        by (apply Rmult_integral in E0; tauto).
      apply Rmult_integral in Hz. destruct Hz as [Hz|Hz]; [tauto|].
      rewrite Hz. ring.
    - exfalso. apply E0.
      replace (a * a * v * (a * a * v)) with (a * a * (a * a) * (v * v))
        by ring.
      rewrite Ev. ring.
    - f_equal. field. repeat split; auto.
      intros Hv. apply Ev. rewrite Hv. ring. }
  unfold normalize. cbv zeta. now rewrite E1, E2.
Qed.
End Affine.

Close Scope R_scope.

(** Property X9.  Affine changes of the model output.  In exact
    arithmetic, replacing every model output [y] by [a * y + c] with
    [a <> 0] leaves the whole table unchanged: effects, standard errors and
    confidence bounds do not depend on the unit or the origin of the
    output. *)
Theorem effects_are_affine_invariant
    (permutations : list (list nat))
    (n_perms n_inputs n_output n_outer n_inner : nat)
    (output0 : list float) (a c : R) :
  length permutations = n_perms ->
  Forall (fun perms => Permutation perms (seq 0 n_inputs)) permutations ->
  a <> 0%R ->
  exists df,
    estimate permutations n_perms n_inputs n_output n_outer n_inner output0
    = Returned df /\
    estimate permutations n_perms n_inputs n_output n_outer n_inner
             (map (fun y => fadd (fmul (Some a) y) (Some c)) output0)
    = Returned df.
Proof.
  intros Hlen Hperm Ha.
  pose proof (@permutations_index_lists n_inputs permutations Hperm) as Hv.
  destruct (@estimation_loops_spec permutations n_inputs n_output n_outer
              n_inner output0 Hv) as [s [E [_ _ Ie Is]]].
  destruct (@estimation_loops_spec permutations n_inputs n_output n_outer
              n_inner
              (map (fun y => fadd (fmul (Some a) y) (Some c)) output0) Hv)
    as [s' [E' [_ _ Ie' Is']]].
  rewrite Hlen in *.
  eexists. split; [unfold estimate; rewrite E; reflexivity|].
  unfold estimate. rewrite E'. cbn [obind]. do 2 f_equal.
  rewrite variance_of_output_affine.
  apply normalize_affine; [exact Ha| |].
  - now rewrite Ie', Ie, run_effects_affine.
  - now rewrite Is', Is, run_squares_affine.
Qed.

Lemma effects_are_affine_invariant_witness :
  exists df,
    estimate [[0; 1]; [1; 0]] 2 2 2 1 2
             (map Some [0; 1; 2; 4; 3; 7]%R)
    = Returned df /\
    estimate [[0; 1]; [1; 0]] 2 2 2 1 2
             (map (fun y => fadd (fmul (Some 3%R) y) (Some 10%R))
                  (map Some [0; 1; 2; 4; 3; 7]%R))
    = Returned df.
Proof.
  apply effects_are_affine_invariant.
  - reflexivity.
  - repeat constructor.
  - apply Rgt_not_eq, Rlt_gt. apply (IZR_lt 0 3). lia.
Defined.

(** ** Degenerate output variance (lines 137, 166-173) *)

Lemma fdiv_none_r (a : float) : fdiv a None = None.
Proof. now destruct a. Qed.

Lemma fdiv_zero_product (a : float) : fdiv a (Some (0 * 0)%R) = None.
Proof.
  destruct a as [x|]; [|reflexivity]. unfold fdiv.
  destruct (Req_dec_T (0 * 0) 0) as [_|H]; [reflexivity|].
  exfalso. apply H. apply Rmult_0_l.
Qed.

Lemma map_const_repeat {A B} (b : B) (l : list A) :
  map (fun _ => b) l = repeat b (length l).
Proof. induction l as [|x t IH]; simpl; [reflexivity|now rewrite IH]. Qed.

Lemma zip_with_repeat {A B C} (f : A -> B -> C) (a : A) (b : B) (n : nat) :
  zip_with f (repeat a n) (repeat b n) = repeat (f a b) n.
Proof. induction n as [|n IH]; simpl; [reflexivity|now rewrite IH]. Qed.

Lemma nth_repeat_same {A} (a : A) (n i : nat) : nth i (repeat a n) a = a.
Proof.
  revert i; induction n as [|n IH]; intros [|i]; simpl; auto.
Qed.

Open Scope R_scope.

Lemma Rsum_repeat (c : R) (k : nat) : Rsum (repeat c k) = INR k * c.
Proof.
  induction k as [|k IH]; [unfold Rsum; simpl; lra|].
  rewrite S_INR. unfold Rsum in *. simpl. rewrite IH. lra.
Qed.

Lemma Rsum_zero (l : list R) :
  Forall (fun x => x = 0) l -> Rsum l = 0.
Proof.
  induction 1 as [|x t Hx Ht IH]; unfold Rsum in *; simpl; [reflexivity|].
  rewrite IH, Hx. lra.
Qed.

(** The population variance of equal values is zero. *)
Lemma np_var_constant (c : R) (k : nat) :
  (1 <= k)%nat -> np_var 0 (repeat (Some c) k) = Some 0.
Proof.
  intros Hk. rewrite <- map_repeat.
  rewrite population_variance_spec by (destruct k; [lia|discriminate]).
  f_equal. unfold population_variance, sum_sq_dev, Rmean.
  rewrite Rsum_repeat, repeat_length.
  assert (HN : INR k <> 0) by (apply INR_pos_neq; lia).
  rewrite Rsum_zero; [unfold Rdiv; apply Rmult_0_l|].
  apply Forall_map, Forall_forall. intros x Hx.
  apply repeat_spec in Hx. subst x. field. exact HN.
Qed.

Close Scope R_scope.

Lemma degenerate_normalize (n_perms : nat) (V : float) (s : locals) :
  V = None \/ V = Some 0%R ->
  length (shapley_effects s) = length (shapley_effects_squared s) ->
  let e := normalize n_perms V s in
  let n := length (shapley_effects s) in
  effects e = repeat nan n /\ standard_errors e = repeat nan n /\
  CI_min e = repeat nan n /\ CI_max e = repeat nan n.
Proof.
  intros HV Hlen e n. unfold e, normalize.
  cbn [effects standard_errors CI_min CI_max].
  assert (He : map (fun x => fdiv (fdiv x (of_nat n_perms)) V)
                   (shapley_effects s) = repeat nan n).
  { unfold n. rewrite <- map_const_repeat. apply map_ext. intros x.
    destruct HV as [-> | ->]; [apply fdiv_none_r|apply fdiv_by_zero]. }
  assert (Hq : map (fun x => fdiv (fdiv x (of_nat n_perms)) (fmul V V))
                   (shapley_effects_squared s) = repeat nan n).
  { unfold n. rewrite Hlen, <- map_const_repeat. apply map_ext. intros x.
    destruct HV as [-> | ->]; [apply fdiv_none_r|].
    cbn [fmul lift2]. apply fdiv_zero_product. }
  rewrite He, Hq, zip_with_repeat.
  cbn [fmul fsub lift2 fdiv np_sqrt nan].
  rewrite !zip_with_repeat. cbn [fmul fsub fadd lift2 z95 nan].
  repeat split; reflexivity.
Qed.

Lemma transpose_of_nan_columns (n : nat) :
  transpose n [repeat nan n; repeat nan n; repeat nan n; repeat nan n]
  = repeat [nan; nan; nan; nan] n.
Proof.
  unfold transpose, column. cbn [map].
  transitivity (map (fun _ : nat => [nan; nan; nan; nan]) (seq 0 n)).
  - apply map_ext. intros i. now rewrite !nth_repeat_same.
  - now rewrite map_const_repeat, length_seq.
Qed.

Lemma labels_length (n : nat) : length (labels n) = n.
Proof. unfold labels. now rewrite !length_map, range_0, length_seq. Qed.

(** Property X10.  A degenerate output variance.  When the variance of
    the first [n_output] outputs is not a number ([n_output = 0], or a
    non-finite output among them) or is zero (the outputs are all equal),
    the routine still returns: the table has its usual labels, and every
    cell of it is non-finite.  The embedding writes [nan] for every
    non-finite value; NumPy gives nan or an infinity for the effect and nan
    for the other three cells. *)
Theorem degenerate_variance_gives_nan_table
    (permutations : list (list nat))
    (n_perms n_inputs n_output n_outer n_inner : nat) (output0 : list float) :
  length permutations = n_perms ->
  Forall (fun perms => Permutation perms (seq 0 n_inputs)) permutations ->
  variance_of_output n_output output0 = None \/
  variance_of_output n_output output0 = Some 0%R ->
  estimate permutations n_perms n_inputs n_output n_outer n_inner output0
  = Returned
      {| df_index := labels n_inputs;
         df_columns :=
           ["Shapley effects"; "std. errors"; "CI_min"; "CI_max"]%string;
         df_values := repeat [nan; nan; nan; nan] n_inputs |}.
Proof.
  intros Hlen Hperm HV.
  pose proof (@permutations_index_lists n_inputs permutations Hperm) as Hv.
  destruct (@estimation_loops_spec permutations n_inputs n_output n_outer
              n_inner output0 Hv) as [s [E [_ _ Ie Is]]].
  rewrite Hlen in *.
  assert (Ha : length (shapley_effects s) = n_inputs)
    by (rewrite Ie; apply run_effects_length; [exact Hv|lia]).
  assert (Hb : length (shapley_effects_squared s) = n_inputs)
    by (rewrite Is; apply run_squares_length; [exact Hv|lia]).
  unfold estimate. rewrite E. cbn [obind]. f_equal.
  destruct (@degenerate_normalize n_perms
              (variance_of_output n_output output0) s HV)
    as (H1 & H2 & H3 & H4); [congruence|].
  unfold table, df_T, pd_DataFrame. cbn [df_index df_columns df_values].
  rewrite H1, H2, H3, H4, Ha, labels_length.
  now rewrite transpose_of_nan_columns.
Qed.

Lemma degenerate_variance_gives_nan_table_witness :
  length [[0; 1]] = 1 /\
  (variance_of_output 3 (map Some [5; 5; 5; 1; 2]%R) = None \/
   variance_of_output 3 (map Some [5; 5; 5; 1; 2]%R) = Some 0%R) /\
  estimate [[0; 1]] 1 2 3 1 2 (map Some [5; 5; 5; 1; 2]%R)
  = Returned
      {| df_index := labels 2;
         df_columns :=
           ["Shapley effects"; "std. errors"; "CI_min"; "CI_max"]%string;
         df_values := repeat [nan; nan; nan; nan] 2 |}.
Proof.
  assert (HV : variance_of_output 3 (map Some [5; 5; 5; 1; 2]%R) = Some 0%R)
    by (apply (np_var_constant 5 (k := 3)); lia).
  split; [reflexivity|]. split; [now right|].
  apply degenerate_variance_gives_nan_table.
  - reflexivity.
  - repeat constructor.
  - now right.
Defined.

(** ** A single input (lines 143-173 with [n_inputs = 1]) *)

Open Scope R_scope.

Section SingleInput.
Variable permutations : list (list nat).
Variables n_output n_outer n_inner : nat.
Variable output0 : list float.
Variable v : R.

Hypothesis Hperm :
  Forall (fun perms => Permutation perms (seq 0 1)) permutations.
Hypothesis HV : variance_of_output n_output output0 = Some v.

Lemma single_input_pass (p : nat) (x : R) :
  (p < length permutations)%nat ->
  pass_effects 1 n_outer n_inner (variance_of_output n_output output0)
               (nth p permutations [])
               (pass_start 1 n_output n_outer n_inner output0 p) 1 [Some x]
  = [Some (x + v)] /\
  pass_squares 1 n_outer n_inner (variance_of_output n_output output0)
               (nth p permutations [])
               (pass_start 1 n_output n_outer n_inner output0 p) 1 [Some x]
  = [Some (x + v * v)].
Proof.
  intros Hp.
  assert (Hpp : Permutation (nth p permutations []) (seq 0 1)).
  { rewrite Forall_forall in Hperm. apply Hperm, nth_In. exact Hp. }
  assert (H0 : nth 0 (nth p permutations []) 0%nat = 0%nat).
  { pose proof (@perm_seq_bound (nth p permutations []) 1 0 Hpp). lia. }
  unfold pass_effects, pass_squares. cbn [seq fold_left]. rewrite H0.
  unfold pass_delta, pass_cost, cost_of. cbn [Nat.sub Nat.eqb pass_prev].
  rewrite HV. cbn. split; do 2 f_equal; ring.
Qed.

Lemma single_input_run (k : nat) :
  (k <= length permutations)%nat ->
  run_effects permutations 1 n_output n_outer n_inner output0 k
  = [Some (INR k * v)] /\
  run_squares permutations 1 n_output n_outer n_inner output0 k
  = [Some (INR k * (v * v))].
Proof.
  induction k as [|k IH]; intros Hk.
  - unfold run_effects, run_squares. cbn. split; do 2 f_equal; ring.
  - destruct IH as [IHe IHs]; [lia|].
    destruct (@single_input_pass k (INR k * v)) as [He _]; [lia|].
    destruct (@single_input_pass k (INR k * (v * v))) as [_ Hs]; [lia|].
    unfold run_effects, run_squares in *.
    rewrite seq_S, !fold_left_app, IHe, IHs. cbn [fold_left Nat.add].
    rewrite He, Hs, S_INR. split; do 2 f_equal; ring.
Qed.
End SingleInput.

(** Property X11.  A single input.  With [n_inputs = 1], at least one
    permutation and an output variance that is a nonzero number, the table
    has the single row "X1" with effect 1, standard error 0 and confidence
    bounds 1 and 1 (in exact arithmetic), whatever the remaining outputs and
    the sample sizes [n_outer] and [n_inner] are. *)
Theorem single_input_gets_all_the_variance
    (permutations : list (list nat))
    (n_perms n_output n_outer n_inner : nat) (output0 : list float) (v : R) :
  length permutations = n_perms -> (1 <= n_perms)%nat ->
  Forall (fun perms => Permutation perms (seq 0 1)) permutations ->
  variance_of_output n_output output0 = Some v -> v <> 0 ->
  estimate permutations n_perms 1 n_output n_outer n_inner output0
  = Returned
      {| df_index := ["X1"%string];
         df_columns :=
           ["Shapley effects"; "std. errors"; "CI_min"; "CI_max"]%string;
         df_values := [[Some 1; Some 0; Some 1; Some 1]] |}.
Proof.
  intros Hlen Hn Hperm HV Hv.
  pose proof (@permutations_index_lists 1 permutations Hperm) as Hvalid.
  destruct (@estimation_loops_spec permutations 1 n_output n_outer
              n_inner output0 Hvalid) as [s [E [_ _ Ie Is]]].
  destruct (@single_input_run permutations n_output n_outer n_inner output0
              v Hperm HV (length permutations) (le_n _)) as [Re Rs].
  rewrite Re in Ie. rewrite Rs in Is. rewrite Hlen in *.
  unfold estimate. rewrite E. cbn [obind]. f_equal.
  assert (HN : INR n_perms <> 0) by (apply INR_pos_neq; lia).
  assert (Hvv : v * v <> 0) by (apply Rmult_integral_contrapositive; now split).
  unfold table, normalize, df_T, pd_DataFrame.
  cbn [df_index df_columns df_values effects standard_errors CI_min CI_max].
  rewrite Ie, Is, HV. cbn [map fmul lift2 zip_with]. unfold of_nat.
  rewrite !fdiv_some by assumption.
  replace (INR n_perms * v / INR n_perms / v) with 1 by (now field).
  replace (INR n_perms * (v * v) / INR n_perms / (v * v)) with 1
    by (now field).
  cbn [fsub fmul lift2]. rewrite fdiv_some by assumption.
  replace ((1 - 1 * 1) / INR n_perms) with 0 by (now field).
  rewrite np_sqrt_some by lra. rewrite sqrt_0.
  unfold z95. cbn [fsub fadd fmul lift2].
  replace (1 - 196 / 100 * 0) with 1 by field.
  replace (1 + 196 / 100 * 0) with 1 by field.
  reflexivity.
Qed.

Lemma single_input_gets_all_the_variance_witness :
  estimate [[0]; [0]]%nat 2 1 2 1 2 (map Some six_outputs)
  = Returned
      {| df_index := ["X1"%string];
         df_columns :=
           ["Shapley effects"; "std. errors"; "CI_min"; "CI_max"]%string;
         df_values := [[Some 1; Some 0; Some 1; Some 1]] |}.
Proof.
  apply single_input_gets_all_the_variance with (v := 1 / 4).
  - reflexivity.
  - lia.
  - repeat constructor.
  - exact variance_of_six.
  - lra.
Defined.

Close Scope R_scope.

(** ** The rows of the table (lines 168-181) *)

Lemma np_sqrt_nonneg (x : float) (r : R) : np_sqrt x = Some r -> (0 <= r)%R.
Proof.
  destruct x as [y|]; [|discriminate]. unfold np_sqrt.
  destruct (Rlt_dec y 0); [discriminate|].
  intros [= <-]. apply sqrt_pos.
Qed.

(** Row [i] of the table made of the accumulators [s]. *)
Lemma table_row (n_perms n_inputs : nat) (V : float) (s : locals) (i : nat) :
  length (shapley_effects s) = n_inputs ->
  length (shapley_effects_squared s) = n_inputs ->
  i < n_inputs ->
  exists sq effect,
    let se := np_sqrt (fdiv (fsub sq (fmul effect effect)) (of_nat n_perms)) in
    nth_error (df_values (table n_inputs (normalize n_perms V s))) i
    = Some [effect; se; fsub effect (fmul z95 se); fadd effect (fmul z95 se)].
Proof.
  intros Ha Hb Hi.
  destruct (@normalize_lengths n_perms n_inputs V s Ha Hb)
    as (L1 & L2 & L3 & L4 & L5).
  set (e := normalize n_perms V s) in *.
  destruct (@nth_error_zip_with_inv _ _ _
              (fun sq x =>
                 np_sqrt (fdiv (fsub sq (fmul x x)) (of_nat n_perms)))
              (effects_squared e) (effects e) i)
    as (sq & effect & Hsq & He & Hse); [lia|lia|].
  change (zip_with _ (effects_squared e) (effects e))
    with (standard_errors e) in Hse.
  pose proof (nth_error_zip_with (fun x se => fsub x (fmul z95 se)) _ _ _
                He Hse) as Hmin.
  pose proof (nth_error_zip_with (fun x se => fadd x (fmul z95 se)) _ _ _
                He Hse) as Hmax.
  change (zip_with _ (effects e) (standard_errors e)) with (CI_min e) in Hmin.
  change (zip_with _ (effects e) (standard_errors e)) with (CI_max e) in Hmax.
  exists sq, effect. cbv zeta.
  unfold table, df_T, pd_DataFrame, transpose.
  cbn [df_values df_columns df_index].
  assert (Hlab : length (labels n_inputs) = n_inputs).
  { unfold labels. now rewrite !length_map, range_0, length_seq. }
  rewrite Hlab, nth_error_map, nth_error_seq.
  destruct (i <? n_inputs) eqn:Ei; [|apply Nat.ltb_ge in Ei; lia].
  cbn [option_map Nat.add column map].
  rewrite (nth_error_nth _ _ nan He), (nth_error_nth _ _ nan Hse),
    (nth_error_nth _ _ nan Hmin), (nth_error_nth _ _ nan Hmax).
  reflexivity.
Qed.

(** Property X12.  The rows of the table.  The table has [n_inputs]
    rows, and each of them is of one of two kinds: the standard error and
    both confidence bounds are non-finite; or all four cells are finite,
    the standard error is non-negative, the bounds are
    [effect - 1.96 * se] and [effect + 1.96 * se], and
    [CI_min <= effect <= CI_max]. *)
Theorem table_rows_are_consistent
    (permutations : list (list nat))
    (n_perms n_inputs n_output n_outer n_inner : nat) (output0 : list float) :
  length permutations = n_perms ->
  Forall (fun perms => Permutation perms (seq 0 n_inputs)) permutations ->
  exists df,
    estimate permutations n_perms n_inputs n_output n_outer n_inner output0
    = Returned df /\
    length (df_values df) = n_inputs /\
    forall row, In row (df_values df) ->
      (exists effect, row = [effect; nan; nan; nan]) \/
      (exists x r : R,
         row = [Some x; Some r;
                Some (x - 196 / 100 * r)%R; Some (x + 196 / 100 * r)%R] /\
         (0 <= r)%R /\
         (x - 196 / 100 * r <= x <= x + 196 / 100 * r)%R).
Proof.
  intros Hlen Hperm.
  pose proof (@permutations_index_lists n_inputs permutations Hperm) as Hv.
  destruct (@estimation_loops_spec permutations n_inputs n_output n_outer
              n_inner output0 Hv) as [s [E [_ _ Ie Is]]].
  rewrite Hlen in *.
  assert (Ha : length (shapley_effects s) = n_inputs)
    by (rewrite Ie; apply run_effects_length; [exact Hv|lia]).
  assert (Hb : length (shapley_effects_squared s) = n_inputs)
    by (rewrite Is; apply run_squares_length; [exact Hv|lia]).
  eexists. split; [unfold estimate; rewrite E; reflexivity|].
  assert (Hrows :
            length (df_values
                      (table n_inputs
                         (normalize n_perms
                            (variance_of_output n_output output0) s)))
            = n_inputs).
  { unfold table, df_T, pd_DataFrame, transpose.
    cbn [df_values df_columns df_index].
    unfold labels. now rewrite !length_map, range_0, !length_seq. }
  split; [exact Hrows|].
  intros row Hin. apply In_nth_error in Hin as [i Hi].
  assert (Hlt : i < n_inputs).
  { rewrite <- Hrows. apply nth_error_Some. congruence. }
  destruct (@table_row n_perms n_inputs (variance_of_output n_output output0)
              s i Ha Hb Hlt) as (sq & effect & Hrow).
  cbv zeta in Hrow. rewrite Hrow in Hi. injection Hi as <-.
  destruct (np_sqrt (fdiv (fsub sq (fmul effect effect)) (of_nat n_perms)))
    as [r|] eqn:Hse.
  - right. pose proof (np_sqrt_nonneg _ Hse) as Hr.
    destruct effect as [x|].
    + exists x, r. split; [reflexivity|]. split; [exact Hr|]. lra.
    + destruct sq; discriminate.
  - left. exists effect. now destruct effect.
Qed.

Lemma table_rows_are_consistent_witness :
  exists df,
    estimate [[0; 1]; [1; 0]] 2 2 2 1 2 (map Some six_outputs)
    = Returned df /\
    length (df_values df) = 2 /\
    forall row, In row (df_values df) ->
      (exists effect, row = [effect; nan; nan; nan]) \/
      (exists x r : R,
         row = [Some x; Some r;
                Some (x - 196 / 100 * r)%R; Some (x + 196 / 100 * r)%R] /\
         (0 <= r)%R /\
         (x - 196 / 100 * r <= x <= x + 196 / 100 * r)%R).
Proof.
  apply table_rows_are_consistent.
  - reflexivity.
  - repeat constructor.
Defined.

(** ** The row labels (line 175) *)

Lemma str_injective (i j : nat) : str i = str j -> i = j.
Proof.
  unfold str. intros H.
  assert (Hu : Nat.to_uint i = Nat.to_uint j).
  { apply (f_equal NilEmpty.uint_of_string) in H.
    rewrite !NilEmpty.usu in H. now injection H. }
  apply (f_equal Nat.of_uint) in Hu.
  now rewrite !DecimalNat.Unsigned.of_to in Hu.
Qed.

Lemma NoDup_map_injective {A B} (f : A -> B) (l : list A) :
  (forall x y, f x = f y -> x = y) -> NoDup l -> NoDup (map f l).
Proof.
  intros Hf. induction 1 as [|x t Hx Ht IH]; cbn [map]; constructor.
  - intros Hin. apply in_map_iff in Hin as (y & Hy & Hyt).
    apply Hf in Hy. now subst.
  - exact IH.
Qed.

(** Property X13.  The row labels.  The table made of any estimates has
    [n_inputs] row labels, and they are pairwise distinct. *)
Theorem row_labels_are_distinct (n_inputs : nat) (e : estimates) :
  length (df_index (table n_inputs e)) = n_inputs /\
  NoDup (df_index (table n_inputs e)).
Proof.
  unfold table, df_T, pd_DataFrame. cbn [df_index df_columns]. split.
  - unfold labels. now rewrite !length_map, range_0, length_seq.
  - unfold labels. rewrite map_map, range_0.
    apply NoDup_map_injective; [|apply seq_NoDup].
    intros i j H. injection H as H. apply str_injective in H. lia.
Qed.
